(** * Note-App: markdown synchronisation, wiki-link graph and folder tree

    A shallow embedding of the TypeScript sources

    - [src/utils/graphUtils.ts]        ([generateGraphData], and the
      application component with [getBacklinks] and [handleMoveFolder]; of
      the same component the breadcrumbs, the tabs and the selection, the
      handlers that create, rename and delete notes and folders, the wiki-link
      click, the attachments and the sidebar search),
    - [src/components/TiptapEditor.tsx] (the turndown [wikiLinks] rule, the
      [DelayedMarkdown] Enter handler, the content synchronisation effect,
      the [WikiLinkExtension] mark, the click on a wiki link and the command
      palette),
    - [src/components/MarkdownEditor.tsx] (the toolbar's [insertFormat]),

    followed by the properties checked against them.

    JavaScript strings are sequences of UTF-16 code units.  They are modelled
    by [string], that is by sequences of 8-bit code units: the model covers
    the strings whose code units lie in U+0000..U+00FF (Latin-1), on which
    [toLowerCase], [trim] and the regular-expression classes used by the
    sources are written out below. *)

From Stdlib Require Import ZArith Lia Ascii String List Bool.
From stdpp Require Import base tactics option relations list strings gmap pretty.

Local Open Scope Z_scope.

(** ** JavaScript string primitives used by the sources *)

Module JS.

Definition code (c : ascii) : N := N_of_ascii c.

(** Line terminators: the characters the regular-expression [.] refuses
    (U+2028 and U+2029 lie outside the modelled range). *)
Definition isLineTerminator (c : ascii) : bool :=
  (code c =? 10)%N || (code c =? 13)%N.

(** White space: the class [\s] and the characters removed by [trim]
    (TAB, LF, VT, FF, CR, SPACE, NO-BREAK SPACE in the modelled range). *)
Definition isWhiteSpace (c : ascii) : bool :=
  ((9 <=? code c) && (code c <=? 13))%N || (code c =? 32)%N || (code c =? 160)%N.

(** [\d] *)
Definition isDigit (c : ascii) : bool :=
  ((48 <=? code c) && (code c <=? 57))%N.

(** [\w] is [[A-Za-z0-9_]] *)
Definition isWordChar (c : ascii) : bool :=
  (((65 <=? code c) && (code c <=? 90)) || ((97 <=? code c) && (code c <=? 122))
   || ((48 <=? code c) && (code c <=? 57)) || (code c =? 95))%N.

(** [[\s\S]] and the unrestricted part of other classes *)
Definition anyChar (_ : ascii) : bool := true.

Definition notLineTerminator (c : ascii) : bool := negb (isLineTerminator c).

(** [String.prototype.toLowerCase], one code unit at a time: A-Z and the
    Latin-1 capitals U+00C0..U+00DE except the multiplication sign U+00D7. *)
Definition toLowerCaseChar (c : ascii) : ascii :=
  if (((65 <=? code c) && (code c <=? 90))
      || ((192 <=? code c) && (code c <=? 222) && negb (code c =? 215)))%N
  then ascii_of_N (code c + 32) else c.

Fixpoint toLowerCase (s : string) : string :=
  match s with
  | EmptyString => EmptyString
  | String c s' => String (toLowerCaseChar c) (toLowerCase s')
  end.

(** [s.length] *)
Definition length (s : string) : Z := Z.of_nat (String.length s).

(** Truthiness of a string: only the empty string is falsy. *)
Definition truthy (s : string) : bool :=
  match s with EmptyString => false | String _ _ => true end.

(** Truthiness of an optional string ([undefined] or a string). *)
Definition truthyOpt (o : option string) : option string :=
  match o with
  | Some s => if truthy s then Some s else None
  | None => None
  end.

Fixpoint startsWith (p s : string) : bool :=
  match p, s with
  | EmptyString, _ => true
  | String a p', String b s' => if Ascii.eqb a b then startsWith p' s' else false
  | String _ _, EmptyString => false
  end.

Fixpoint drop (n : nat) (s : string) : string :=
  match n, s with
  | O, _ => s
  | S n', String _ s' => drop n' s'
  | S _, EmptyString => EmptyString
  end.

Fixpoint take (n : nat) (s : string) : string :=
  match n, s with
  | O, _ => EmptyString
  | S n', String c s' => String c (take n' s')
  | S _, EmptyString => EmptyString
  end.

(** [s.endsWith(p)] *)
Definition endsWith (p s : string) : bool :=
  (String.length p <=? String.length s)%nat
  && String.eqb (drop (String.length s - String.length p) s) p.

(** [s.includes(p)] *)
Fixpoint includes (p s : string) : bool :=
  startsWith p s ||
  match s with
  | EmptyString => false
  | String _ s' => includes p s'
  end.

(** [s.replace(p, r)] with a string pattern: the first occurrence only. *)
Fixpoint replaceFirst (p r s : string) : string :=
  if startsWith p s then r +:+ drop (String.length p) s
  else match s with
       | EmptyString => EmptyString
       | String c s' => String c (replaceFirst p r s')
       end.

(** [s.split(sep)[0]] for a one-character separator. *)
Fixpoint splitHead (sep : ascii) (s : string) : string :=
  match s with
  | EmptyString => EmptyString
  | String c s' => if Ascii.eqb c sep then EmptyString else String c (splitHead sep s')
  end.

Fixpoint trimStart (s : string) : string :=
  match s with
  | EmptyString => EmptyString
  | String c s' => if isWhiteSpace c then trimStart s' else s
  end.

Fixpoint trimEnd (s : string) : string :=
  match s with
  | EmptyString => EmptyString
  | String c s' =>
      match trimEnd s' with
      | EmptyString => if isWhiteSpace c then EmptyString else String c EmptyString
      | t => String c t
      end
  end.

Definition trim (s : string) : string := trimEnd (trimStart s).

(** [s.slice(0, -1)] *)
Definition sliceDropLast (s : string) : string := take (String.length s - 1) s.

(** [s.substring(a, b)] for [a <= b]. *)
Definition substring (a b : nat) (s : string) : string := take (b - a) (drop a s).

Fixpoint forallb (f : ascii -> bool) (s : string) : bool :=
  match s with
  | EmptyString => true
  | String c s' => f c && forallb f s'
  end.

Fixpoint existsb (f : ascii -> bool) (s : string) : bool :=
  match s with
  | EmptyString => false
  | String c s' => f c || existsb f s'
  end.

(** *** A backtracking matcher for the lazy quantifiers of the sources

    [lazyThen ok stop k s] matches [(C*?)stop] followed by the rest of the
    pattern [k], where [C] is the character class [ok]: the shortest capture
    is tried first and extended by one character whenever the continuation
    fails, as the regular-expression engine does.  The result is the capture
    and whatever the continuation returns. *)
Fixpoint lazyThen {R : Type} (ok : ascii -> bool) (stop : string)
    (k : string -> option R) (s : string) : option (string * R) :=
  match (if startsWith stop s then k (drop (String.length stop) s) else None) with
  | Some r => Some (EmptyString, r)
  | None =>
      match s with
      | EmptyString => None
      | String c s' =>
          if ok c then
            match lazyThen ok stop k s' with
            | Some (cap, r) => Some (String c cap, r)
            | None => None
            end
          else None
      end
  end.

(** A global ([/g]) scan with a pattern that never matches the empty string.
    [matchAt s] tries the pattern at the start of [s] and returns a result
    and the input that follows the match.  Matches are found left to right
    and do not overlap: after a match the characters it consumed are
    skipped. *)
Section Global.
Context {R : Type} (matchAt : string -> option (R * string)).

Definition consumed (s rest : string) : nat :=
  (String.length s - String.length rest)%nat.

(** The results of all matches, as the [while (re.exec(s))] loop sees them. *)
Fixpoint execAll (skip : nat) (s : string) : list R :=
  match s with
  | EmptyString => []
  | String _ s' =>
      match skip with
      | S k => execAll k s'
      | O =>
          match matchAt s with
          | Some (r, rest) => r :: execAll (consumed s rest - 1) s'
          | None => execAll O s'
          end
      end
  end.

(** [s.replace(re, ...)] with the global flag: [render] gives the text
    that replaces a match. *)
Fixpoint replaceAll (render : R -> string) (skip : nat) (s : string) : string :=
  match s with
  | EmptyString => EmptyString
  | String c s' =>
      match skip with
      | S k => replaceAll render k s'
      | O =>
          match matchAt s with
          | Some (r, rest) => render r +:+ replaceAll render (consumed s rest - 1) s'
          | None => String c (replaceAll render O s')
          end
      end
  end.
End Global.

End JS.

(** ** The data model ([types.ts]) *)

Record Note := mkNote {
  note_id : string;
  note_title : string;
  note_content : string;
  note_folderId : option string
}.

Record Folder := mkFolder {
  folder_id : string;
  folder_name : string;
  parentId : option string;
  collapsed : option bool
}.

Record GraphNode := mkGraphNode {
  node_id : string;
  node_title : string;
  group : Z
}.

Record GraphLink := mkGraphLink {
  source : string;
  target : string;
  value : Z
}.

Record GraphData := mkGraphData {
  nodes : list GraphNode;
  links : list GraphLink
}.

(** ** [generateGraphData] ([src/utils/graphUtils.ts]) *)

(** [/\[\[(.*?)\]\]/] tried at the start of the input: the capture and the
    input after the match. *)
Definition wikiLinkRegex (s : string) : option (string * string) :=
  if JS.startsWith "[[" s
  then JS.lazyThen JS.notLineTerminator "]]" Some (JS.drop 2 s)
  else None.

(** [folders.forEach((folder, index) => folderToGroupMap.set(folder.id, index + 2))] *)
Definition folderToGroupMap (folders : list Folder) : gmap string Z :=
  foldl (fun (m : gmap string Z) '(index, folder) =>
           <[folder_id folder := Z.of_nat index + 2]> m)
        ∅ (imap (fun index folder => (index, folder)) folders).

(** [new Map(notes.map(n => [n.title.toLowerCase(), n.id]))]: a later note
    with the same lower-cased title replaces an earlier one. *)
Definition noteTitleToIdMap (notes : list Note) : gmap string string :=
  foldl (fun (m : gmap string string) n =>
           <[JS.toLowerCase (note_title n) := note_id n]> m) ∅ notes.

Definition nodeOfNote (groups : gmap string Z) (note : Note) : GraphNode :=
  mkGraphNode (note_id note) (note_title note)
    match JS.truthyOpt (note_folderId note) with
    | Some f =>
        match groups !! f with
        | Some g => if g =? 0 then 1 else g
        | None => 1
        end
    | None => 1
    end.

(** [match[1].split('|')[0].trim().toLowerCase()] *)
Definition targetTitle (capture : string) : string :=
  JS.toLowerCase (JS.trim (JS.splitHead "|" capture)).

(** The links pushed while one source note is scanned. *)
Definition linksOfNote (titles : gmap string string) (sourceNote : Note) : list GraphLink :=
  omap (fun capture =>
          match titles !! targetTitle capture with
          | Some targetId =>
              if decide (targetId = note_id sourceNote) then None
              else Some (mkGraphLink (note_id sourceNote) targetId 1)
          | None => None
          end)
       (JS.execAll wikiLinkRegex O (note_content sourceNote)).

Definition sameEndpoints (link l : GraphLink) : bool :=
  bool_decide (source l = source link) && bool_decide (target l = target link).

(** [self.findIndex(p)], [-1] when no element satisfies [p]. *)
Fixpoint findIndex {A : Type} (p : A -> bool) (l : list A) : Z :=
  match l with
  | [] => -1
  | x :: l' => if p x then 0 else
                 let i := findIndex p l' in if i <? 0 then -1 else i + 1
  end.

(** [self.filter((x, index, self) => p x index)] *)
Fixpoint filterIndexed {A : Type} (p : A -> Z -> bool) (index : Z) (l : list A) : list A :=
  match l with
  | [] => []
  | x :: l' => if p x index then x :: filterIndexed p (index + 1) l'
               else filterIndexed p (index + 1) l'
  end.

Definition uniqueLinks (links : list GraphLink) : list GraphLink :=
  filterIndexed (fun link index => index =? findIndex (sameEndpoints link) links) 0 links.

Definition generateGraphData (notes : list Note) (folders : list Folder) : GraphData :=
  let groups := folderToGroupMap folders in
  let nodes := map (nodeOfNote groups) notes in
  let titles := noteTitleToIdMap notes in
  let links := concat (map (linksOfNote titles) notes) in
  mkGraphData nodes (uniqueLinks links).

(** ** [getBacklinks] (application component) *)

Definition linksToTitle (targetTitleLower : string) (n : Note) : bool :=
  let contentLower := JS.toLowerCase (note_content n) in
  JS.includes ("[[" +:+ targetTitleLower +:+ "]]") contentLower
  || JS.includes ("[[" +:+ targetTitleLower +:+ "|") contentLower.

Definition getBacklinks (notes : list Note) (targetId : string) : list Note :=
  match List.find (fun n => String.eqb (note_id n) targetId) notes with
  | None => []
  | Some targetNote =>
      let targetTitleLower := JS.toLowerCase (note_title targetNote) in
      List.filter (fun n => negb (String.eqb (note_id n) targetId)
                            && linksToTitle targetTitleLower n) notes
  end.

(** ** [handleMoveFolder] (application component) *)

(** [folders.find((f) => f.id === current)?.parentId] *)
Definition parentOf (folders : list Folder) (current : string) : option string :=
  match List.find (fun f => String.eqb (folder_id f) current) folders with
  | Some f => parentId f
  | None => None
  end.

(** The [while (current)] loop.  [Some b] is the value of [isDescendant] when
    the loop exits; [None] means that the iterations allowed by [fuel] did not
    reach the exit (the loop of the source has no bound of its own). *)
Fixpoint isDescendantLoop (fuel : nat) (folders : list Folder) (folderId : string)
    (current : option string) : option bool :=
  match fuel with
  | O => None
  | S n =>
      match JS.truthyOpt current with
      | None => Some false
      | Some c =>
          if String.eqb c folderId then Some true
          else isDescendantLoop n folders folderId (parentOf folders c)
      end
  end.

(** [f.id === folderId ? { ...f, parentId: targetParentId } : f] *)
Definition setParent (folderId : string) (targetParentId : option string) (f : Folder) : Folder :=
  if String.eqb (folder_id f) folderId
  then mkFolder (folder_id f) (folder_name f) targetParentId (collapsed f)
  else f.

(** The folder state after [handleMoveFolder(folderId, targetParentId)]. *)
Definition handleMoveFolder (folders : list Folder) (folderId : string)
    (targetParentId : option string) : option (list Folder) :=
  if decide (Some folderId = targetParentId) then Some folders
  else
    match isDescendantLoop (length folders + 2) folders folderId targetParentId with
    | None => None
    | Some true => Some folders
    | Some false => Some (map (setParent folderId targetParentId) folders)
    end.

(** A sequence of move requests, applied in order. *)
Fixpoint moveFolders (folders : list Folder) (moves : list (string * option string))
    : option (list Folder) :=
  match moves with
  | [] => Some folders
  | (folderId, targetParentId) :: rest =>
      match handleMoveFolder folders folderId targetParentId with
      | Some folders' => moveFolders folders' rest
      | None => None
      end
  end.

(** The parent chain, as the application walks it ([getBreadcrumbs],
    [handleMoveFolder]): the parent of the folder [a] is the truthy [parentId]
    of the first folder whose id is [a]. *)
Definition isParent (folders : list Folder) (a b : string) : Prop :=
  JS.truthyOpt (parentOf folders a) = Some b.

(** [b] is an ancestor of [a]. *)
Definition isAncestor (folders : list Folder) (a b : string) : Prop :=
  tc (isParent folders) a b.

(** No folder is its own ancestor. *)
Definition cycleFree (folders : list Folder) : Prop :=
  forall x, ~ isAncestor folders x x.

(** The parent chain that starts at [t] passes through [f]. *)
Definition chainPassesThrough (folders : list Folder) (t f : string) : Prop :=
  rtc (isParent folders) t f.

(** ** The editor component ([src/components/TiptapEditor.tsx]) *)

(** Characters that cannot be written inside a string literal. *)
Definition dq : string := String (ascii_of_nat 34) EmptyString.
Definition nl : string := String (ascii_of_nat 10) EmptyString.
Definition tab : string := String (ascii_of_nat 9) EmptyString.
Definition fence : string := "```".

(** *** DOM elements as turndown rules see them *)

Record DomElement := mkDomElement {
  nodeName : string;
  attributes : list (string * string)
}.

(** [node.getAttribute(name)] *)
Definition getAttribute (node : DomElement) (name : string) : option string :=
  match List.find (fun a => String.eqb (fst a) name) (attributes node) with
  | Some a => Some (snd a)
  | None => None
  end.

(** A turndown rule: [{ filter, replacement }]. *)
Record Rule := mkRule {
  filter : DomElement -> bool;
  replacement : string -> DomElement -> string
}.

Record TurndownOptions := mkTurndownOptions {
  headingStyle : string;
  codeBlockStyle : string
}.

(** [new TurndownService({ headingStyle: "atx", codeBlockStyle: "fenced" })] *)
Definition turndownOptions : TurndownOptions := mkTurndownOptions "atx" "fenced".

(** [turndownService.addRule("wikiLinks", ...)] *)
Definition wikiLinks : Rule :=
  mkRule
    (fun node =>
       String.eqb (nodeName node) "A"
       && match getAttribute node "href" with
          | Some href => JS.startsWith "wiki:" href
          | None => false
          end)
    (fun content node =>
       let href := getAttribute node "href" in
       let pageName :=
         match JS.truthyOpt href with
         | Some h => JS.replaceFirst "wiki:" EmptyString h
         | None => content
         end in
       "[[" +:+ pageName +:+ "]]").

(** *** [WikiLinkExtension]: the wiki-link mark *)

(** A run of text carrying the [wikiLink] mark; [href] is the mark's only
    attribute (default [null]). *)
Record WikiLinkEntity := mkWikiLinkEntity {
  entity_text : string;
  entity_href : option string
}.

(** The handler shared by the input rule and the paste rule: [text] is the
    first capture of [\[\[([^\]]+)\]\]]. *)
Definition wikiLinkHandler (text : string) : option WikiLinkEntity :=
  if JS.truthy text
  then Some (mkWikiLinkEntity text (Some ("wiki:" +:+ text)))
  else None.

(** [addOptions]: the class given to every rendered wiki link. *)
Definition wikiLinkClass : string :=
  "wiki-link text-violet-500 hover:text-violet-600 font-semibold cursor-pointer transition-colors".

(** [renderHTML]: an [a] element with the extension's class and the mark's
    attributes; an attribute whose value is [null] is not rendered. *)
Definition renderHTML (e : WikiLinkEntity) : DomElement :=
  mkDomElement "A"
    (("class", wikiLinkClass) ::
     match entity_href e with
     | Some h => [("href", h)]
     | None => []
     end).

(** *** The passes applied to the HTML before [setContent] *)

(** ['<a href="wiki:$1" class="wiki-link">$1</a>'] *)
Definition wikiAnchor (capture : string) : string :=
  "<a href=" +:+ dq +:+ "wiki:" +:+ capture +:+ dq +:+ " class=" +:+ dq
  +:+ "wiki-link" +:+ dq +:+ ">" +:+ capture +:+ "</a>".

(** [html.replace(/\[\[(.*?)\]\]/g, '<a href="wiki:$1" class="wiki-link">$1</a>')] *)
Definition wikiLinkPass (html : string) : string :=
  JS.replaceAll wikiLinkRegex wikiAnchor O html.

Definition codeOpenLang : string := "<pre><code class=" +:+ dq +:+ "language-".
Definition codeOpenLangEnd : string := dq +:+ ">".
Definition codeOpen : string := "<pre><code>".
Definition codeClose : string := "</code></pre>".

(** [/<pre><code class="language-(.*?)">([\s\S]*?)\n<\/code><\/pre>/] at the
    start of the input: the two captures and the input after the match. *)
Definition codeLangRegex (s : string) : option ((string * string) * string) :=
  if JS.startsWith codeOpenLang s then
    match JS.lazyThen JS.notLineTerminator codeOpenLangEnd
            (JS.lazyThen JS.anyChar (nl +:+ codeClose) Some)
            (JS.drop (String.length codeOpenLang) s) with
    | Some (lang, (body, rest)) => Some ((lang, body), rest)
    | None => None
    end
  else None.

(** [/<pre><code>([\s\S]*?)\n<\/code><\/pre>/] at the start of the input. *)
Definition codePlainRegex (s : string) : option (string * string) :=
  if JS.startsWith codeOpen s
  then JS.lazyThen JS.anyChar (nl +:+ codeClose) Some (JS.drop (String.length codeOpen) s)
  else None.

(** The two replacements that drop the newline before [</code></pre>]. *)
Definition codeFencePass (html : string) : string :=
  let html :=
    JS.replaceAll codeLangRegex
      (fun m => codeOpenLang +:+ fst m +:+ codeOpenLangEnd +:+ snd m +:+ codeClose) O html in
  JS.replaceAll codePlainRegex (fun body => codeOpen +:+ body +:+ codeClose) O html.

(** Everything the synchronisation effect does to the output of
    [marked.parse] before it reaches [setContent]. *)
Definition loadPasses (html : string) : string := codeFencePass (wikiLinkPass html).

(** *** The [DelayedMarkdown] Enter handler *)

(** The editor commands the handler chains. *)
Inductive Command :=
| focus
| deleteLine                       (* tr.delete($from.start(), $from.end()) *)
| toggleTaskList
| toggleCodeBlock (language : string)
| insertContent (content : string)
| updateAttributes (typeName : string) (checked : bool)
| scrollIntoView
| enter.

(** What a keyboard shortcut returns: [false] leaves the key to the default
    handling, [true] comes after the chains of commands that were run. *)
Inductive KeyResult :=
| Unhandled
| Handled (chains : list (list Command)).

(** [text.match] with the task-list pattern [^-\s\[([ xX])\]\s] followed by
    the rest of the line up to the end of the input: the two captures. *)
Definition taskMatch (text : string) : option (ascii * string) :=
  match text with
  | String "-" (String w1 (String "[" (String flag (String "]" (String w2 rest))))) =>
      if JS.isWhiteSpace w1
         && (Ascii.eqb flag " " || Ascii.eqb flag "x" || Ascii.eqb flag "X")
         && JS.isWhiteSpace w2
         && JS.forallb JS.notLineTerminator rest
      then Some (flag, rest) else None
  | _ => None
  end.

(** [text.match] with the pattern of an opening fence: three backticks and
    then word characters only, up to the end of the input; the capture. *)
Definition codeBlockMatch (text : string) : option string :=
  if JS.startsWith fence text && JS.forallb JS.isWordChar (JS.drop 3 text)
  then Some (JS.drop 3 text) else None.

(** The class [[*_~`!\[\]]]. *)
Definition isTriggerChar (c : ascii) : bool :=
  Ascii.eqb c "*" || Ascii.eqb c "_" || Ascii.eqb c "~" || Ascii.eqb c "`"
  || Ascii.eqb c "!" || Ascii.eqb c "[" || Ascii.eqb c "]".

(** The number of leading characters of the class [f]. *)
Fixpoint span (f : ascii -> bool) (s : string) : nat :=
  match s with
  | EmptyString => O
  | String c s' => if f c then S (span f s') else O
  end.

Definition nextIsWhiteSpace (s : string) : bool :=
  match s with
  | EmptyString => false
  | String c _ => JS.isWhiteSpace c
  end.

Definition isHash (c : ascii) : bool := Ascii.eqb c "#".

(** [^(#{1,6}|-|\d+\.|>)\s] *)
Definition blockMarkerRegex (text : string) : bool :=
  (let h := span isHash text in
   (1 <=? h)%nat && (h <=? 6)%nat && nextIsWhiteSpace (JS.drop h text))
  || (JS.startsWith "-" text && nextIsWhiteSpace (JS.drop 1 text))
  || (let d := span JS.isDigit text in
      (1 <=? d)%nat && JS.startsWith "." (JS.drop d text)
      && nextIsWhiteSpace (JS.drop (S d) text))
  || (JS.startsWith ">" text && nextIsWhiteSpace (JS.drop 1 text)).

(** [/[*_~`!\[\]]|^(#{1,6}|-|\d+\.|>)\s/.test(text)] *)
Definition isMarkdown (text : string) : bool :=
  JS.existsb isTriggerChar text || blockMarkerRegex text.

(** The HTML inserted for a line that is parsed on Enter. *)
Definition lineHtml (parsed : string) : string :=
  let html := parsed in
  let html := if JS.endsWith nl html then JS.sliceDropLast html else html in
  let html :=
    if JS.startsWith "<p>" html && JS.endsWith "</p>" html
       && negb (JS.includes "</p><p>" html)
    then JS.substring 3 (String.length html - 4) html else html in
  if JS.endsWith ">" html then html +:+ " " else html.

Section Editor.

(** The libraries the component is built on.  [marked_parse] is
    [marked.parse]; [Editor] is the state of a Tiptap editor, observed by
    [getHTML] and [isEmpty] and replaced by [setContent]; [turndown] is
    [TurndownService.prototype.turndown] for a service built with the given
    options and added rules. *)
Context {Editor : Type}.
Variable marked_parse : string -> string.
Variable getHTML : Editor -> string.
Variable isEmpty : Editor -> bool.
Variable setContent : string -> Editor -> Editor.
Variable turndown : TurndownOptions -> list Rule -> string -> string.

(** [turndownService.turndown] *)
Definition turndownService : string -> string := turndown turndownOptions [wikiLinks].

(** The [Enter] shortcut; [nodeType] is [$from.node().type.name] and [text]
    is [node.textContent]. *)
Definition enterShortcut (nodeType text : string) : KeyResult :=
  if String.eqb nodeType "codeBlock" then Unhandled
  else if negb (String.eqb nodeType "paragraph") then Unhandled
  else
    match taskMatch text with
    | Some (flag, content) =>
        let isChecked := String.eqb (JS.toLowerCase (String flag EmptyString)) "x" in
        Handled
          ([focus; deleteLine; toggleTaskList]
           :: (if JS.truthy content then [[insertContent content]] else [])
           ++ (if isChecked then [[updateAttributes "taskItem" true]] else [])
           ++ [[enter]])
    | None =>
        match codeBlockMatch text with
        | Some language => Handled [[focus; deleteLine; toggleCodeBlock language]]
        | None =>
            if negb (JS.truthy (JS.trim text)) then Unhandled
            else if negb (isMarkdown text) then Unhandled
            else
              Handled [[focus; deleteLine; insertContent (lineHtml (marked_parse text))];
                       [focus; scrollIntoView; enter]]
        end
    end.

(** [onUpdate]: the markdown handed to [onChange]. *)
Definition serialize (editor : Editor) : string := turndownService (getHTML editor).

(** The HTML handed to [setContent] for the markdown [content]. *)
Definition loadHtml (content : string) : string := loadPasses (marked_parse content).

(** The document built from the markdown [content]. *)
Definition parse (content : string) (editor : Editor) : Editor :=
  setContent (loadHtml content) editor.

(** What the synchronisation effect does to the editor. *)
Inductive SyncAction :=
| NoReset
| Reset (html : string).        (* editor.commands.setContent(html, false) *)

(** The effect that runs when [content] or [editor] changes; [editor] is
    [None] while the editor is not created. *)
Definition syncEffect (editor : option Editor) (content : string) : SyncAction :=
  match editor with
  | Some ed =>
      if JS.truthy content then
        let currentMarkdown := turndownService (getHTML ed) in
        if isEmpty ed || (5 <? Z.abs (JS.length currentMarkdown - JS.length content))
        then Reset (loadHtml content)
        else NoReset
      else NoReset
  | None => NoReset
  end.

Definition applySync (action : SyncAction) (ed : Editor) : Editor :=
  match action with
  | NoReset => ed
  | Reset html => setContent html ed
  end.

(** The editor after the effect has run. *)
Definition afterSync (ed : Editor) (content : string) : Editor :=
  applySync (syncEffect (Some ed) content) ed.

(** The drift rule: the document is empty, or the lengths of its markdown
    and of the incoming markdown differ by more than the tolerance. *)
Definition driftDetected (ed : Editor) (content : string) : Prop :=
  isEmpty ed = true
  \/ Z.abs (JS.length (serialize ed) - JS.length content) > 5.

(** One round trip of a markdown string through an editor. *)
Definition roundTripStep (state : string * Editor) : string * Editor :=
  let ed := parse (fst state) (snd state) in (serialize ed, ed).

End Editor.

(** * Further functions of the application component and of the editor *)

(** ** [getBreadcrumbs] *)

(** [folders.find((f) => f.id === id)] *)
Definition findFolder (folders : list Folder) (id : string) : option Folder :=
  List.find (fun f => String.eqb (folder_id f) id) folders.

(** The [while (currentFolderId)] loop: [path.unshift(folder.name)] while the
    folder is found, [break] when it is not.  [None] means that the
    iterations allowed by [fuel] did not reach the exit. *)
Fixpoint breadcrumbsLoop (fuel : nat) (folders : list Folder)
    (currentFolderId : option string) (path : list string) : option (list string) :=
  match fuel with
  | O => None
  | S n =>
      match JS.truthyOpt currentFolderId with
      | None => Some path
      | Some c =>
          match findFolder folders c with
          | Some folder =>
              breadcrumbsLoop n folders (parentId folder) (folder_name folder :: path)
          | None => Some path
          end
      end
  end.

Definition getBreadcrumbs (notes : list Note) (folders : list Folder) (noteId : string)
    : option (list string) :=
  match List.find (fun n => String.eqb (note_id n) noteId) notes with
  | None => Some []
  | Some note => breadcrumbsLoop (length folders + 2) folders (note_folderId note) []
  end.

(** ** The state of the application component *)

Record Attachment := mkAttachment {
  attachment_id : string;
  fileName : string;
  mimeType : string;
  data : string;
  attachment_folderId : option string
}.

(** The part of the component state that the handlers below read or write. *)
Record AppState := mkAppState {
  app_notes : list Note;
  app_folders : list Folder;
  app_attachments : list Attachment;
  selectedIds : gset string;
  activeNoteId : string;
  openNoteIds : list string
}.

(** ** [handleDeleteFolder]: the delete action *)

(** [o === s] for an optional string [o]. *)
Definition strictEq (o : option string) (s : string) : bool :=
  match o with
  | Some x => String.eqb x s
  | None => false
  end.

(** [n.folderId === id ? { ...n, folderId: undefined } : n] *)
Definition clearFolderId (id : string) (n : Note) : Note :=
  if strictEq (note_folderId n) id
  then mkNote (note_id n) (note_title n) (note_content n) None
  else n.

(** [f.parentId === id ? { ...f, parentId: undefined } : f] *)
Definition clearParentId (id : string) (f : Folder) : Folder :=
  if strictEq (parentId f) id
  then mkFolder (folder_id f) (folder_name f) None (collapsed f)
  else f.

(** The state after the three queued updates of the delete action, which
    sets the folders and the notes and nothing else. *)
Definition handleDeleteFolder (id : string) (st : AppState) : AppState :=
  let folders1 :=
    List.filter (fun f => negb (String.eqb (folder_id f) id)) (app_folders st) in
  mkAppState (map (clearFolderId id) (app_notes st)) (map (clearParentId id) folders1)
    (app_attachments st) (selectedIds st) (activeNoteId st) (openNoteIds st).

(** ** [handleDeleteSelected]: the delete action *)

(** [ids.includes(x)] *)
Definition includesId (ids : list string) (x : string) : bool :=
  List.existsb (String.eqb x) ids.

(** [ids.includes(x!)] for an optional [x]: [undefined] is no member of an
    array of strings. *)
Definition includesOpt (ids : list string) (x : option string) : bool :=
  match x with
  | Some s => includesId ids s
  | None => false
  end.

(** [!ids.includes(id) && !ids.includes(folderId!)] *)
Definition keptBy (ids : list string) (id : string) (container : option string) : bool :=
  negb (includesId ids id) && negb (includesOpt ids container).

Definition deleteAction (ids : list string) (st : AppState) : AppState :=
  let active := includesId ids (activeNoteId st) in
  mkAppState
    (List.filter (fun n => keptBy ids (note_id n) (note_folderId n)) (app_notes st))
    (List.filter (fun f => keptBy ids (folder_id f) (parentId f)) (app_folders st))
    (List.filter (fun a => keptBy ids (attachment_id a) (attachment_folderId a))
                 (app_attachments st))
    ∅
    (if active then EmptyString else activeNoteId st)
    (if active
     then List.filter (fun id => negb (includesId ids id)) (openNoteIds st)
     else openNoteIds st).

(** The state once the deletion is confirmed; [ids] is
    [Array.from(selectedIds)]. *)
Definition handleDeleteSelected (st : AppState) : AppState :=
  let ids := elements (selectedIds st) in
  match ids with
  | [] => st
  | _ => deleteAction ids st
  end.

(** ** [getUniqueTitle], [handleCreateFolder] and [handleCreateNote] *)

(** [a === b] for two optional strings. *)
Definition optEq (a b : option string) : bool :=
  match a, b with
  | Some x, Some y => String.eqb x y
  | None, None => true
  | _, _ => false
  end.

Definition checkExists (notes : list Note) (folders : list Folder)
    (isFolder : bool) (parent : option string) (title : string) : bool :=
  if isFolder
  then List.existsb (fun f => String.eqb (folder_name f) title
                              && optEq (parentId f) parent) folders
  else List.existsb (fun n => String.eqb (note_title n) title
                              && optEq (note_folderId n) parent) notes.

(** The template literal of the loop body; the counter is printed in
    decimal. *)
Definition numberedTitle (baseTitle : string) (counter : nat) : string :=
  baseTitle +:+ " " +:+ pretty counter.

(** The [while (checkExists(newTitle))] loop.  [None] means that the
    iterations allowed by [fuel] did not reach the exit. *)
Fixpoint uniqueTitleLoop (fuel : nat) (exists_ : string -> bool) (baseTitle : string)
    (counter : nat) (newTitle : string) : option string :=
  match fuel with
  | O => None
  | S n =>
      if exists_ newTitle
      then uniqueTitleLoop n exists_ baseTitle (S counter)
             (numberedTitle baseTitle (S counter))
      else Some newTitle
  end.

Definition getUniqueTitle (notes : list Note) (folders : list Folder)
    (baseTitle : string) (isFolder : bool) (parent : option string) : option string :=
  uniqueTitleLoop (S (if isFolder then length folders else length notes))
    (checkExists notes folders isFolder parent) baseTitle O baseTitle.

(** [f.id === id ? { ...f, collapsed: false } : f] *)
Definition expandFolder (id : string) (f : Folder) : Folder :=
  if String.eqb (folder_id f) id
  then mkFolder (folder_id f) (folder_name f) (parentId f) (Some false)
  else f.

(** The folders after [handleCreateFolder(parentId)]; [newId] is the value
    that [generateId()] returns. *)
Definition handleCreateFolder (newId : string) (parent : option string)
    (notes : list Note) (folders : list Folder) : option (list Folder) :=
  match getUniqueTitle notes folders "New Folder" true parent with
  | None => None
  | Some name =>
      let newFolder := mkFolder newId name parent (Some false) in
      let folders1 :=
        match JS.truthyOpt parent with
        | Some p => map (expandFolder p) folders
        | None => folders
        end in
      Some (folders1 ++ [newFolder])
  end.

(** The notes and folders after [handleCreateNote(folderId)]. *)
Definition handleCreateNote (newId : string) (folderId : option string)
    (notes : list Note) (folders : list Folder) : option (list Note * list Folder) :=
  match getUniqueTitle notes folders "Untitled Note" false folderId with
  | None => None
  | Some title =>
      let newNote := mkNote newId title ("# " +:+ title +:+ nl +:+ nl) folderId in
      let folders1 :=
        match JS.truthyOpt folderId with
        | Some p => map (expandFolder p) folders
        | None => folders
        end in
      Some (newNote :: notes, folders1)
  end.

(** ** Tabs and selection: [handleItemClick], [handleCloseTab], [handleDeleteNote] *)

(** The modifier keys of a click. *)
Record MouseEvent := mkMouseEvent {
  ctrlKey : bool;
  metaKey : bool;
  shiftKey : bool
}.

Inductive ItemType := NoteItem | FolderItem | AttachmentItem.

(** [l.slice(start, stop)] for non-negative bounds. *)
Definition slice {A : Type} (start stop : Z) (l : list A) : list A :=
  take (Z.to_nat (stop - start)) (drop (Z.to_nat start) l).

(** [l.indexOf(x)] *)
Definition indexOf (l : list string) (x : string) : Z :=
  findIndex (fun y => String.eqb y x) l.

(** The anchor of a shift-click: the active note if it is selected, otherwise
    the first visible item that is selected, if there is one. *)
Definition anchorOf (visibleItemIds : list string) (st : AppState) : string :=
  if bool_decide (activeNoteId st ∈ selectedIds st) then activeNoteId st
  else
    match JS.truthyOpt
            (List.find (fun vid => bool_decide (vid ∈ selectedIds st)) visibleItemIds) with
    | Some firstSelected => firstSelected
    | None => activeNoteId st
    end.

(** The selection after the click. *)
Definition clickSelection (visibleItemIds : list string) (id : string)
    (e : option MouseEvent) (st : AppState) : gset string :=
  match e with
  | None => {[ id ]}
  | Some e =>
      if ctrlKey e || metaKey e then
        if bool_decide (id ∈ selectedIds st)
        then selectedIds st ∖ {[ id ]}
        else selectedIds st ∪ {[ id ]}
      else if shiftKey e then
        let lastIdx := indexOf visibleItemIds (anchorOf visibleItemIds st) in
        let currentIdx := indexOf visibleItemIds id in
        if negb (lastIdx =? -1) && negb (currentIdx =? -1) then
          let start := Z.min lastIdx currentIdx in
          let stop := Z.max lastIdx currentIdx in
          list_to_set (slice start (stop + 1) visibleItemIds)
        else {[ id ]}
      else {[ id ]}
  end.

(** [handleItemClick(id, e, type)]; the sidebar and the view mode, which the
    handler also sets, are not part of [AppState]. *)
Definition handleItemClick (visibleItemIds : list string) (id : string)
    (e : option MouseEvent) (type : ItemType) (st : AppState) : AppState :=
  mkAppState (app_notes st) (app_folders st) (app_attachments st)
    (clickSelection visibleItemIds id e st)
    (match type with
     | NoteItem => id
     | _ => activeNoteId st
     end)
    (match type with
     | NoteItem =>
         if includesId (openNoteIds st) id then openNoteIds st
         else openNoteIds st ++ [id]
     | _ => openNoteIds st
     end).

Definition handleOpenNote (visibleItemIds : list string) (id : string)
    (e : option MouseEvent) (st : AppState) : AppState :=
  handleItemClick visibleItemIds id e NoteItem st.

(** [handleCloseTab(e, id)].  [newTabs[newActiveIndex]] is read with [!!];
    the result is [None] if that read is out of range, where the source
    would store [undefined] as the active id. *)
Definition handleCloseTab (id : string) (st : AppState) : option AppState :=
  let prev := openNoteIds st in
  let newTabs := List.filter (fun tId => negb (String.eqb tId id)) prev in
  let withActive (active : string) :=
    mkAppState (app_notes st) (app_folders st) (app_attachments st)
      (selectedIds st) active newTabs in
  if String.eqb id (activeNoteId st) then
    let index := indexOf prev id in
    match newTabs with
    | _ :: _ =>
        let newActiveIndex := Z.max 0 (index - 1) in
        withActive <$> newTabs !! Z.to_nat newActiveIndex
    | [] => Some (withActive EmptyString)
    end
  else Some (withActive (activeNoteId st)).

(** The delete action of [handleDeleteNote(id)]. *)
Definition handleDeleteNote (id : string) (st : AppState) : AppState :=
  let newNotes := List.filter (fun n => negb (String.eqb (note_id n) id)) (app_notes st) in
  let remainingTabs := List.filter (fun tId => negb (String.eqb tId id)) (openNoteIds st) in
  mkAppState newNotes (app_folders st) (app_attachments st) (selectedIds st)
    (if String.eqb (activeNoteId st) id then
       match last remainingTabs with
       | Some t => t
       | None =>
           match newNotes with
           | n :: _ => note_id n
           | [] => EmptyString
           end
       end
     else activeNoteId st)
    remainingTabs.

(** ** Following a wiki link: [handleClick] and [handleWikiLinkClick] *)

(** [handleClick] of the editor, for a click whose closest [.wiki-link]
    ancestor is [link]: the title handed to [onWikiLinkClick], if any. *)
Definition handleClick (link : DomElement) : option string :=
  match JS.truthyOpt (getAttribute link "href") with
  | Some href =>
      if JS.startsWith "wiki:" href
      then Some (JS.replaceFirst "wiki:" EmptyString href)
      else None
  | None => None
  end.

(** [notes.find((n) => n.title.toLowerCase() === title.toLowerCase())] *)
Definition findByTitle (notes : list Note) (title : string) : option Note :=
  List.find (fun n => String.eqb (JS.toLowerCase (note_title n)) (JS.toLowerCase title))
            notes.

(** The state after the note for a dangling link is created and opened;
    [newId] is the value that [generateId()] returns. *)
Definition createLinkedNote (visibleItemIds : list string) (newId title : string)
    (st : AppState) : AppState :=
  let activeNote := List.find (fun n => String.eqb (note_id n) (activeNoteId st))
                              (app_notes st) in
  let targetFolderId :=
    match activeNote with
    | Some n => note_folderId n
    | None => None
    end in
  let newNote := mkNote newId title ("# " +:+ title +:+ nl +:+ nl) targetFolderId in
  let folders1 :=
    match JS.truthyOpt targetFolderId with
    | Some p => map (expandFolder p) (app_folders st)
    | None => app_folders st
    end in
  handleOpenNote visibleItemIds newId None
    (mkAppState (newNote :: app_notes st) folders1 (app_attachments st)
       (selectedIds st) (activeNoteId st) (openNoteIds st)).

(** What a click on a wiki link leads to: an existing note is opened, a note
    is created at once, or a dialog asks first; [AskCreate] carries the state
    that confirming the dialog produces. *)
Inductive WikiLinkClick :=
| OpenExisting (st' : AppState)
| CreateNow (st' : AppState)
| AskCreate (confirmed : AppState).

(** [suppress] is the stored answer to "do not ask again". *)
Definition handleWikiLinkClick (visibleItemIds : list string) (newId : string)
    (suppress : bool) (title : string) (isCtrl : bool) (st : AppState) : WikiLinkClick :=
  match findByTitle (app_notes st) title with
  | Some targetNote => OpenExisting (handleOpenNote visibleItemIds (note_id targetNote) None st)
  | None =>
      if isCtrl || suppress
      then CreateNow (createLinkedNote visibleItemIds newId title st)
      else AskCreate (createLinkedNote visibleItemIds newId title st)
  end.

(** The state once the click, and the dialog if there is one, are through. *)
Definition settled (r : WikiLinkClick) : AppState :=
  match r with
  | OpenExisting st' => st'
  | CreateNow st' => st'
  | AskCreate st' => st'
  end.

(** ** The sidebar search *)

(** The notes handed to the file tree for the search text [searchQuery]. *)
Definition searchNotes (searchQuery : string) (notes : list Note) : list Note :=
  List.filter
    (fun n => JS.includes (JS.toLowerCase searchQuery) (JS.toLowerCase (note_title n))
              || JS.includes (JS.toLowerCase searchQuery) (JS.toLowerCase (note_content n)))
    notes.

(** The attachments handed to the file tree. *)
Definition searchAttachments (searchQuery : string) (attachments : list Attachment)
    : list Attachment :=
  List.filter
    (fun a => JS.includes (JS.toLowerCase searchQuery) (JS.toLowerCase (fileName a)))
    attachments.

(** ** The command palette ([CommandPalette]) *)

(** An entry of the palette; only the fields that the logic reads. *)
Record PaletteAction := mkPaletteAction {
  action_id : string;
  action_label : string
}.

Definition filteredActions (actions : list PaletteAction) (query : string)
    : list PaletteAction :=
  List.filter
    (fun action => JS.includes (JS.toLowerCase query) (JS.toLowerCase (action_label action)))
    actions.

(** [a % b] on integers; [None] is [NaN], which a zero divisor gives. *)
Definition jsRem (a b : Z) : option Z :=
  if b =? 0 then None else Some (Z.rem a b).

Inductive Key := ArrowDown | ArrowUp | Enter | Escape | OtherKey.

Inductive PaletteEffect :=
| NoEffect
| RunAndClose (action : PaletteAction)     (* action.action(); onClose() *)
| Close.                                   (* onClose() *)

(** [l[i]] for a number [i]: [undefined] for [NaN] and outside the list. *)
Definition at_index {A : Type} (l : list A) (i : option Z) : option A :=
  match i with
  | Some z => if z <? 0 then None else l !! Z.to_nat z
  | None => None
  end.

(** [handleKeyDown]: the selected index after the key, and what the key
    sets off. *)
Definition handleKeyDown (actions : list PaletteAction) (query : string)
    (selectedIndex : option Z) (key : Key) : option Z * PaletteEffect :=
  let filtered := filteredActions actions query in
  let len := Z.of_nat (length filtered) in
  match key with
  | ArrowDown =>
      (match selectedIndex with
       | Some prev => jsRem (prev + 1) len
       | None => None
       end, NoEffect)
  | ArrowUp =>
      (match selectedIndex with
       | Some prev => jsRem (prev - 1 + len) len
       | None => None
       end, NoEffect)
  | Enter =>
      match at_index filtered selectedIndex with
      | Some action => (selectedIndex, RunAndClose action)
      | None => (selectedIndex, NoEffect)
      end
  | Escape => (selectedIndex, Close)
  | OtherKey => (selectedIndex, NoEffect)
  end.

(** ** Attachments: [handleFileUpload] and [getAttachmentSrc] *)

(** The file handed to [handleFileUpload], with the data URL that the file
    reader produces for it. *)
Record UploadedFile := mkUploadedFile {
  file_name : string;
  file_type : string;
  base64Data : string
}.

(** [`attachment://${attachmentId}`] *)
Definition attachmentUrl (attachmentId : string) : string :=
  "attachment://" +:+ attachmentId.

(** The state once the file is read, and the locator the promise resolves
    to.  [newFolderId] and [attachmentId] are the values that the two calls
    of [generateId()] return. *)
Definition handleFileUpload (newFolderId attachmentId : string) (file : UploadedFile)
    (st : AppState) : AppState * string :=
  let activeNote := List.find (fun n => String.eqb (note_id n) (activeNoteId st))
                              (app_notes st) in
  let parentFolderId :=
    match activeNote with
    | Some n => note_folderId n
    | None => None
    end in
  let found :=
    List.find (fun f => String.eqb (folder_name f) "Attachments"
                        && optEq (parentId f) parentFolderId) (app_folders st) in
  let attachmentFolder :=
    match found with
    | Some f => f
    | None => mkFolder newFolderId "Attachments" parentFolderId (Some true)
    end in
  let folders1 :=
    match found with
    | Some _ => app_folders st
    | None =>
        match JS.truthyOpt parentFolderId with
        | Some p => map (expandFolder p) (app_folders st) ++ [attachmentFolder]
        | None => app_folders st ++ [attachmentFolder]
        end
    end in
  let newAttachment :=
    mkAttachment attachmentId (file_name file) (file_type file) (base64Data file)
      (Some (folder_id attachmentFolder)) in
  (mkAppState (app_notes st) folders1 (app_attachments st ++ [newAttachment])
     (selectedIds st) (activeNoteId st) (openNoteIds st),
   attachmentUrl attachmentId).

(** [getAttachmentSrc(url)]; [None] is [undefined]. *)
Definition getAttachmentSrc (attachments : list Attachment) (url : string) : option string :=
  if JS.startsWith "attachment://" url then
    let id := JS.replaceFirst "attachment://" EmptyString url in
    match List.find (fun a => String.eqb (attachment_id a) id) attachments with
    | Some attachment => Some (data attachment)
    | None => None
    end
  else Some url.

(** ** [handleRenameItem] *)

(** [GetSubstitution] for a string pattern, which has no captures: the
    dollar sign followed by a dollar sign, an ampersand, a backquote or a
    quote stands for a dollar sign, the matched text, the text before the
    match and the text after it; every other character stands for itself. *)
Fixpoint getSubstitution (matched preceding following : string) (template : string)
    : string :=
  match template with
  | EmptyString => EmptyString
  | String "$" (String "$" rest) =>
      "$" +:+ getSubstitution matched preceding following rest
  | String "$" (String "&" rest) =>
      matched +:+ getSubstitution matched preceding following rest
  | String "$" (String "`" rest) =>
      preceding +:+ getSubstitution matched preceding following rest
  | String "$" (String "'" rest) =>
      following +:+ getSubstitution matched preceding following rest
  | String c rest => String c (getSubstitution matched preceding following rest)
  end.

(** [s.replace(pattern, replacement)] for two strings: the first occurrence
    of [pattern] is replaced; [preceding] is the text already passed. *)
Fixpoint replaceString (pattern replacement : string) (preceding s : string) : string :=
  if JS.startsWith pattern s then
    let following := JS.drop (String.length pattern) s in
    getSubstitution pattern preceding following replacement +:+ following
  else
    match s with
    | EmptyString => EmptyString
    | String c s' =>
        String c (replaceString pattern replacement
                    (preceding +:+ String c EmptyString) s')
    end.

(** [{ ...n, title }] and [{ ...n, content }] for the notes whose id is [id]. *)
Definition updateTitle (id title : string) (n : Note) : Note :=
  if String.eqb (note_id n) id
  then mkNote (note_id n) title (note_content n) (note_folderId n)
  else n.

Definition updateContent (id content : string) (n : Note) : Note :=
  if String.eqb (note_id n) id
  then mkNote (note_id n) (note_title n) content (note_folderId n)
  else n.

(** The folders and notes after [handleRenameItem(id, newName)]. *)
Definition handleRenameItem (id newName : string) (folders : list Folder)
    (notes : list Note) : list Folder * list Note :=
  if negb (JS.truthy newName) || negb (JS.truthy (JS.trim newName)) then (folders, notes)
  else
    let trimmedName := JS.trim newName in
    match findFolder folders id with
    | Some _ =>
        (map (fun f => if String.eqb (folder_id f) id
                       then mkFolder (folder_id f) trimmedName (parentId f) (collapsed f)
                       else f) folders,
         notes)
    | None =>
        match List.find (fun n => String.eqb (note_id n) id) notes with
        | Some noteExists =>
            let notes1 := map (updateTitle id trimmedName) notes in
            if JS.startsWith ("# " +:+ note_title noteExists) (note_content noteExists)
            then
              let newContent :=
                replaceString ("# " +:+ note_title noteExists) ("# " +:+ trimmedName)
                  EmptyString (note_content noteExists) in
              (folders, map (updateContent id newContent) notes1)
            else (folders, notes1)
        | None => (folders, notes)
        end
    end.

(** ** The toolbar: [insertFormat] ([src/components/MarkdownEditor.tsx]) *)

(** The prefixes that are inserted as raw markdown around the cursor or the
    selection. *)
Definition inlineMarkers : list string :=
  ["**"; "*"; "~~"; "<u>"; "```"; "`"; "```" +:+ nl].

(** The prefixes of the [switch]. *)
Definition blockPrefixes : list string :=
  ["# "; "## "; "- "; "- [ ] "; "> "].

(** [insertFormat(prefix, suffix)] on a mounted editor: the string handed to
    [insertContent] and the number of positions by which the cursor is moved
    back afterwards, or [None] if nothing is inserted.  [selection] is the
    text between the ends of a selection that is not empty. *)
Definition insertFormat (prefix suffix : string) (selection : option string)
    : option (string * nat) :=
  if List.existsb (String.eqb prefix) inlineMarkers then
    match selection with
    | Some text => Some (prefix +:+ text +:+ suffix, O)
    | None => Some (prefix +:+ suffix, String.length suffix)
    end
  else if List.existsb (String.eqb prefix) blockPrefixes then Some (prefix, O)
  else None.

(** * Notions used by the statements *)

(** ** Backlinks and graph links *)

(** [content], compared case-insensitively, contains [pat]. *)
Definition containsIgnoringCase (content pat : string) : Prop :=
  exists a b, JS.toLowerCase content = a +:+ JS.toLowerCase pat +:+ b.

(** The ordered pair a link joins. *)
Definition endpoints (l : GraphLink) : string * string := (source l, target l).

(** The first occurrences, written as a scan that remembers what it has seen. *)
Fixpoint keepFirst (seen l : list GraphLink) : list GraphLink :=
  match l with
  | [] => []
  | x :: l' =>
      if List.existsb (sameEndpoints x) seen then keepFirst (seen ++ [x]) l'
      else x :: keepFirst (seen ++ [x]) l'
  end.

(** ** Folder trees *)

(** Lists of folder ids linked by the parent relation. *)
Inductive parentChain (folders : list Folder) : list string -> Prop :=
| parentChain_nil : parentChain folders []
| parentChain_one x : parentChain folders [x]
| parentChain_cons x y l :
    isParent folders x y -> parentChain folders (y :: l) ->
    parentChain folders (x :: y :: l).

(** A decision procedure for cycle-freedom: the parent chain of every folder
    ends within as many steps as there are folders. *)
Fixpoint chainEnds (n : nat) (folders : list Folder) (a : string) : bool :=
  match n with
  | O => false
  | S n' =>
      match JS.truthyOpt (parentOf folders a) with
      | None => true
      | Some b => chainEnds n' folders b
      end
  end.

Definition cycleFreeb (folders : list Folder) : bool :=
  List.forallb (fun f => chainEnds (S (length folders)) folders (folder_id f)) folders.

(** A folder tree: Work at the root, Projects inside Work, Alpha inside
    Projects. *)
Definition folderTree : list Folder :=
  [ mkFolder "w" "Work" None None;
    mkFolder "p" "Projects" (Some "w") None;
    mkFolder "x" "Alpha" (Some "p") (Some true) ].

(** ** The Enter handler *)

(** The characters that trigger a parse wherever they stand. *)
Definition triggerChars : list ascii :=
  ["*"; "_"; "~"; "`"; "!"; "["; "]"]%char.

(** [text] holds none of the trigger characters. *)
Definition noTriggerChar (text : string) : Prop :=
  Forall (fun c => ~ In c triggerChars) (list_ascii_of_string text).

Fixpoint hashes (k : nat) : string :=
  match k with
  | O => EmptyString
  | S k' => String "#" (hashes k')
  end.

(** The block markers: one to six [#], a dash, digits and a dot, or [>]. *)
Definition isBlockMarker (m : string) : Prop :=
  (exists k, (1 <= k <= 6)%nat /\ m = hashes k)
  \/ m = "-"
  \/ (exists ds, ds <> EmptyString /\ JS.forallb JS.isDigit ds = true /\ m = ds +:+ ".")
  \/ m = ">".

(** [text] starts with a block marker followed by a character of the class
    [sep]. *)
Definition startsWithMarker (sep : ascii -> bool) (text : string) : Prop :=
  exists m c rest, text = m +:+ String c rest /\ sep c = true /\ isBlockMarker m.

(** The space character alone. *)
Definition isSpace (c : ascii) : bool := Ascii.eqb c " ".

(** ** Scanning and code blocks *)

(** No match of the pattern starts inside the prefix [a] of [a +:+ b]. *)
Definition Quiet {R : Type} (matchAt : string -> option (R * string)) (a b : string) : Prop :=
  forall k, (k < String.length a)%nat -> matchAt (JS.drop k (a +:+ b)) = None.

(** Characters of escaped HTML text that start neither a tag nor a wiki
    link. *)
Definition plainChar (c : ascii) : bool :=
  negb (Ascii.eqb c "<") && negb (Ascii.eqb c "[").

(** Characters of HTML text that open no tag. *)
Definition textChar (c : ascii) : bool := negb (Ascii.eqb c "<").

(** Characters of a language tag. *)
Definition langChar (c : ascii) : bool :=
  plainChar c && JS.notLineTerminator c && negb (Ascii.eqb c ">").

(** [<pre><code class="language-LANG">BODY</code></pre>] *)
Definition codeBlockHtml (lang body : string) : string :=
  codeOpenLang +:+ lang +:+ codeOpenLangEnd +:+ body +:+ codeClose.

(** ** The examples of the specification *)

(** The corpus of the edge-deduplication example: note A links twice to B. *)
Definition noteA : Note := mkNote "a" "A" "[[B]] and [[B]] again" None.
Definition noteB : Note := mkNote "b" "B" EmptyString None.

Definition fidelityExample : string := "See [[Project Alpha|Alpha]] for details.".

Definition fenceExample : string :=
  fence +:+ "python" +:+ nl +:+ "print(1)" +:+ nl +:+ fence.

(** What [marked.parse] returns for the example: the content of the code
    element ends with a newline. *)
Definition fenceMarkedHtml : string :=
  codeBlockHtml "python" ("print(1)" +:+ nl) +:+ nl.

Definition taskExample : string := "- [x] Buy milk".

(** The list markup [marked.parse] returns for the task line: a list item
    that starts with an HTML checkbox. *)
Definition taskMarkedHtml : string :=
  "<ul>" +:+ nl +:+ "<li><input checked=" +:+ dq +:+ dq +:+ " disabled=" +:+ dq +:+ dq
  +:+ " type=" +:+ dq +:+ "checkbox" +:+ dq +:+ "> Buy milk</li>" +:+ nl
  +:+ "</ul>" +:+ nl.

(** ** Library instances for the examples *)

(** An editor state reduced to its HTML, with libraries that copy their
    input: enough to run the effect. *)
Definition htmlEditor_isEmpty (html : string) : bool := String.eqb html "<p></p>".
Definition copyTurndown (_ : TurndownOptions) (_ : list Rule) (html : string) : string := html.

(** ** Notions for the further functions *)

(** The last note of the corpus whose lower-cased title is [k]. *)
Definition lastWithTitle (notes : list Note) (k : string) : option Note :=
  List.find (fun n => String.eqb (JS.toLowerCase (note_title n)) k) (rev notes).

(** ** Folder paths *)

(** The folders met when walking up from [current]: the walk ends at a root,
    or at an id that no folder carries. *)
Inductive folderChainFrom (folders : list Folder) : option string -> list Folder -> Prop :=
| folderChainFrom_root current :
    JS.truthyOpt current = None -> folderChainFrom folders current []
| folderChainFrom_missing current c :
    JS.truthyOpt current = Some c -> findFolder folders c = None ->
    folderChainFrom folders current []
| folderChainFrom_step current c f l :
    JS.truthyOpt current = Some c -> findFolder folders c = Some f ->
    folderChainFrom folders (parentId f) l ->
    folderChainFrom folders current (f :: l).

(** Every reference to a folder, from a note or from a folder, names a folder
    of the state. *)
Definition referencesResolve (folders : list Folder) (notes : list Note) : Prop :=
  Forall (fun f => forall p, JS.truthyOpt (parentId f) = Some p ->
                             In p (map folder_id folders)) folders
  /\ Forall (fun n => forall p, JS.truthyOpt (note_folderId n) = Some p ->
                                In p (map folder_id folders)) notes.

(** The titles that [getUniqueTitle] tries, in order. *)
Definition candidateTitle (baseTitle : string) (k : nat) : string :=
  match k with
  | O => baseTitle
  | S _ => numberedTitle baseTitle k
  end.

(** No two folders with the same parent carry the same name. *)
Definition siblingNamesUnique (folders : list Folder) : Prop :=
  NoDup (map (fun f => (folder_name f, parentId f)) folders).

(** No two notes of the same folder carry the same title. *)
Definition siblingTitlesUnique (notes : list Note) : Prop :=
  NoDup (map (fun n => (note_title n, note_folderId n)) notes).

(** A note of the folder Projects. *)
Definition notePlan : Note := mkNote "n" "Plan" EmptyString (Some "p").

(** ** Tabs *)

(** The active note, if there is one, has a tab. *)
Definition activeHasTab (st : AppState) : Prop :=
  activeNoteId st = EmptyString \/ In (activeNoteId st) (openNoteIds st).

(** Every tab and the active id, if there is one, name a note of the state. *)
Definition tabsResolve (st : AppState) : Prop :=
  Forall (fun t => In t (map note_id (app_notes st))) (openNoteIds st)
  /\ (activeNoteId st = EmptyString \/ In (activeNoteId st) (map note_id (app_notes st))).

(** ** Headings *)

(** The content of the note opens with the heading of its title. *)
Definition headingInSync (n : Note) : Prop :=
  exists rest, note_content n = "# " +:+ note_title n +:+ rest.

(** ** An example state *)

(** The notes Plan, A and B, the folder tree of above, the folder Projects
    selected, Plan active, Plan and A open in tabs. *)
Definition exampleState : AppState :=
  mkAppState [notePlan; noteA; noteB] folderTree [] {[ "p" ]} "n" ["n"; "a"].

(** The items of [exampleState] as the sidebar lists them. *)
Definition exampleVisible : list string := ["w"; "p"; "x"; "n"; "a"; "b"].

Definition ctrlClick : MouseEvent := mkMouseEvent true false false.
Definition shiftClick : MouseEvent := mkMouseEvent false false true.

Definition examplePalette : list PaletteAction :=
  [ mkPaletteAction "new-note" "New Note";
    mkPaletteAction "new-folder" "New Folder";
    mkPaletteAction "graph" "Toggle Graph View" ].

Definition exampleFile : UploadedFile :=
  mkUploadedFile "diagram.png" "image/png" "data:image/png;base64,iVBORw0KGgo=".

(** A note whose content opens with the heading of its title. *)
Definition noteOld : Note := mkNote "h" "Old" ("# Old" +:+ nl +:+ nl +:+ "body") None.

(** ** What is assumed of the libraries

    [marked], Tiptap and turndown are not part of the sources.  The
    statements on round trips rest on two laws of the document and its
    serialiser, stated below for running text without markup and for code
    without markup; what [marked.parse] returns for a line is a premise of the
    statement that uses it. *)

(** Letters. *)
Definition isLetter (c : ascii) : bool :=
  JS.isWordChar c && negb (JS.isDigit c) && negb (Ascii.eqb c "_").

(** Characters of running text to which neither markdown nor HTML gives a
    meaning: letters, the space, the full stop and the comma. *)
Definition proseChar (c : ascii) : bool :=
  isLetter c || Ascii.eqb c " " || Ascii.eqb c "." || Ascii.eqb c ",".

(** Characters of the text between the brackets of a wiki link: those of
    running text and the bar. *)
Definition linkChar (c : ascii) : bool := proseChar c || Ascii.eqb c "|".

(** Characters of code: letters, digits, the space, the line feed and some
    punctuation, among it the square brackets. *)
Definition codeChar (c : ascii) : bool :=
  isLetter c || JS.isDigit c || Ascii.eqb c " " || Ascii.eqb c (ascii_of_nat 10)
  || Ascii.eqb c "(" || Ascii.eqb c ")" || Ascii.eqb c "[" || Ascii.eqb c "]"
  || Ascii.eqb c "." || Ascii.eqb c "," || Ascii.eqb c "=" || Ascii.eqb c "_".

(** Running text that opens a paragraph: it does not start with a space. *)
Definition opensParagraph (pre : string) : Prop :=
  JS.forallb proseChar pre = true /\ JS.startsWith " " pre = false.

(** Running text that closes a paragraph: it does not end with a space. *)
Definition closesParagraph (post : string) : Prop :=
  JS.forallb proseChar post = true /\ JS.endsWith " " post = false.

(** The text between the brackets of a wiki link: not empty, no space at
    either end. *)
Definition linkText (inner : string) : Prop :=
  JS.forallb linkChar inner = true /\ inner <> EmptyString
  /\ JS.startsWith " " inner = false /\ JS.endsWith " " inner = false.

(** A language tag: letters, at least one. *)
Definition langText (lang : string) : Prop :=
  JS.forallb isLetter lang = true /\ lang <> EmptyString.

(** The content of a code block: not empty, no line feed at either end. *)
Definition codeText (body : string) : Prop :=
  JS.forallb codeChar body = true /\ body <> EmptyString
  /\ JS.startsWith nl body = false /\ JS.endsWith nl body = false.

(** An anchor of class wiki-link, as HTML text. *)
Definition linkHtml (href text : string) : string :=
  "<a href=" +:+ dq +:+ href +:+ dq +:+ " class=" +:+ dq +:+ "wiki-link" +:+ dq
  +:+ ">" +:+ text +:+ "</a>".

(** A paragraph of running text around one wiki-link anchor, as
    [marked.parse] ends it. *)
Definition linkParagraph (pre href text post : string) : string :=
  "<p>" +:+ pre +:+ linkHtml href text +:+ post +:+ "</p>" +:+ nl.

(** A fenced code block with a language tag, as markdown. *)
Definition fencedBlock (lang body : string) : string :=
  fence +:+ lang +:+ nl +:+ body +:+ nl +:+ fence.

(** The document built from a paragraph with one wiki-link anchor holds a
    link element whose [href] is the one of the anchor, and is serialised
    as the text before the link, what the first added rule writes for the
    link element if its filter accepts it, and the text after the link. *)
Definition linkLaw {Editor : Type} (getHTML : Editor -> string)
    (setContent : string -> Editor -> Editor)
    (turndown : TurndownOptions -> list Rule -> string -> string) : Prop :=
  forall (options : TurndownOptions) (rule : Rule) (rules : list Rule) (ed : Editor)
         (pre target text post : string),
    opensParagraph pre -> linkText target -> linkText text -> closesParagraph post ->
    exists (node : DomElement) (content : string),
      nodeName node = "A"
      /\ getAttribute node "href" = Some ("wiki:" +:+ target)
      /\ (filter rule node = true ->
          turndown options (rule :: rules)
            (getHTML (setContent (linkParagraph pre ("wiki:" +:+ target) text post) ed))
          = pre +:+ replacement rule content node +:+ post).

(** With the fenced style, and with added rules that accept link elements
    only, the document built from a code block with a language tag is
    serialised as the fence with the tag and the content. *)
Definition codeBlockLaw {Editor : Type} (getHTML : Editor -> string)
    (setContent : string -> Editor -> Editor)
    (turndown : TurndownOptions -> list Rule -> string -> string) : Prop :=
  forall (options : TurndownOptions) (rules : list Rule) (ed : Editor)
         (lang body : string),
    codeBlockStyle options = "fenced" ->
    Forall (fun rule => forall node, filter rule node = true -> nodeName node = "A") rules ->
    langText lang -> codeText body ->
    turndown options rules (getHTML (setContent (codeBlockHtml lang body +:+ nl) ed))
    = fencedBlock lang body.

(** ** Stand-ins for the libraries

    An editor that is its HTML, and converters that read the two kinds of
    document of the laws and leave every other input as it is. *)

Definition dqChar : ascii := ascii_of_nat 34.

Definition notChar (c x : ascii) : bool := negb (Ascii.eqb x c).

(** The text before the first [c], and the text from it on. *)
Definition upTo (c : ascii) (s : string) : string := JS.take (span (notChar c) s) s.
Definition from (c : ascii) (s : string) : string := JS.drop (span (notChar c) s) s.

Definition stripPrefix (p s : string) : option string :=
  if JS.startsWith p s then Some (JS.drop (String.length p) s) else None.

(** A line that opens a fence, up to a final line that closes it, becomes a
    code block whose content ends with a line feed; every other input becomes
    a paragraph. *)
Definition miniMarked (content : string) : string :=
  match stripPrefix fence content with
  | Some inside =>
      let lang := upTo (ascii_of_nat 10) inside in
      let lines := JS.drop 1 (from (ascii_of_nat 10) inside) in
      if JS.endsWith (nl +:+ fence) lines
      then codeBlockHtml lang (JS.take (String.length lines - 4) lines +:+ nl) +:+ nl
      else "<p>" +:+ content +:+ "</p>" +:+ nl
  | None => "<p>" +:+ content +:+ "</p>" +:+ nl
  end.

Definition miniSetContent (html : string) (_ : string) : string := html.

(** The first rule whose filter accepts the element writes it. *)
Definition convertElement (rules : list Rule) (content : string) (node : DomElement)
    : string :=
  match List.find (fun rule => filter rule node) rules with
  | Some rule => replacement rule content node
  | None => content
  end.

(** What follows the opening tag of a paragraph: text, then possibly one
    wiki-link anchor and text. *)
Definition miniParagraph (rules : list Rule) (s : string) : option string :=
  let pre := upTo "<" s in
  match stripPrefix ("<a href=" +:+ dq) (from "<" s) with
  | Some s1 =>
      let href := upTo dqChar s1 in
      match stripPrefix (dq +:+ " class=" +:+ dq +:+ "wiki-link" +:+ dq +:+ ">")
                        (from dqChar s1) with
      | Some s2 =>
          let text := upTo "<" s2 in
          match stripPrefix "</a>" (from "<" s2) with
          | Some s3 =>
              let post := upTo "<" s3 in
              if String.eqb (from "<" s3) ("</p>" +:+ nl)
              then Some (pre
                         +:+ convertElement rules text
                               (renderHTML (mkWikiLinkEntity text (Some href)))
                         +:+ post)
              else None
          | None => None
          end
      | None => None
      end
  | None => if String.eqb (from "<" s) ("</p>" +:+ nl) then Some pre else None
  end.

(** What follows the opening tags of a code block with a language tag. *)
Definition miniCodeBlock (options : TurndownOptions) (s : string) : option string :=
  let lang := upTo dqChar s in
  match stripPrefix codeOpenLangEnd (from dqChar s) with
  | Some s1 =>
      let body := upTo "<" s1 in
      if String.eqb (from "<" s1) (codeClose +:+ nl)
      then Some (if String.eqb (codeBlockStyle options) "fenced"
                 then fencedBlock lang body
                 else "    " +:+ body)
      else None
  | None => None
  end.

Definition miniTurndown (options : TurndownOptions) (rules : list Rule) (html : string)
    : string :=
  match stripPrefix "<p>" html with
  | Some s => default html (miniParagraph rules s)
  | None =>
      match stripPrefix codeOpenLang html with
      | Some s => default html (miniCodeBlock options s)
      | None => html
      end
  end.

(** * Properties *)

(** ** Strings *)

Section StringFacts.

Lemma append_cons (c : ascii) (s t : string) :
  String c s +:+ t = String c (s +:+ t).
Proof. reflexivity. Qed.

Lemma append_nil_l (s : string) : EmptyString +:+ s = s.
Proof. reflexivity. Qed.

Lemma append_assoc (a b c : string) : (a +:+ b) +:+ c = a +:+ b +:+ c.
Proof. induction a as [|x a IH]; [done | rewrite !append_cons; congruence]. Qed.

Lemma length_append (a b : string) :
  String.length (a +:+ b) = (String.length a + String.length b)%nat.
Proof. induction a as [|x a IH]; [done | rewrite append_cons; simpl; congruence]. Qed.

Lemma startsWith_spec (p s : string) :
  JS.startsWith p s = true <-> exists r, s = p +:+ r.
Proof.
  revert s; induction p as [|a p IH]; intros s; simpl.
  - split; [intros _; by exists s | done].
  - destruct s as [|b s].
    + split; [done | intros [r Hr]; discriminate].
    + destruct (Ascii.eqb_spec a b) as [->|Hne].
      * rewrite IH. split; intros [r Hr]; exists r;
          rewrite ?append_cons in *; congruence.
      * split; [done | intros [r Hr]; rewrite append_cons in Hr; congruence].
Qed.

Lemma startsWith_append (p r : string) : JS.startsWith p (p +:+ r) = true.
Proof. apply startsWith_spec. by exists r. Qed.

Lemma drop_append (p r : string) : JS.drop (String.length p) (p +:+ r) = r.
Proof. induction p as [|a p IH]; [by destruct r | done]. Qed.

Lemma filter_sublist {A : Type} (f : A -> bool) (l : list A) :
  sublist (List.filter f l) l.
Proof.
  induction l as [|x l IH]; simpl; [constructor|].
  destruct (f x); by constructor.
Qed.

Lemma includes_spec (p s : string) :
  JS.includes p s = true <-> exists a b, s = a +:+ p +:+ b.
Proof.
  induction s as [|c s IH]; simpl.
  - rewrite orb_false_r, startsWith_spec. split.
    + intros [r Hr]. by exists EmptyString, r.
    + intros [a [b Hab]]. destruct a; [by exists b | discriminate].
  - rewrite orb_true_iff, startsWith_spec, IH. split.
    + intros [[r Hr] | [a [b Hab]]].
      * by exists EmptyString, r.
      * exists (String c a), b. rewrite append_cons. by rewrite Hab.
    + intros [a [b Hab]]. destruct a as [|x a].
      * left. by exists b.
      * right. exists a, b. rewrite append_cons in Hab. congruence.
Qed.

Lemma toLowerCase_append (a b : string) :
  JS.toLowerCase (a +:+ b) = JS.toLowerCase a +:+ JS.toLowerCase b.
Proof.
  induction a as [|x a IH]; [done|].
  rewrite append_cons. simpl. rewrite append_cons. congruence.
Qed.

End StringFacts.

(** ** Backlinks *)

Lemma linksToTitle_spec (title : string) (n : Note) :
  linksToTitle (JS.toLowerCase title) n = true <->
  containsIgnoringCase (note_content n) ("[[" +:+ title +:+ "]]")
  \/ containsIgnoringCase (note_content n) ("[[" +:+ title +:+ "|").
Proof.
  unfold linksToTitle, containsIgnoringCase.
  rewrite orb_true_iff, !includes_spec, !toLowerCase_append. done.
Qed.

(** C8.  For a target note [A] (the note [getBacklinks] finds for its id), the
    backlinks of [A] are exactly the notes of the corpus, in corpus order,
    whose id differs from that of [A] and whose content contains, compared
    case-insensitively, the text [[[title]]] or the text [[[title|], as a
    plain substring. *)
Theorem getBacklinks_exact (notes : list Note) (A : Note) :
  List.find (fun n => String.eqb (note_id n) (note_id A)) notes = Some A ->
  (forall B, In B (getBacklinks notes (note_id A)) <->
     In B notes /\ note_id B <> note_id A /\
     (containsIgnoringCase (note_content B) ("[[" +:+ note_title A +:+ "]]")
      \/ containsIgnoringCase (note_content B) ("[[" +:+ note_title A +:+ "|")))
  /\ sublist (getBacklinks notes (note_id A)) notes.
Proof.
  intros Hfind. unfold getBacklinks. rewrite Hfind. split.
  - intros B. rewrite filter_In, andb_true_iff, negb_true_iff, linksToTitle_spec.
    destruct (String.eqb_spec (note_id B) (note_id A)); intuition congruence.
  - apply filter_sublist.
Qed.

(** ** Graph extraction *)

Lemma sameEndpoints_spec (link l : GraphLink) :
  sameEndpoints link l = true <-> endpoints l = endpoints link.
Proof.
  unfold sameEndpoints, endpoints.
  rewrite andb_true_iff, !bool_decide_eq_true. split; [intros [-> ->]; done|].
  intros [= -> ->]. done.
Qed.

Lemma findIndex_bounds {A : Type} (p : A -> bool) (l : list A) :
  -1 <= findIndex p l < Z.of_nat (length l).
Proof.
  induction l as [|x l IH]; simpl; [lia|].
  destruct (p x); [lia|]. destruct (Z.ltb_spec (findIndex p l) 0); lia.
Qed.

(** The index [findIndex] returns for an element that satisfies [p] and
    stands right after the prefix [pre]. *)
Lemma findIndex_at {A : Type} (p : A -> bool) (pre suf : list A) (x : A) :
  p x = true ->
  findIndex p (pre ++ x :: suf) =
    if List.existsb p pre then findIndex p pre else Z.of_nat (length pre).
Proof.
  intros Hx. induction pre as [|y pre IH]; simpl.
  - by rewrite Hx.
  - destruct (p y); simpl; [done|]. rewrite IH.
    destruct (List.existsb p pre) eqn:E.
    + done.
    + destruct (Z.ltb_spec (Z.of_nat (length pre)) 0); lia.
Qed.

Lemma filterIndexed_keepFirst (pre suf : list GraphLink) :
  filterIndexed (fun link index => index =? findIndex (sameEndpoints link) (pre ++ suf))
    (Z.of_nat (length pre)) suf
  = keepFirst pre suf.
Proof.
  revert pre; induction suf as [|x suf IH]; intros pre; simpl; [done|].
  assert (Hx : sameEndpoints x x = true) by by apply sameEndpoints_spec.
  rewrite (findIndex_at _ pre suf x Hx).
  specialize (IH (pre ++ [x])).
  rewrite <- app_assoc, length_app in IH. simpl in IH.
  replace (Z.of_nat (length pre) + 1) with (Z.of_nat (length pre + 1)) by lia.
  destruct (List.existsb (sameEndpoints x) pre) eqn:E.
  - pose proof (findIndex_bounds (sameEndpoints x) pre).
    destruct (Z.eqb_spec (Z.of_nat (length pre)) (findIndex (sameEndpoints x) pre)); [lia|].
    exact IH.
  - rewrite Z.eqb_refl. f_equal. exact IH.
Qed.

Lemma uniqueLinks_keepFirst (l : list GraphLink) : uniqueLinks l = keepFirst [] l.
Proof. exact (filterIndexed_keepFirst [] l). Qed.

Lemma keepFirst_fresh (seen l : list GraphLink) (x : GraphLink) :
  In x (keepFirst seen l) -> In x l /\ ~ In (endpoints x) (map endpoints seen).
Proof.
  revert seen; induction l as [|y l IH]; intros seen; simpl; [done|].
  assert (Hstep : In x (keepFirst (seen ++ [y]) l) ->
                  (y = x \/ In x l) /\ ~ In (endpoints x) (map endpoints seen)).
  { intros H. destruct (IH _ H) as [H1 H2]. split; [by right|].
    intros Hin. apply H2. rewrite map_app, in_app_iff. by left. }
  destruct (List.existsb (sameEndpoints y) seen) eqn:E; [exact Hstep|].
  intros [<- | H]; [|by apply Hstep]. split; [by left|].
  intros Hin. apply in_map_iff in Hin as [z [Hz Hin]].
  assert (List.existsb (sameEndpoints y) seen = true); [|congruence].
  apply existsb_exists. exists z. split; [done|]. by apply sameEndpoints_spec.
Qed.

Lemma keepFirst_NoDup (seen l : list GraphLink) :
  NoDup (map endpoints (keepFirst seen l)).
Proof.
  revert seen; induction l as [|y l IH]; intros seen; simpl; [constructor|].
  destruct (List.existsb (sameEndpoints y) seen); [apply IH|].
  simpl. constructor; [|apply IH].
  rewrite list_elem_of_In, in_map_iff. intros [z [Hz Hin]].
  apply keepFirst_fresh in Hin as [_ Hfresh]. apply Hfresh.
  rewrite map_app, in_app_iff. right. simpl. by left.
Qed.

Lemma linksOfNote_shape (titles : gmap string string) (n : Note) (l : GraphLink) :
  In l (linksOfNote titles n) -> value l = 1 /\ source l <> target l.
Proof.
  unfold linksOfNote. rewrite <- list_elem_of_In, list_elem_of_omap.
  intros [capture [_ H]].
  destruct (titles !! targetTitle capture) as [targetId|]; [|done].
  destruct (decide (targetId = note_id n)); [done|].
  injection H as <-. simpl. split; [done | congruence].
Qed.

Lemma keepFirst_complete (seen l : list GraphLink) (x : GraphLink) :
  In x l ->
  In (endpoints x) (map endpoints seen)
  \/ In (endpoints x) (map endpoints (keepFirst seen l)).
Proof.
  revert seen; induction l as [|y l IH]; intros seen; simpl; [done|].
  intros [-> | Hx].
  - destruct (List.existsb (sameEndpoints x) seen) eqn:E.
    + left. apply existsb_exists in E as [z [Hz Hsame]].
      apply sameEndpoints_spec in Hsame. rewrite <- Hsame. by apply in_map.
    + right. simpl. by left.
  - destruct (IH (seen ++ [y]) Hx) as [Hseen | Hkept].
    + rewrite map_app, in_app_iff in Hseen. destruct Hseen as [Hseen | Hy].
      * by left.
      * simpl in Hy. destruct Hy as [Hy | []].
        destruct (List.existsb (sameEndpoints y) seen) eqn:E.
        -- left. apply existsb_exists in E as [z [Hz Hsame]].
           apply sameEndpoints_spec in Hsame. rewrite <- Hy, <- Hsame. by apply in_map.
        -- right. simpl. by left.
    + right. destruct (List.existsb (sameEndpoints y) seen); [done|].
      simpl. by right.
Qed.

(** C7.  The links of the extracted graph hold at most one link for each
    ordered pair (source, target), every link has value 1 and none joins a
    note to itself; every wiki link found between two notes is represented by
    the one link kept for its pair; for the corpus of note A, whose content is
    "[[B]] and [[B]] again", and note B the links are the single link from A
    to B with value 1. *)
Theorem generateGraphData_links_unique (notes : list Note) (folders : list Folder) :
  NoDup (map endpoints (links (generateGraphData notes folders)))
  /\ Forall (fun l => value l = 1 /\ source l <> target l)
            (links (generateGraphData notes folders))
  /\ (forall n l, In n notes -> In l (linksOfNote (noteTitleToIdMap notes) n) ->
        In (endpoints l) (map endpoints (links (generateGraphData notes folders))))
  /\ links (generateGraphData [noteA; noteB] []) =
       [mkGraphLink (note_id noteA) (note_id noteB) 1].
Proof.
  unfold generateGraphData. cbn [links]. split; [|split; [|split]].
  - rewrite uniqueLinks_keepFirst. apply keepFirst_NoDup.
  - rewrite uniqueLinks_keepFirst. apply List.Forall_forall. intros l Hl.
    apply keepFirst_fresh in Hl as [Hl _].
    apply in_concat in Hl as [ls [Hls Hl]].
    apply in_map_iff in Hls as [n [<- _]].
    by apply linksOfNote_shape in Hl.
  - intros n l Hn Hl. rewrite uniqueLinks_keepFirst.
    destruct (keepFirst_complete [] (concat (map (linksOfNote (noteTitleToIdMap notes)) notes)) l)
      as [[] | Hkept]; [|done].
    apply in_concat. exists (linksOfNote (noteTitleToIdMap notes) n).
    split; [by apply in_map | done].
  - vm_compute. reflexivity.
Qed.

(** ** The folder tree *)

Section FolderTree.

Lemma parentOf_Some (folders : list Folder) (a p : string) :
  parentOf folders a = Some p -> In a (map folder_id folders).
Proof.
  unfold parentOf.
  destruct (List.find _ folders) as [f|] eqn:E; [|done]. intros _.
  apply find_some in E as [Hin Heq]. apply String.eqb_eq in Heq as <-.
  by apply in_map.
Qed.

Lemma isParent_dom (folders : list Folder) (a b : string) :
  isParent folders a b -> In a (map folder_id folders).
Proof.
  unfold isParent. destruct (parentOf folders a) as [p|] eqn:E; [|done].
  intros _. by apply parentOf_Some in E.
Qed.

Lemma folder_id_setParent (F : string) (t : option string) (f : Folder) :
  folder_id (setParent F t f) = folder_id f.
Proof. unfold setParent. by destruct (String.eqb (folder_id f) F). Qed.

Lemma parentId_setParent (F : string) (t : option string) (f : Folder) :
  parentId (setParent F t f) = if String.eqb (folder_id f) F then t else parentId f.
Proof. unfold setParent. by destruct (String.eqb (folder_id f) F). Qed.

(** The parent function after the [map] of [handleMoveFolder]. *)
Lemma parentOf_setParent (folders : list Folder) (F : string) (t : option string)
    (a : string) :
  parentOf (map (setParent F t) folders) a =
    if String.eqb a F
    then match List.find (fun f => String.eqb (folder_id f) F) folders with
         | Some _ => t
         | None => None
         end
    else parentOf folders a.
Proof.
  unfold parentOf. induction folders as [|f folders IH]; simpl.
  - by destruct (String.eqb a F).
  - rewrite folder_id_setParent.
    destruct (String.eqb_spec (folder_id f) a) as [Ha|Ha].
    + rewrite parentId_setParent, Ha.
      destruct (String.eqb_spec a F) as [HF|HF]; [|done].
      done.
    + rewrite IH. destruct (String.eqb_spec a F) as [HF|HF]; [|done].
      destruct (String.eqb_spec (folder_id f) F); [congruence | done].
Qed.

Lemma isParent_setParent (folders : list Folder) (F : string) (t : option string)
    (a b : string) :
  isParent (map (setParent F t) folders) a b ->
  isParent folders a b \/ (a = F /\ JS.truthyOpt t = Some b).
Proof.
  unfold isParent. rewrite parentOf_setParent.
  destruct (String.eqb_spec a F) as [->|Ha]; [|by left].
  destruct (List.find _ folders); [by right | done].
Qed.

(** A path of the new parent relation either exists in the old one, or
    enters the moved folder [F] and leaves it through its new parent. *)
Lemma tc_setParent (R R' : relation string) (F : string) (t : option string) :
  (forall a b, R' a b -> R a b \/ (a = F /\ t = Some b)) ->
  forall x y, tc R' x y ->
    tc R x y \/ (rtc R x F /\ exists T, t = Some T /\ rtc R T y).
Proof.
  intros Hstep x y Hxy. induction Hxy as [x y Hxy | x z y Hxz _ IH].
  - destruct (Hstep _ _ Hxy) as [H | [-> Ht]].
    + left. by apply tc_once.
    + right. split; [done|]. by exists y.
  - destruct (Hstep _ _ Hxz) as [H | [-> Ht]].
    + destruct IH as [IH | [IH1 IH2]].
      * left. by eapply tc_l.
      * right. split; [by eapply rtc_l | done].
    + right. split; [done|]. exists z. split; [done|].
      destruct IH as [IH | [_ [T [HT IH]]]]; [by apply tc_rtc|].
      by simplify_eq.
Qed.

Lemma isDescendantLoop_false (folders : list Folder) (F : string) (n : nat) :
  forall current T,
    isDescendantLoop n folders F current = Some false ->
    JS.truthyOpt current = Some T ->
    ~ chainPassesThrough folders T F.
Proof.
  induction n as [|n IH]; intros current T; simpl; [done|].
  destruct (JS.truthyOpt current) as [c|]; [|done].
  destruct (String.eqb_spec c F) as [->|Hc]; [done|].
  intros Hloop [= ->] Hrtc.
  apply rtc_inv in Hrtc as [-> | [d [Hd Hrtc]]]; [done|].
  by eapply IH.
Qed.

Lemma isDescendantLoop_true (folders : list Folder) (F : string) (n : nat) :
  forall current,
    isDescendantLoop n folders F current = Some true ->
    exists T, JS.truthyOpt current = Some T /\ chainPassesThrough folders T F.
Proof.
  induction n as [|n IH]; intros current; simpl; [done|].
  destruct (JS.truthyOpt current) as [c|] eqn:E; [|done].
  destruct (String.eqb_spec c F) as [->|Hc].
  - intros _. exists F. split; [done | apply rtc_refl].
  - intros Hloop. destruct (IH _ Hloop) as [T [HT Hrtc]].
    exists c. split; [done|]. by eapply rtc_l.
Qed.

Lemma parentChain_ancestor (folders : list Folder) (x : string) (l : list string) :
  parentChain folders (x :: l) -> forall y, In y l -> isAncestor folders x y.
Proof.
  revert x; induction l as [|z l IH]; intros x Hc y Hy; [done|].
  inversion Hc as [| |? ? ? Hxz Hc']; subst.
  destruct Hy as [<- | Hy]; [by apply tc_once|].
  eapply tc_l; [done|]. by apply IH.
Qed.

Lemma parentChain_NoDup (folders : list Folder) (l : list string) :
  cycleFree folders -> parentChain folders l -> NoDup l.
Proof.
  intros Hfree. induction l as [|x l IH]; intros Hc; [constructor|].
  constructor.
  - rewrite list_elem_of_In. intros Hin.
    by apply (Hfree x), (parentChain_ancestor folders x l).
  - apply IH. inversion Hc; subst; [constructor | done].
Qed.

Lemma isDescendantLoop_step (folders : list Folder) (F : string) (n : nat)
    (current : option string) :
  isDescendantLoop (S n) folders F current =
    match JS.truthyOpt current with
    | None => Some false
    | Some c =>
        if String.eqb c F then Some true
        else isDescendantLoop n folders F (parentOf folders c)
    end.
Proof. reflexivity. Qed.

(** Once the loop exits, more fuel does not change its answer. *)
Lemma isDescendantLoop_fuel (folders : list Folder) (F : string) (n : nat) :
  forall m current b,
    (n <= m)%nat ->
    isDescendantLoop n folders F current = Some b ->
    isDescendantLoop m folders F current = Some b.
Proof.
  induction n as [|n IH]; intros m current b Hle; [done|].
  destruct m as [|m]; [lia|]. rewrite !isDescendantLoop_step.
  destruct (JS.truthyOpt current) as [c|]; [|done].
  destruct (String.eqb c F); [done|]. apply IH. lia.
Qed.

(** When the fuel runs out, the loop has walked a parent chain as long as
    the fuel allowed, every member of which has a parent. *)
Lemma isDescendantLoop_None (folders : list Folder) (F : string) (n : nat) :
  forall current,
    isDescendantLoop (S n) folders F current = None ->
    exists l, length l = n /\ parentChain folders l
              /\ Forall (fun a => In a (map folder_id folders)) l
              /\ (n <> O -> head l = JS.truthyOpt current).
Proof.
  induction n as [|n IH]; intros current Hloop.
  - exists []. repeat split; [constructor | constructor | done].
  - rewrite isDescendantLoop_step in Hloop.
    destruct (JS.truthyOpt current) as [c|] eqn:Ec; [|done].
    destruct (String.eqb c F); [done|].
    destruct (JS.truthyOpt (parentOf folders c)) as [d|] eqn:Ed.
    + destruct (IH _ Hloop) as [l [Hlen [Hchain [Hdom Hhead]]]].
      exists (c :: l). repeat split.
      * simpl. by rewrite Hlen.
      * destruct l as [|y l]; [constructor|].
        constructor; [|done]. unfold isParent.
        rewrite <- Hhead; [done|]. simpl in Hlen. lia.
      * constructor; [|done]. by apply (isParent_dom folders c d).
    + rewrite isDescendantLoop_step in Hloop. by rewrite Ed in Hloop.
Qed.

(** In a cycle-free folder state the loop of [handleMoveFolder] exits. *)
Lemma isDescendantLoop_exits (folders : list Folder) (F : string)
    (current : option string) :
  cycleFree folders ->
  isDescendantLoop (length folders + 2) folders F current <> None.
Proof.
  intros Hfree Hloop.
  replace (length folders + 2)%nat with (S (S (length folders))) in Hloop by lia.
  apply isDescendantLoop_None in Hloop as [l [Hlen [Hchain [Hdom _]]]].
  pose proof (parentChain_NoDup _ _ Hfree Hchain) as Hnodup.
  assert (length l <= length (map folder_id folders))%nat as Hle.
  { apply submseteq_length, NoDup_submseteq; [done|]. intros a Ha.
    apply list_elem_of_In. apply list_elem_of_In in Ha.
    by eapply List.Forall_forall in Hdom. }
  rewrite length_map in Hle. lia.
Qed.

Lemma setParent_cycleFree (folders : list Folder) (F : string) (t : option string) :
  cycleFree folders ->
  (forall T, JS.truthyOpt t = Some T -> ~ chainPassesThrough folders T F) ->
  cycleFree (map (setParent F t) folders).
Proof.
  intros Hfree Hcheck x Hcycle.
  apply (tc_setParent (isParent folders) _ F (JS.truthyOpt t)) in Hcycle
    as [Hcycle | [HxF [T [HT HTx]]]].
  - by apply (Hfree x).
  - apply (Hcheck T HT). unfold chainPassesThrough. by etrans.
  - intros a b. apply isParent_setParent.
Qed.

(** One move keeps a cycle-free state cycle-free, returns, and leaves the
    state as it is when the move would put the folder below itself. *)
Lemma handleMoveFolder_cycleFree (folders : list Folder) (F : string)
    (t : option string) :
  cycleFree folders ->
  exists folders',
    handleMoveFolder folders F t = Some folders'
    /\ cycleFree folders'
    /\ ((t = Some F \/
         exists T, JS.truthyOpt t = Some T /\ chainPassesThrough folders T F) ->
        folders' = folders).
Proof.
  intros Hfree. unfold handleMoveFolder.
  destruct (decide (Some F = t)) as [Heq|Hne]; [by exists folders|].
  pose proof (isDescendantLoop_exits folders F t Hfree) as Hexit.
  destruct (isDescendantLoop _ folders F t) as [[|]|] eqn:Hloop; [| |done].
  - by exists folders.
  - eexists. split; [done|]. split.
    + apply setParent_cycleFree; [done|]. intros T HT.
      by eapply isDescendantLoop_false.
    + intros [-> | [T [HT Hrtc]]]; [done|].
      by eapply isDescendantLoop_false in Hrtc.
Qed.

End FolderTree.

(** A folder state in which every folder lies at the root has no cycle. *)
Lemma roots_cycleFree (folders : list Folder) :
  Forall (fun f => JS.truthyOpt (parentId f) = None) folders -> cycleFree folders.
Proof.
  intros Hroots x Hcycle.
  assert (forall a b, ~ isParent folders a b) as Hno.
  { intros a b. unfold isParent, parentOf.
    destruct (List.find _ folders) as [f|] eqn:E; [|done].
    apply find_some in E as [Hin _].
    eapply List.Forall_forall in Hroots; [|exact Hin]. by rewrite Hroots. }
  destruct Hcycle as [? ? H | ? ? ? H _]; by apply Hno in H.
Qed.

(** C9.  From a cycle-free folder state, every sequence of move requests
    returns a folder state in which no folder is its own ancestor; a single
    move whose target is the moved folder itself, or whose target's parent
    chain passes through the moved folder, is rejected and returns the folder
    state unchanged. *)
Theorem handleMoveFolder_keeps_tree (folders : list Folder) :
  cycleFree folders ->
  (forall moves, exists folders',
      moveFolders folders moves = Some folders' /\ cycleFree folders')
  /\ (forall F t,
        t = Some F \/
        (exists T, JS.truthyOpt t = Some T /\ chainPassesThrough folders T F) ->
        handleMoveFolder folders F t = Some folders).
Proof.
  intros Hfree. split.
  - intros moves. revert folders Hfree.
    induction moves as [|[F t] moves IH]; intros folders Hfree; simpl.
    + by exists folders.
    + destruct (handleMoveFolder_cycleFree folders F t Hfree)
        as [folders' [-> [Hfree' _]]].
      by apply IH.
  - intros F t Hreject.
    destruct (handleMoveFolder_cycleFree folders F t Hfree)
      as [folders' [Hmove [_ Hsame]]].
    by rewrite Hmove, (Hsame Hreject).
Qed.

Lemma cycle_chainEnds (folders : list Folder) (n : nat) :
  forall x, isAncestor folders x x -> chainEnds n folders x = false.
Proof.
  induction n as [|n IH]; intros x Hx; simpl; [done|].
  assert (exists y, isParent folders x y /\ rtc (isParent folders) y x) as [y [Hxy Hyx]].
  { inversion Hx as [? ? H | ? y ? H Hyx]; subst.
    - exists x. split; [done | apply rtc_refl].
    - exists y. split; [done | by apply tc_rtc]. }
  unfold isParent in Hxy. rewrite Hxy. apply IH.
  eapply tc_rtc_l; [exact Hyx|]. by apply tc_once.
Qed.

Lemma cycleFreeb_sound (folders : list Folder) :
  cycleFreeb folders = true -> cycleFree folders.
Proof.
  unfold cycleFreeb. rewrite List.forallb_forall. intros Hall x Hx.
  assert (In x (map folder_id folders)) as Hin.
  { inversion Hx as [? ? H | ? ? ? H _]; subst; by apply isParent_dom in H. }
  apply in_map_iff in Hin as [f [<- Hf]].
  specialize (Hall f Hf). by rewrite (cycle_chainEnds _ _ _ Hx) in Hall.
Qed.

Lemma handleMoveFolder_keeps_tree_witness :
  (forall moves, exists folders',
      moveFolders folderTree moves = Some folders' /\ cycleFree folders')
  /\ (forall F t,
        t = Some F \/
        (exists T, JS.truthyOpt t = Some T /\ chainPassesThrough folderTree T F) ->
        handleMoveFolder folderTree F t = Some folderTree).
Proof.
  apply (handleMoveFolder_keeps_tree folderTree).
  apply cycleFreeb_sound. vm_compute. reflexivity.
Defined.

Example move_into_descendant_rejected :
  handleMoveFolder folderTree "w" (Some "x") = Some folderTree.
Proof. vm_compute. reflexivity. Qed.

Example move_to_sibling_accepted :
  handleMoveFolder folderTree "x" (Some "w") =
    Some [ mkFolder "w" "Work" None None;
           mkFolder "p" "Projects" (Some "w") None;
           mkFolder "x" "Alpha" (Some "w") (Some true) ].
Proof. vm_compute. reflexivity. Qed.

Lemma getBacklinks_exact_witness :
  (forall B, In B (getBacklinks [noteA; noteB] (note_id noteB)) <->
     In B [noteA; noteB] /\ note_id B <> note_id noteB /\
     (containsIgnoringCase (note_content B) ("[[" +:+ note_title noteB +:+ "]]")
      \/ containsIgnoringCase (note_content B) ("[[" +:+ note_title noteB +:+ "|")))
  /\ sublist (getBacklinks [noteA; noteB] (note_id noteB)) [noteA; noteB].
Proof. apply (getBacklinks_exact [noteA; noteB] noteB). reflexivity. Defined.

(** ** The synchronisation effect *)

Section Sync.

Context {Editor : Type}.
Variable marked_parse : string -> string.
Variable getHTML : Editor -> string.
Variable isEmpty : Editor -> bool.
Variable setContent : string -> Editor -> Editor.
Variable turndown : TurndownOptions -> list Rule -> string -> string.

Local Abbreviation syncEffect := (syncEffect marked_parse getHTML isEmpty turndown).
Local Abbreviation afterSync :=
  (afterSync marked_parse getHTML isEmpty setContent turndown).
Local Abbreviation serialize := (serialize getHTML turndown).
Local Abbreviation loadHtml := (loadHtml marked_parse).
Local Abbreviation driftDetected := (driftDetected getHTML isEmpty turndown).

Lemma driftDetected_test (ed : Editor) (content : string) :
  isEmpty ed || (5 <? Z.abs (JS.length (serialize ed) - JS.length content)) = true
  <-> driftDetected ed content.
Proof.
  unfold driftDetected. rewrite orb_true_iff, Z.ltb_lt. intuition lia.
Qed.

(** C10.  When the incoming markdown is the empty string the effect resets
    nothing, whatever the editor holds: the editor is left as it is, however
    far the length of its markdown lies from zero. *)
Theorem syncEffect_empty_content (editor : option Editor) :
  syncEffect editor EmptyString = NoReset
  /\ forall ed, afterSync ed EmptyString = ed.
Proof. split; [by destruct editor | done]. Qed.

(** C6, amended.  When the incoming markdown is not empty, the effect
    replaces the document by the reparsed markdown exactly when the drift
    rule holds (tolerance 5); otherwise it resets nothing and the editor is
    left as it is. *)
Theorem syncEffect_drift_rule (ed : Editor) (content : string) :
  content <> EmptyString ->
  (syncEffect (Some ed) content = Reset (loadHtml content) <-> driftDetected ed content)
  /\ (driftDetected ed content ->
      afterSync ed content = setContent (loadHtml content) ed)
  /\ (~ driftDetected ed content ->
      syncEffect (Some ed) content = NoReset /\ afterSync ed content = ed).
Proof.
  intros Hcontent. unfold afterSync. simpl.
  destruct content as [|c content]; [done|]. simpl.
  rewrite <- driftDetected_test. unfold serialize.
  destruct (isEmpty ed || _); simpl; intuition congruence.
Qed.

End Sync.

(** C6 as stated fails: the editor holds eight characters, the incoming
    markdown is empty, the lengths differ by 8 > 5, and yet nothing is reset. *)
Lemma syncEffect_drift_rule_counterexample :
  ~ (forall (Editor : Type) marked_parse getHTML isEmpty turndown (ed : Editor) content,
       syncEffect marked_parse getHTML isEmpty turndown (Some ed) content
         = Reset (loadHtml marked_parse content)
       <-> driftDetected getHTML isEmpty turndown ed content).
Proof.
  intros Hclaim.
  specialize (Hclaim string (fun s => s) (fun s => s) htmlEditor_isEmpty copyTurndown
                "abcdefgh" EmptyString).
  destruct Hclaim as [_ Hclaim].
  assert (driftDetected (fun s => s) htmlEditor_isEmpty copyTurndown "abcdefgh" EmptyString)
    as Hdrift by (right; vm_compute; reflexivity).
  specialize (Hclaim Hdrift). discriminate Hclaim.
Qed.

Lemma syncEffect_drift_rule_witness :
  (syncEffect (fun s => s) (fun s => s) htmlEditor_isEmpty copyTurndown
     (Some "<p>old</p>") "new text, longer"
     = Reset (loadHtml (fun s => s) "new text, longer")
   <-> driftDetected (fun s => s) htmlEditor_isEmpty copyTurndown
         "<p>old</p>" "new text, longer")
  /\ (driftDetected (fun s => s) htmlEditor_isEmpty copyTurndown
        "<p>old</p>" "new text, longer" ->
      afterSync (fun s => s) (fun s => s) htmlEditor_isEmpty (fun html _ => html)
        copyTurndown "<p>old</p>" "new text, longer"
      = loadHtml (fun s => s) "new text, longer")
  /\ (~ driftDetected (fun s => s) htmlEditor_isEmpty copyTurndown
          "<p>old</p>" "new text, longer" ->
      syncEffect (fun s => s) (fun s => s) htmlEditor_isEmpty copyTurndown
        (Some "<p>old</p>") "new text, longer" = NoReset
      /\ afterSync (fun s => s) (fun s => s) htmlEditor_isEmpty (fun html _ => html)
           copyTurndown "<p>old</p>" "new text, longer" = "<p>old</p>").
Proof.
  apply (syncEffect_drift_rule (fun s => s) (fun s => s) htmlEditor_isEmpty
           (fun html _ => html) copyTurndown "<p>old</p>" "new text, longer").
  discriminate.
Defined.

(** ** The Enter handler *)

Ltac string_append :=
  repeat first [rewrite append_cons in * | rewrite append_nil_l in *].

Section EnterFacts.

Lemma existsb_triggerChar (text : string) :
  noTriggerChar text -> JS.existsb isTriggerChar text = false.
Proof.
  unfold noTriggerChar. induction text as [|c text IH]; simpl; [done|].
  intros H. inversion H as [|? ? Hc Htext]; subst.
  rewrite (IH Htext), orb_false_r.
  unfold isTriggerChar. apply not_true_is_false. intros Htrue.
  apply Hc. unfold triggerChars.
  rewrite !orb_true_iff, !Ascii.eqb_eq in Htrue. simpl. intuition.
Qed.

Lemma span_hashes (k : nat) (c : ascii) (rest : string) :
  isHash c = false -> span isHash (hashes k +:+ String c rest) = k.
Proof.
  intros Hc. induction k as [|k IH]; simpl.
  - by rewrite Hc.
  - by rewrite IH.
Qed.

Lemma span_take (f : ascii -> bool) (s : string) :
  s = JS.take (span f s) s +:+ JS.drop (span f s) s
  /\ JS.forallb f (JS.take (span f s) s) = true.
Proof.
  induction s as [|c s [IH1 IH2]]; simpl; [done|].
  destruct (f c) eqn:E; simpl; [|done].
  rewrite E, IH2. split; [|done]. rewrite append_cons. by rewrite <- IH1.
Qed.

Lemma span_forallb (f : ascii -> bool) (ds : string) (c : ascii) (rest : string) :
  JS.forallb f ds = true -> f c = false ->
  span f (ds +:+ String c rest) = String.length ds.
Proof.
  intros Hds Hc. induction ds as [|d ds IH]; simpl.
  - by rewrite Hc.
  - simpl in Hds. apply andb_true_iff in Hds as [Hd Hds].
    by rewrite Hd, IH.
Qed.

Lemma hashes_length (k : nat) : String.length (hashes k) = k.
Proof. induction k; simpl; congruence. Qed.

Lemma take_hashes (s : string) :
  JS.take (span isHash s) s = hashes (span isHash s).
Proof.
  induction s as [|c s IH]; simpl; [done|].
  unfold isHash at 1 3. destruct (Ascii.eqb_spec c "#") as [->|]; simpl; [|done].
  by rewrite IH.
Qed.

Lemma nextIsWhiteSpace_inv (s : string) :
  nextIsWhiteSpace s = true -> exists c rest, s = String c rest /\ JS.isWhiteSpace c = true.
Proof. destruct s as [|c rest]; simpl; [done|]. intros H. by exists c, rest. Qed.

(** What the block alternative of [isMarkdown] accepts. *)
Lemma blockMarkerRegex_spec (text : string) :
  blockMarkerRegex text = true <-> startsWithMarker JS.isWhiteSpace text.
Proof.
  unfold blockMarkerRegex, startsWithMarker. split.
  - rewrite !orb_true_iff, !andb_true_iff.
    intros [[[[[Hh1 Hh6] Hws] | [Hdash Hws]] | [[Hd Hdot] Hws]] | [Hgt Hws]].
    + apply nextIsWhiteSpace_inv in Hws as [c [rest [Hrest Hc]]].
      exists (hashes (span isHash text)), c, rest. split; [|split; [done|]].
      * rewrite <- Hrest, <- take_hashes. apply span_take.
      * left. exists (span isHash text). split; [|done].
        apply Nat.leb_le in Hh1, Hh6. lia.
    + apply startsWith_spec in Hdash as [r ->]. string_append. simpl in Hws.
      apply nextIsWhiteSpace_inv in Hws as [c [rest [-> Hc]]].
      exists "-", c, rest. split; [done|]. split; [done|]. right. by left.
    + apply nextIsWhiteSpace_inv in Hws as [c [rest [Hrest Hc]]].
      apply startsWith_spec in Hdot as [r Hr].
      destruct (span_take JS.isDigit text) as [Htext Hdigits].
      exists (JS.take (span JS.isDigit text) text +:+ "."), c, rest.
      split; [|split; [done|]].
      * rewrite Htext at 1. rewrite Hr. rewrite append_assoc. do 2 f_equal.
        change ("." +:+ r) with (String "." r) in Hr.
        assert (JS.drop (S (span JS.isDigit text)) text = r) as Hr'.
        { clear -Hr. revert Hr. generalize (span JS.isDigit text) as n.
          induction text as [|a text IH]; intros [|n]; simpl; try done.
          - congruence.
          - apply IH. }
        congruence.
      * right. right. left. eexists. split; [|split; [exact Hdigits | done]].
        apply Nat.leb_le in Hd. intros Hnil.
        destruct text as [|a text]; simpl in *; [lia|].
        destruct (JS.isDigit a); simpl in *; [done | lia].
    + apply startsWith_spec in Hgt as [r ->]. string_append. simpl in Hws.
      apply nextIsWhiteSpace_inv in Hws as [c [rest [-> Hc]]].
      exists ">", c, rest. split; [done|]. split; [done|]. by repeat right.
  - intros [m [c [rest [-> [Hc Hm]]]]].
    assert (isHash c = false) as Hhash.
    { unfold isHash. destruct (Ascii.eqb_spec c "#") as [->|]; done. }
    assert (JS.isDigit c = false) as Hdigit.
    { destruct c as [[] [] [] [] [] [] [] []]; vm_compute in Hc |- *; done. }
    rewrite !orb_true_iff, !andb_true_iff.
    destruct Hm as [[k [Hk ->]] | [-> | [[ds [Hne [Hds ->]]] | ->]]].
    + do 3 left. rewrite span_hashes by done.
      replace (JS.drop k (hashes k +:+ String c rest)) with (String c rest).
      2:{ rewrite <- (hashes_length k) at 1. by rewrite drop_append. }
      rewrite !Nat.leb_le. split; [lia | exact Hc].
    + do 2 left. right. string_append. split; [done | exact Hc].
    + left. right. rewrite append_assoc. string_append.
      rewrite (span_forallb JS.isDigit ds "." _ Hds) by done.
      rewrite drop_append.
      replace (JS.drop (S (String.length ds)) (ds +:+ String "." (String c rest)))
        with (String c rest).
      2:{ clear. induction ds as [|d ds IH]; [done | exact IH]. }
      rewrite Nat.leb_le. split; [split|]; [|done | exact Hc].
      destruct ds as [|d ds]; [done | simpl; lia].
    + right. string_append. split; [done | exact Hc].
Qed.

Lemma taskMatch_trigger (text : string) :
  noTriggerChar text -> taskMatch text = None.
Proof.
  intros Hno. unfold taskMatch.
  repeat (case_match; try done). subst.
  unfold noTriggerChar in Hno. simpl in Hno.
  do 2 apply Forall_cons_1 in Hno as [_ Hno].
  apply Forall_cons_1 in Hno as [Hno _]. exfalso. apply Hno. simpl. tauto.
Qed.

Lemma codeBlockMatch_trigger (text : string) :
  noTriggerChar text -> codeBlockMatch text = None.
Proof.
  intros Hno. unfold codeBlockMatch.
  destruct (JS.startsWith fence text) eqn:E; [|done].
  apply startsWith_spec in E as [r ->].
  unfold noTriggerChar in Hno. simpl in Hno.
  apply Forall_cons_1 in Hno as [Hno _]. exfalso. apply Hno. simpl. tauto.
Qed.

End EnterFacts.

(** C4, amended.  Enter on a paragraph whose text holds none of the
    characters [* _ ~ ` ! [ ]] and does not start with a block marker (one to
    six [#], a dash, digits and a dot, or [>]) followed by a white-space
    character is left to the default handling: the handler runs no command, so
    the paragraph is neither retyped nor reparsed. *)
Theorem enterShortcut_fast_path (marked_parse : string -> string) (text : string) :
  noTriggerChar text ->
  ~ startsWithMarker JS.isWhiteSpace text ->
  enterShortcut marked_parse "paragraph" text = Unhandled.
Proof.
  intros Hno Hmarker. unfold enterShortcut. simpl.
  rewrite taskMatch_trigger, codeBlockMatch_trigger by done.
  destruct (JS.truthy (JS.trim text)); simpl; [|done].
  unfold isMarkdown. rewrite existsb_triggerChar by done. simpl.
  destruct (blockMarkerRegex text) eqn:E; [|done].
  by apply blockMarkerRegex_spec in E.
Qed.

Lemma in_append_char (m : string) (c : ascii) (rest : string) :
  In c (list_ascii_of_string (m +:+ String c rest)).
Proof.
  induction m as [|a m IH]; string_append; simpl; [by left | by right].
Qed.

Ltac no_trigger_char :=
  unfold noTriggerChar; simpl; repeat constructor;
  let H := fresh in intros H; simpl in H; intuition discriminate.

(** C4 as stated fails: the text "#", TAB, "Title" holds no trigger character
    and no block marker followed by a space, yet Enter does not fall through
    to the default handling: the line is deleted and its parse inserted. *)
Lemma enterShortcut_fast_path_counterexample :
  ~ (forall (marked_parse : string -> string) (text : string),
       text <> EmptyString ->
       noTriggerChar text ->
       ~ startsWithMarker isSpace text ->
       enterShortcut marked_parse "paragraph" text = Unhandled).
Proof.
  intros Hclaim.
  specialize (Hclaim (fun s => s) ("#" +:+ tab +:+ "Title")).
  assert (enterShortcut (fun s => s) "paragraph" ("#" +:+ tab +:+ "Title") = Unhandled)
    as Hrun; [|vm_compute in Hrun; discriminate Hrun].
  apply Hclaim.
  - discriminate.
  - no_trigger_char.
  - intros [m [c [rest [Heq [Hc _]]]]].
    pose proof (in_append_char m c rest) as Hin. rewrite <- Heq in Hin.
    unfold isSpace in Hc. apply Ascii.eqb_eq in Hc. subst c.
    vm_compute in Hin. intuition discriminate.
Qed.

Lemma enterShortcut_fast_path_witness :
  enterShortcut (fun s => s) "paragraph" "plain sentence" = Unhandled.
Proof.
  apply (enterShortcut_fast_path (fun s => s) "plain sentence").
  - no_trigger_char.
  - intros H. apply blockMarkerRegex_spec in H. vm_compute in H. discriminate H.
Defined.

(** ** Scanning with the regular expressions of the load passes *)

Section Scanning.

Context {R : Type} (matchAt : string -> option (R * string)) (render : R -> string).

Lemma lazyThen_unfold {T : Type} (ok : ascii -> bool) (stop : string)
    (k : string -> option T) (s : string) :
  JS.lazyThen ok stop k s =
    match (if JS.startsWith stop s then k (JS.drop (String.length stop) s) else None) with
    | Some r => Some (EmptyString, r)
    | None =>
        match s with
        | EmptyString => None
        | String c s' =>
            if ok c then
              match JS.lazyThen ok stop k s' with
              | Some (cap, r) => Some (String c cap, r)
              | None => None
              end
            else None
        end
    end.
Proof. by destruct s. Qed.

(** The lazy capture stops at the first [stop] when no character of the
    capture is the second character of [stop]. *)
Lemma lazyThen_found {T : Type} (ok : ascii -> bool) (c0 c1 : ascii) (stop' : string)
    (k : string -> option T) (cap rest : string) (r : T) :
  JS.forallb ok cap = true ->
  JS.forallb (fun c => negb (Ascii.eqb c c1)) cap = true ->
  c0 <> c1 ->
  k rest = Some r ->
  JS.lazyThen ok (String c0 (String c1 stop')) k
    (cap +:+ String c0 (String c1 stop') +:+ rest) = Some (cap, r).
Proof.
  intros Hok Hfree Hne Hk. induction cap as [|a cap IH].
  - rewrite append_nil_l, lazyThen_unfold.
    rewrite startsWith_append, drop_append, Hk. done.
  - simpl in Hok, Hfree.
    apply andb_true_iff in Hok as [Ha Hok].
    apply andb_true_iff in Hfree as [Hac Hfree].
    rewrite append_cons, lazyThen_unfold.
    assert (JS.startsWith (String c0 (String c1 stop'))
              (String a (cap +:+ String c0 (String c1 stop') +:+ rest)) = false) as ->.
    { simpl. destruct (Ascii.eqb c0 a); [|done].
      destruct cap as [|b cap]; string_append.
      - destruct (Ascii.eqb_spec c1 c0); [congruence | done].
      - simpl in Hfree. apply andb_true_iff in Hfree as [Hb _].
        rewrite Ascii.eqb_sym. by destruct (Ascii.eqb b c1). }
    by rewrite Ha, (IH Hok Hfree).
Qed.

Lemma replaceAll_unfold (skip : nat) (s : string) :
  JS.replaceAll matchAt render skip s =
    match s with
    | EmptyString => EmptyString
    | String c s' =>
        match skip with
        | S k => JS.replaceAll matchAt render k s'
        | O =>
            match matchAt s with
            | Some (r, rest) =>
                render r +:+ JS.replaceAll matchAt render (JS.consumed s rest - 1) s'
            | None => String c (JS.replaceAll matchAt render O s')
            end
        end
    end.
Proof. by destruct s. Qed.

Lemma replaceAll_skip (a b : string) :
  JS.replaceAll matchAt render (String.length a) (a +:+ b)
  = JS.replaceAll matchAt render O b.
Proof.
  induction a as [|c a IH]; [done|].
  rewrite append_cons. simpl. exact IH.
Qed.

(** A match at the start of the input is replaced and the scan resumes
    after it. *)
Lemma replaceAll_match (c : ascii) (matched rest : string) (r : R) :
  matchAt (String c matched +:+ rest) = Some (r, rest) ->
  JS.replaceAll matchAt render O (String c matched +:+ rest)
  = render r +:+ JS.replaceAll matchAt render O rest.
Proof.
  intros Hm. rewrite replaceAll_unfold. rewrite append_cons in *. rewrite Hm.
  f_equal. unfold JS.consumed. simpl String.length. rewrite length_append.
  replace (S (String.length matched + String.length rest) - String.length rest - 1)%nat
    with (String.length matched) by lia.
  apply replaceAll_skip.
Qed.

Lemma quiet_nil (b : string) : Quiet matchAt EmptyString b.
Proof. intros k Hk. simpl in Hk. lia. Qed.

Lemma quiet_cons (c : ascii) (a b : string) :
  matchAt (String c (a +:+ b)) = None -> Quiet matchAt a b ->
  Quiet matchAt (String c a) b.
Proof.
  intros Hc Ha [|k] Hk; rewrite append_cons; simpl; [done|].
  apply Ha. simpl in Hk. lia.
Qed.

Lemma drop_append_ge (k : nat) (a b : string) :
  (String.length a <= k)%nat -> JS.drop k (a +:+ b) = JS.drop (k - String.length a) b.
Proof.
  revert k; induction a as [|c a IH]; intros k Hk; simpl in Hk.
  - rewrite append_nil_l. f_equal. simpl. lia.
  - destruct k as [|k]; [lia|]. rewrite append_cons. simpl. apply IH. lia.
Qed.

Lemma quiet_app (a1 a2 b : string) :
  Quiet matchAt a1 (a2 +:+ b) -> Quiet matchAt a2 b ->
  Quiet matchAt (a1 +:+ a2) b.
Proof.
  intros H1 H2 k Hk. rewrite length_append in Hk. rewrite append_assoc.
  destruct (Nat.lt_ge_cases k (String.length a1)) as [Hlt|Hge].
  - by apply H1.
  - rewrite drop_append_ge by done. apply H2. lia.
Qed.

(** A run of characters none of which can start a match is quiet. *)
Lemma quiet_chars (f : ascii -> bool) (a b : string) :
  (forall c s, f c = true -> matchAt (String c s) = None) ->
  JS.forallb f a = true -> Quiet matchAt a b.
Proof.
  intros Hf. induction a as [|c a IH]; intros Ha; [apply quiet_nil|].
  simpl in Ha. apply andb_true_iff in Ha as [Hc Ha].
  apply quiet_cons; [by apply Hf | by apply IH].
Qed.

(** A quiet prefix is copied and the scan goes on after it. *)
Lemma replaceAll_quiet (a b : string) :
  Quiet matchAt a b ->
  JS.replaceAll matchAt render O (a +:+ b) = a +:+ JS.replaceAll matchAt render O b.
Proof.
  induction a as [|c a IH]; intros Hq; [done|].
  rewrite append_cons, replaceAll_unfold.
  pose proof (Hq O) as H0. simpl in H0. rewrite append_cons in H0.
  rewrite H0 by lia. rewrite append_cons. f_equal. apply IH.
  intros k Hk. specialize (Hq (S k)). rewrite append_cons in Hq. simpl in Hq.
  apply Hq. lia.
Qed.

End Scanning.

(** ** The load passes on a fenced code block *)

Section CodeFence.

Lemma forallb_impl (f g : ascii -> bool) (s : string) :
  (forall c, f c = true -> g c = true) ->
  JS.forallb f s = true -> JS.forallb g s = true.
Proof.
  intros Hfg. induction s as [|c s IH]; simpl; [done|].
  rewrite !andb_true_iff. intros [Hc Hs]. split; [by apply Hfg | by apply IH].
Qed.

Lemma forallb_anyChar (s : string) : JS.forallb JS.anyChar s = true.
Proof. induction s as [|c s IH]; simpl; done. Qed.

Lemma replaceAll_match_nonempty {R : Type} (matchAt : string -> option (R * string))
    (render : R -> string) (matched rest : string) (r : R) :
  matched <> EmptyString ->
  matchAt (matched +:+ rest) = Some (r, rest) ->
  JS.replaceAll matchAt render O (matched +:+ rest)
  = render r +:+ JS.replaceAll matchAt render O rest.
Proof.
  destruct matched as [|c matched]; [done|]. intros _. apply replaceAll_match.
Qed.

Lemma codeLangRegex_block (lang body rest : string) :
  JS.forallb langChar lang = true ->
  JS.forallb textChar body = true ->
  codeLangRegex (codeBlockHtml lang (body +:+ nl) +:+ rest) = Some ((lang, body), rest).
Proof.
  intros Hlang Hbody. unfold codeLangRegex, codeBlockHtml.
  rewrite !append_assoc, startsWith_append, drop_append.
  rewrite (lazyThen_found JS.notLineTerminator (ascii_of_nat 34) ">" EmptyString
             _ lang _ (body, rest)); [done| | |done|].
  - revert Hlang. apply forallb_impl. intros c. unfold langChar.
    rewrite !andb_true_iff. tauto.
  - revert Hlang. apply forallb_impl. intros c. unfold langChar.
    rewrite !andb_true_iff. tauto.
  - by apply (lazyThen_found JS.anyChar (ascii_of_nat 10) "<" "/code></pre>"
                Some body rest rest); [apply forallb_anyChar | | |].
Qed.

Lemma startsWith_other (a c : ascii) (p s : string) :
  negb (Ascii.eqb c a) = true -> JS.startsWith (String a p) (String c s) = false.
Proof.
  intros Hc. cbn -[Ascii.eqb]. rewrite Ascii.eqb_sym.
  by destruct (Ascii.eqb c a).
Qed.

Lemma plainChar_wikiLinkRegex (c : ascii) (s : string) :
  negb (Ascii.eqb c "[") = true -> wikiLinkRegex (String c s) = None.
Proof.
  intros Hc. unfold wikiLinkRegex.
  by rewrite (startsWith_other "[" c "[" s Hc).
Qed.

Lemma plainChar_codePlainRegex (c : ascii) (s : string) :
  negb (Ascii.eqb c "<") = true -> codePlainRegex (String c s) = None.
Proof.
  intros Hc. unfold codePlainRegex, codeOpen.
  by rewrite (startsWith_other "<" c "pre><code>" s Hc).
Qed.

Lemma forallb_append (f : ascii -> bool) (a b : string) :
  JS.forallb f (a +:+ b) = JS.forallb f a && JS.forallb f b.
Proof.
  induction a as [|c a IH]; [done|]. rewrite append_cons. simpl.
  by rewrite IH, andb_assoc.
Qed.

(** Text without two opening brackets in a row, followed by a character
    other than an opening bracket, holds no wiki link. *)
Lemma quiet_wikiLinkRegex_text (body : string) (c : ascii) (rest : string) :
  JS.includes "[[" body = false ->
  Ascii.eqb "[" c = false ->
  Quiet wikiLinkRegex body (String c rest).
Proof.
  intros Hbody Hc. induction body as [|x body IH]; [apply quiet_nil|].
  simpl in Hbody. apply orb_false_iff in Hbody as [Hx Hbody].
  apply quiet_cons; [|by apply IH].
  unfold wikiLinkRegex.
  assert (JS.startsWith "[[" (String x (body +:+ String c rest)) = false) as ->; [|done].
  destruct body as [|y body]; string_append.
  - cbn -[Ascii.eqb]. rewrite Hc. by destruct (Ascii.eqb "[" x).
  - exact Hx.
Qed.

Ltac quiet_literal :=
  repeat (apply quiet_cons; [reflexivity|]); apply quiet_nil.

Lemma langChar_no_bracket (lang : string) :
  JS.forallb langChar lang = true ->
  JS.forallb (fun c => negb (Ascii.eqb c "[")) lang = true.
Proof.
  apply forallb_impl. intros c. unfold langChar, plainChar.
  rewrite !andb_true_iff. tauto.
Qed.

Lemma langChar_textChar (lang : string) :
  JS.forallb langChar lang = true -> JS.forallb textChar lang = true.
Proof.
  apply forallb_impl. intros c. unfold langChar, plainChar, textChar.
  rewrite !andb_true_iff. tauto.
Qed.

Lemma quiet_wikiLinkRegex (lang body rest : string) :
  JS.forallb langChar lang = true ->
  JS.includes "[[" body = false ->
  Quiet wikiLinkRegex (codeBlockHtml lang (body +:+ nl)) rest.
Proof.
  intros Hlang Hbody. unfold codeBlockHtml. rewrite (append_assoc body nl).
  apply (quiet_app _ codeOpenLang); [vm_compute codeOpenLang; quiet_literal|].
  apply (quiet_app _ lang).
  { apply (quiet_chars _ _ _ _ plainChar_wikiLinkRegex). by apply langChar_no_bracket. }
  apply (quiet_app _ codeOpenLangEnd); [vm_compute codeOpenLangEnd; quiet_literal|].
  apply (quiet_app _ body).
  { rewrite append_assoc. by apply quiet_wikiLinkRegex_text. }
  vm_compute (nl +:+ codeClose). quiet_literal.
Qed.

Lemma quiet_codePlainRegex (lang body rest : string) :
  JS.forallb langChar lang = true ->
  JS.forallb textChar body = true ->
  Quiet codePlainRegex (codeBlockHtml lang body) rest.
Proof.
  intros Hlang Hbody. unfold codeBlockHtml.
  apply (quiet_app _ codeOpenLang); [vm_compute codeOpenLang; quiet_literal|].
  apply (quiet_app _ lang).
  { apply (quiet_chars _ _ _ _ plainChar_codePlainRegex). by apply langChar_textChar. }
  apply (quiet_app _ codeOpenLangEnd); [vm_compute codeOpenLangEnd; quiet_literal|].
  apply (quiet_app _ body).
  { by apply (quiet_chars _ _ _ _ plainChar_codePlainRegex). }
  vm_compute codeClose. quiet_literal.
Qed.

(** The newline that ends the content of a tagged code block is removed,
    and nothing else of the block changes; the passes go on with the HTML
    that follows.  The content is text that opens no tag and holds no two
    opening brackets in a row. *)
Lemma loadPasses_codeBlock (lang body rest : string) :
  JS.forallb langChar lang = true ->
  JS.forallb textChar body = true ->
  JS.includes "[[" body = false ->
  loadPasses (codeBlockHtml lang (body +:+ nl) +:+ rest)
  = codeBlockHtml lang body +:+ loadPasses rest.
Proof.
  intros Hlang Hbody Hwiki. unfold loadPasses, codeFencePass, wikiLinkPass.
  rewrite replaceAll_quiet by by apply quiet_wikiLinkRegex.
  rewrite (replaceAll_match_nonempty codeLangRegex _ _ _ (lang, body)).
  - cbn [fst snd]. fold (codeBlockHtml lang body).
    rewrite replaceAll_quiet by by apply quiet_codePlainRegex. done.
  - unfold codeBlockHtml. vm_compute codeOpenLang. discriminate.
  - by apply codeLangRegex_block.
Qed.

Lemma codePlainRegex_block (body rest : string) :
  JS.forallb textChar body = true ->
  codePlainRegex ((codeOpen +:+ body +:+ nl +:+ codeClose) +:+ rest) = Some (body, rest).
Proof.
  intros Hbody. unfold codePlainRegex.
  rewrite !append_assoc, startsWith_append, drop_append.
  by apply (lazyThen_found JS.anyChar (ascii_of_nat 10) "<" "/code></pre>"
              Some body rest rest); [apply forallb_anyChar | | |].
Qed.

Lemma plainChar_codeLangRegex (c : ascii) (s : string) :
  negb (Ascii.eqb c "<") = true -> codeLangRegex (String c s) = None.
Proof.
  intros Hc. unfold codeLangRegex.
  change codeOpenLang with (String "<" (JS.drop 1 codeOpenLang)).
  by rewrite (startsWith_other "<" c _ s Hc).
Qed.

Lemma quiet_codeLangRegex (body rest : string) :
  JS.forallb textChar body = true ->
  Quiet codeLangRegex (codeOpen +:+ body +:+ nl +:+ codeClose) rest.
Proof.
  intros Hbody.
  apply (quiet_app _ codeOpen); [vm_compute codeOpen; quiet_literal|].
  apply (quiet_app _ body).
  { by apply (quiet_chars _ _ _ _ plainChar_codeLangRegex). }
  vm_compute (nl +:+ codeClose). quiet_literal.
Qed.

(** The same for a code block without a language tag. *)
Lemma loadPasses_codeBlock_plain (body rest : string) :
  JS.forallb textChar body = true ->
  JS.includes "[[" body = false ->
  loadPasses ((codeOpen +:+ body +:+ nl +:+ codeClose) +:+ rest)
  = (codeOpen +:+ body +:+ codeClose) +:+ loadPasses rest.
Proof.
  intros Hbody Hwiki. unfold loadPasses, codeFencePass, wikiLinkPass.
  rewrite replaceAll_quiet.
  2:{ apply (quiet_app _ codeOpen); [vm_compute codeOpen; quiet_literal|].
      apply (quiet_app _ body).
      { rewrite append_assoc. by apply quiet_wikiLinkRegex_text. }
      vm_compute (nl +:+ codeClose). quiet_literal. }
  rewrite replaceAll_quiet by by apply quiet_codeLangRegex.
  rewrite (replaceAll_match_nonempty codePlainRegex _ _ _ body).
  - done.
  - vm_compute codeOpen. discriminate.
  - by apply codePlainRegex_block.
Qed.

End CodeFence.

(** ** Wiki links *)

Section WikiLinks.

Lemma replaceFirst_prefix (p t : string) :
  JS.replaceFirst p EmptyString (p +:+ t) = t.
Proof.
  destruct p as [|a p]; [by destruct t|].
  rewrite append_cons. simpl.
  rewrite Ascii.eqb_refl.
  change (JS.startsWith p (p +:+ t)) with (JS.startsWith p (p +:+ t)).
  rewrite startsWith_append. rewrite append_nil_l.
  apply (drop_append p t).
Qed.

(** The markdown the [wikiLinks] rule writes for the entity created from
    the captured text [inner]. *)
Lemma wikiLinks_entity (inner content : string) (e : WikiLinkEntity) :
  wikiLinkHandler inner = Some e ->
  filter wikiLinks (renderHTML e) = true
  /\ replacement wikiLinks content (renderHTML e) = "[[" +:+ inner +:+ "]]".
Proof.
  unfold wikiLinkHandler. destruct (JS.truthy inner); [|done].
  intros [= <-]. split.
  - reflexivity.
  - unfold wikiLinks. cbn [replacement].
    change (getAttribute (renderHTML (mkWikiLinkEntity inner (Some ("wiki:" +:+ inner))))
              "href") with (Some ("wiki:" +:+ inner)).
    change (JS.truthyOpt (Some ("wiki:" +:+ inner))) with (Some ("wiki:" +:+ inner)).
    cbv beta iota zeta.
    by rewrite (replaceFirst_prefix "wiki:" inner).
Qed.

Lemma lazyThen_found_first {T : Type} (ok : ascii -> bool) (c0 : ascii) (stop' : string)
    (k : string -> option T) (cap rest : string) (r : T) :
  JS.forallb ok cap = true ->
  JS.forallb (fun c => negb (Ascii.eqb c c0)) cap = true ->
  k rest = Some r ->
  JS.lazyThen ok (String c0 stop') k (cap +:+ String c0 stop' +:+ rest) = Some (cap, r).
Proof.
  intros Hok Hfree Hk. induction cap as [|a cap IH].
  - rewrite append_nil_l, lazyThen_unfold.
    rewrite startsWith_append, drop_append, Hk. done.
  - simpl in Hok, Hfree.
    apply andb_true_iff in Hok as [Ha Hok].
    apply andb_true_iff in Hfree as [Hac Hfree].
    rewrite append_cons, lazyThen_unfold.
    rewrite (startsWith_other c0 a stop' _ Hac).
    by rewrite Ha, (IH Hok Hfree).
Qed.

(** The wiki-link pass on a token: the text before it holds no bracket, the
    token no closing bracket and no line break. *)
Lemma wikiLinkPass_token (pre inner post : string) :
  JS.forallb (fun c => negb (Ascii.eqb c "[")) pre = true ->
  JS.forallb JS.notLineTerminator inner = true ->
  JS.forallb (fun c => negb (Ascii.eqb c "]")) inner = true ->
  wikiLinkPass (pre +:+ "[[" +:+ inner +:+ "]]" +:+ post)
  = pre +:+ wikiAnchor inner +:+ wikiLinkPass post.
Proof.
  intros Hpre Hline Hinner. unfold wikiLinkPass.
  rewrite replaceAll_quiet.
  2:{ apply (quiet_chars _ _ _ _ plainChar_wikiLinkRegex Hpre). }
  f_equal.
  rewrite <- (append_assoc "[[" inner), <- (append_assoc ("[[" +:+ inner) "]]").
  apply replaceAll_match_nonempty; [done|].
  rewrite !append_assoc. unfold wikiLinkRegex.
  rewrite startsWith_append.
  change (JS.drop 2 ("[[" +:+ inner +:+ "]]" +:+ post)) with (inner +:+ "]]" +:+ post).
  by apply (lazyThen_found_first JS.notLineTerminator "]" "]" Some inner post post).
Qed.

End WikiLinks.

(** ** Task lines *)

(** Enter on a paragraph that holds a task line: the line is deleted, the
    block is turned into a task list, the rest of the line is inserted when
    there is any, the item is checked exactly for the flags x and X, and the
    Enter command moves to a new line. *)
Lemma enterShortcut_task (marked_parse : string -> string)
    (w1 flag w2 : ascii) (rest : string) :
  JS.isWhiteSpace w1 = true -> JS.isWhiteSpace w2 = true ->
  In flag [" "; "x"; "X"]%char ->
  JS.forallb JS.notLineTerminator rest = true ->
  enterShortcut marked_parse "paragraph"
    (String "-" (String w1 (String "[" (String flag (String "]" (String w2 rest))))))
  = Handled
      ([focus; deleteLine; toggleTaskList]
       :: (if JS.truthy rest then [[insertContent rest]] else [])
       ++ (if Ascii.eqb flag "x" || Ascii.eqb flag "X"
           then [[updateAttributes "taskItem" true]] else [])
       ++ [[enter]]).
Proof.
  intros Hw1 Hw2 Hflag Hrest. unfold enterShortcut.
  change (String.eqb "paragraph" "codeBlock") with false.
  change (String.eqb "paragraph" "paragraph") with true.
  cbv beta iota. change (negb true) with false. cbv iota.
  unfold taskMatch. rewrite Hw1, Hw2, Hrest.
  destruct Hflag as [<- | [<- | [<- | []]]]; reflexivity.
Qed.

(** C3 at the line "- [x] Buy milk".  Enter on a paragraph that holds the
    line builds a checked task item with the content "Buy milk"; the load
    passes leave the list markup of [marked.parse] for the same line as it is,
    a list item with an HTML checkbox. *)
Theorem taskLine_enter_and_load (marked_parse : string -> string) :
  enterShortcut marked_parse "paragraph" taskExample
  = Handled [[focus; deleteLine; toggleTaskList]; [insertContent "Buy milk"];
             [updateAttributes "taskItem" true]; [enter]]
  /\ loadPasses taskMarkedHtml = taskMarkedHtml.
Proof. split; vm_compute; reflexivity. Qed.

(** * Properties of the further functions *)

(** ** Graph extraction *)

Lemma noteTitleToIdMap_snoc (notes : list Note) (n : Note) :
  noteTitleToIdMap (notes ++ [n])
  = <[JS.toLowerCase (note_title n) := note_id n]> (noteTitleToIdMap notes).
Proof. unfold noteTitleToIdMap. by rewrite foldl_app. Qed.

Lemma noteTitleToIdMap_lookup (notes : list Note) (k : string) :
  noteTitleToIdMap notes !! k = note_id <$> lastWithTitle notes k.
Proof.
  unfold lastWithTitle.
  induction notes as [|n notes IH] using rev_ind; [done|].
  rewrite noteTitleToIdMap_snoc, rev_app_distr. simpl.
  destruct (String.eqb_spec (JS.toLowerCase (note_title n)) k) as [->|Hne].
  - by rewrite lookup_insert_eq.
  - by rewrite lookup_insert_ne.
Qed.

(** X1.  The title map built by [generateGraphData] sends a lower-cased title
    to the id of the last note of the corpus that carries it, and holds
    nothing for a title that no note carries. *)
Theorem noteTitleToIdMap_last (notes : list Note) (k t : string) :
  noteTitleToIdMap notes !! k = Some t <->
  exists pre n post,
    notes = pre ++ n :: post
    /\ JS.toLowerCase (note_title n) = k /\ note_id n = t
    /\ Forall (fun m => JS.toLowerCase (note_title m) <> k) post.
Proof.
  revert t. induction notes as [|x notes IH] using rev_ind; intros t.
  - split; [done|]. intros (pre & n & post & H & _). by destruct pre.
  - rewrite noteTitleToIdMap_snoc.
    destruct (decide (JS.toLowerCase (note_title x) = k)) as [Hx|Hx].
    + rewrite Hx, lookup_insert_eq. split.
      * intros [= <-]. exists notes, x, []. repeat split; [done|constructor].
      * intros (pre & n & post & H & Hk & Ht & Hpost).
        destruct post as [|y post _] using rev_ind.
        -- apply app_inj_tail in H as [_ <-]. by rewrite Ht.
        -- rewrite app_comm_cons, app_assoc in H. apply app_inj_tail in H as [_ <-].
           apply Forall_app in Hpost as [_ Hy]. by inversion Hy.
    + rewrite lookup_insert_ne by done. rewrite IH. split.
      * intros (pre & n & post & -> & Hk & Ht & Hpost).
        exists pre, n, (post ++ [x]). repeat split; [by rewrite <- app_assoc|done..|].
        apply Forall_app. split; [done|]. by constructor.
      * intros (pre & n & post & H & Hk & Ht & Hpost).
        destruct post as [|y post _] using rev_ind.
        -- apply app_inj_tail in H as [_ <-]. done.
        -- rewrite app_comm_cons, app_assoc in H. apply app_inj_tail in H as [-> <-].
           apply Forall_app in Hpost as [Hpost _]. by exists pre, n, post.
Qed.

Lemma lastWithTitle_In (notes : list Note) (k : string) (m : Note) :
  lastWithTitle notes k = Some m ->
  In m notes /\ JS.toLowerCase (note_title m) = k.
Proof.
  unfold lastWithTitle. intros H. apply find_some in H as [Hin Heq].
  split; [by apply in_rev | by apply String.eqb_eq].
Qed.

Lemma linksOfNote_spec (notes : list Note) (n : Note) (l : GraphLink) :
  In l (linksOfNote (noteTitleToIdMap notes) n) <->
  exists capture m,
    In capture (JS.execAll wikiLinkRegex O (note_content n))
    /\ lastWithTitle notes (targetTitle capture) = Some m
    /\ note_id m <> note_id n
    /\ l = mkGraphLink (note_id n) (note_id m) 1.
Proof.
  unfold linksOfNote. rewrite <- list_elem_of_In, list_elem_of_omap. split.
  - intros [capture [Hc H]]. rewrite noteTitleToIdMap_lookup in H.
    destruct (lastWithTitle notes (targetTitle capture)) as [m|] eqn:E; [|done].
    simpl in H. destruct (decide (note_id m = note_id n)); [done|].
    exists capture, m. rewrite <- list_elem_of_In. by simplify_eq.
  - intros [capture [m [Hc [Hm [Hne ->]]]]]. exists capture.
    rewrite list_elem_of_In. split; [done|].
    rewrite noteTitleToIdMap_lookup, Hm. simpl.
    by destruct (decide (note_id m = note_id n)).
Qed.

Lemma links_of_generateGraphData (notes : list Note) (folders : list Folder)
    (s t : string) :
  In (s, t) (map endpoints (links (generateGraphData notes folders))) <->
  exists n capture m,
    In n notes /\ note_id n = s
    /\ In capture (JS.execAll wikiLinkRegex O (note_content n))
    /\ lastWithTitle notes (targetTitle capture) = Some m
    /\ note_id m = t /\ t <> s.
Proof.
  unfold generateGraphData. cbn [links]. rewrite uniqueLinks_keepFirst. split.
  - intros H. apply in_map_iff in H as [l [Hl Hin]].
    apply keepFirst_fresh in Hin as [Hin _].
    apply in_concat in Hin as [ls [Hls Hin]].
    apply in_map_iff in Hls as [n [<- Hn]].
    apply linksOfNote_spec in Hin as [capture [m [Hc [Hm [Hne ->]]]]].
    unfold endpoints in Hl. simpl in Hl. injection Hl as <- <-.
    by exists n, capture, m.
  - intros [n [capture [m [Hn [<- [Hc [Hm [<- Hne]]]]]]]].
    set (l := mkGraphLink (note_id n) (note_id m) 1).
    destruct (keepFirst_complete []
                (concat (map (linksOfNote (noteTitleToIdMap notes)) notes)) l)
      as [[] | Hkept]; [|exact Hkept].
    apply in_concat. exists (linksOfNote (noteTitleToIdMap notes) n).
    split; [by apply in_map|]. apply linksOfNote_spec. by exists capture, m.
Qed.

(** X2.  The graph has a link from [s] to [t] exactly when some note with id
    [s] holds a wiki link whose target (the text before the first bar,
    trimmed and lower-cased) is the lower-cased title of a note, the last
    note with that title has id [t], and [t] differs from [s]. *)
Theorem generateGraphData_edges (notes : list Note) (folders : list Folder)
    (s t : string) :
  In (s, t) (map endpoints (links (generateGraphData notes folders))) <->
  exists n capture m,
    In n notes /\ note_id n = s
    /\ In capture (JS.execAll wikiLinkRegex O (note_content n))
    /\ lastWithTitle notes (targetTitle capture) = Some m
    /\ note_id m = t /\ t <> s.
Proof. apply links_of_generateGraphData. Qed.

Lemma folderToGroupMap_ge (folders : list Folder) (f : string) (gr : Z) :
  folderToGroupMap folders !! f = Some gr -> 2 <= gr.
Proof.
  unfold folderToGroupMap.
  generalize (imap (fun index folder => (index, folder)) folders). intros l.
  assert (forall k v, (∅ : gmap string Z) !! k = Some v -> 2 <= v) as Hinv
    by (intros k v; by rewrite lookup_empty).
  revert Hinv. generalize (∅ : gmap string Z). revert f gr.
  induction l as [|[i fo] l IH]; intros f gr m Hinv; simpl.
  - apply Hinv.
  - apply IH. intros k v. rewrite lookup_insert.
    case_decide; [intros [= <-]; lia | apply Hinv].
Qed.

(** X3.  The graph has one node for every note, in corpus order, with the
    note's id and title and a group that is at least 1, and both ends of
    every link are ids of nodes of the same graph. *)
Theorem generateGraphData_well_formed (notes : list Note) (folders : list Folder) :
  let g := generateGraphData notes folders in
  map node_id (nodes g) = map note_id notes
  /\ map node_title (nodes g) = map note_title notes
  /\ Forall (fun nd => 1 <= group nd) (nodes g)
  /\ Forall (fun l => In (source l) (map node_id (nodes g))
                      /\ In (target l) (map node_id (nodes g))) (links g).
Proof.
  intros g.
  assert (map node_id (nodes g) = map note_id notes) as Hids.
  { unfold g, generateGraphData. cbn [nodes]. rewrite map_map. done. }
  split; [exact Hids|]. split; [|split].
  - unfold g, generateGraphData. cbn [nodes]. rewrite map_map. done.
  - unfold g, generateGraphData. cbn [nodes]. apply List.Forall_forall.
    intros nd Hnd. apply in_map_iff in Hnd as [n [<- _]].
    unfold nodeOfNote. cbn [group].
    destruct (JS.truthyOpt (note_folderId n)) as [f|]; [|lia].
    destruct (folderToGroupMap folders !! f) as [gr|] eqn:E; [|lia].
    apply folderToGroupMap_ge in E. destruct (Z.eqb_spec gr 0); lia.
  - rewrite Hids. apply List.Forall_forall. intros l Hl.
    assert (In (endpoints l) (map endpoints (links g))) as He by by apply in_map.
    destruct l as [s t v]. change (endpoints (mkGraphLink s t v)) with (s, t) in He.
    apply (links_of_generateGraphData notes folders) in He
      as [n [capture [m [Hn [<- [_ [Hm [<- _]]]]]]]].
    apply lastWithTitle_In in Hm as [Hm _].
    cbn [source target]. split; by apply in_map.
Qed.

Lemma folderToGroupMap_snoc (folders : list Folder) (x : Folder) :
  folderToGroupMap (folders ++ [x])
  = <[folder_id x := Z.of_nat (length folders) + 2]> (folderToGroupMap folders).
Proof.
  unfold folderToGroupMap. rewrite imap_app, foldl_app. simpl.
  by rewrite Nat.add_0_r.
Qed.

(** A folder id is mapped to the group of its last occurrence in the folder
    list, counted from 2. *)
Lemma folderToGroupMap_lookup (folders : list Folder) (f : string) (gr : Z) :
  folderToGroupMap folders !! f = Some gr <->
  exists i fo, folders !! i = Some fo /\ folder_id fo = f /\ gr = Z.of_nat i + 2
               /\ forall j fo', (i < j)%nat -> folders !! j = Some fo' ->
                                folder_id fo' <> f.
Proof.
  revert gr. induction folders as [|x folders IH] using rev_ind; intros gr.
  - split; [done|]. by intros [i [fo [H _]]].
  - rewrite folderToGroupMap_snoc.
    destruct (decide (folder_id x = f)) as [<-|Hne].
    + rewrite lookup_insert_eq. split.
      * intros [= <-]. exists (length folders), x. repeat split.
        -- by rewrite lookup_app_r, Nat.sub_diag by lia.
        -- intros j fo' Hlt Hj. apply lookup_lt_Some in Hj.
           rewrite length_app in Hj. simpl in Hj. lia.
      * intros [i [fo [Hi [Hid [-> Hlast]]]]].
        destruct (decide (i = length folders)) as [->|Hi']; [done|].
        apply lookup_lt_Some in Hi as Hlt. rewrite length_app in Hlt. simpl in Hlt.
        exfalso. apply (Hlast (length folders) x); [lia| |done].
        by rewrite lookup_app_r, Nat.sub_diag by lia.
    + rewrite lookup_insert_ne by done. rewrite IH. split.
      * intros [i [fo [Hi [Hid [-> Hlast]]]]]. exists i, fo.
        apply lookup_lt_Some in Hi as Hlt.
        repeat split; [by rewrite lookup_app_l | done |].
        intros j fo' Hj Hfo'.
        destruct (decide (j < length folders)%nat) as [Hlt'|Hge].
        -- rewrite lookup_app_l in Hfo' by done. by eapply Hlast.
        -- rewrite lookup_app_r in Hfo' by lia.
           destruct (j - length folders)%nat; [|done].
           by inversion Hfo'; subst.
      * intros [i [fo [Hi [Hid [-> Hlast]]]]].
        apply lookup_lt_Some in Hi as Hlt. rewrite length_app in Hlt. simpl in Hlt.
        destruct (decide (i = length folders)) as [->|Hi'].
        -- rewrite lookup_app_r, Nat.sub_diag in Hi by lia.
           inversion Hi; subst. done.
        -- rewrite lookup_app_l in Hi by lia. exists i, fo.
           repeat split; [done..|]. intros j fo' Hj Hfo'.
           apply (Hlast j fo' Hj). apply lookup_lt_Some in Hfo' as Hlt'.
           by rewrite lookup_app_l.
Qed.

(** X4.  The nodes follow the notes in order.  A note without folder, or
    whose folder id no folder carries, is in group 1; a note of the folder at
    index [i] of the folder list (the last such index if the id occurs more
    than once) is in group [i + 2]. *)
Theorem generateGraphData_groups (notes : list Note) (folders : list Folder) :
  Forall2 (fun n node =>
             node_id node = note_id n /\
             match JS.truthyOpt (note_folderId n) with
             | None => group node = 1
             | Some f =>
                 (~ In f (map folder_id folders) /\ group node = 1)
                 \/ exists i fo,
                      folders !! i = Some fo /\ folder_id fo = f
                      /\ group node = Z.of_nat i + 2
                      /\ forall j fo', (i < j)%nat -> folders !! j = Some fo' ->
                                       folder_id fo' <> f
             end)
          notes (nodes (generateGraphData notes folders)).
Proof.
  unfold generateGraphData. simpl. apply Forall2_fmap_r, Forall_Forall2_diag.
  apply Forall_forall. intros n _. split; [done|]. unfold nodeOfNote. simpl.
  destruct (JS.truthyOpt (note_folderId n)) as [f|]; [|done].
  destruct (folderToGroupMap folders !! f) as [gr|] eqn:E.
  - right. apply folderToGroupMap_lookup in E as [i [fo [Hi [Hid [-> Hlast]]]]].
    exists i, fo. repeat split; [done..| |done].
    destruct (Z.eqb_spec (Z.of_nat i + 2) 0); [lia|done].
  - left. split; [|done]. intros Hin.
    apply in_map_iff in Hin as [fo [Hid Hfo]].
    assert (exists i, (i < length folders)%nat /\
              (exists fo, folders !! i = Some fo /\ folder_id fo = f)) as Hex.
    { apply list_elem_of_In, list_elem_of_lookup in Hfo as [i Hi].
      exists i. split; [by eapply lookup_lt_Some | by exists fo]. }
    clear fo Hid Hfo.
    assert (exists gr, folderToGroupMap folders !! f = Some gr) as [gr Hgr];
      [|by rewrite Hgr in E].
    clear E. induction folders as [|x folders IH] using rev_ind.
    { destruct Hex as [i [Hi _]]. simpl in Hi. lia. }
    rewrite folderToGroupMap_snoc.
    destruct (decide (folder_id x = f)) as [<-|Hne].
    + rewrite lookup_insert_eq. by eexists.
    + rewrite lookup_insert_ne by done. apply IH.
      destruct Hex as [i [Hi [fo [Hfo Hid]]]].
      rewrite length_app in Hi. simpl in Hi.
      destruct (decide (i = length folders)) as [->|Hi'].
      * rewrite lookup_app_r, Nat.sub_diag in Hfo by lia.
        inversion Hfo; subst. done.
      * rewrite lookup_app_l in Hfo by lia. exists i. split; [lia|]. by exists fo.
Qed.

(** ** Breadcrumbs *)

Section Breadcrumbs.

Variable folders : list Folder.

Lemma parentOf_findFolder (c : string) :
  parentOf folders c = match findFolder folders c with
                       | Some f => parentId f
                       | None => None
                       end.
Proof. reflexivity. Qed.

Lemma findFolder_Some (c : string) (f : Folder) :
  findFolder folders c = Some f -> In f folders /\ folder_id f = c.
Proof.
  intros E. apply find_some in E as [Hin Heq].
  by apply String.eqb_eq in Heq.
Qed.

Lemma folderChainFrom_parentChain (current : option string) (chain : list Folder) :
  folderChainFrom folders current chain ->
  parentChain folders (map folder_id chain)
  /\ Forall (fun f => In f folders) chain
  /\ head (map folder_id chain)
     = match chain with [] => None | _ => JS.truthyOpt current end.
Proof.
  induction 1 as [current Hc | current c Hc Hf | current c f l Hc Hf Hl IH].
  - repeat split; constructor.
  - repeat split; constructor.
  - destruct IH as [Hchain [Hall Hhead]].
    apply findFolder_Some in Hf as Hf'. destruct Hf' as [Hin Hid].
    repeat split.
    + destruct l as [|g l]; simpl; [constructor|].
      constructor; [|done]. unfold isParent.
      rewrite parentOf_findFolder, Hid, Hf.
      simpl in Hhead. by rewrite <- Hhead.
    + by constructor.
    + simpl. by rewrite Hid, Hc.
Qed.

Lemma folderChainFrom_length (current : option string) (chain : list Folder) :
  cycleFree folders ->
  folderChainFrom folders current chain ->
  (length chain <= length folders)%nat.
Proof.
  intros Hfree Hchain.
  apply folderChainFrom_parentChain in Hchain as [Hpc [Hall _]].
  pose proof (parentChain_NoDup _ _ Hfree Hpc) as Hnodup.
  rewrite <- (length_map folder_id chain), <- (length_map folder_id folders).
  apply submseteq_length, NoDup_submseteq; [done|]. intros a Ha.
  apply list_elem_of_In. apply list_elem_of_In in Ha.
  apply in_map_iff in Ha as [f [<- Hf]]. apply in_map.
  by eapply List.Forall_forall in Hall.
Qed.

Lemma breadcrumbsLoop_step (n : nat) (current : option string) (path : list string) :
  breadcrumbsLoop (S n) folders current path =
    match JS.truthyOpt current with
    | None => Some path
    | Some c =>
        match findFolder folders c with
        | Some folder =>
            breadcrumbsLoop n folders (parentId folder) (folder_name folder :: path)
        | None => Some path
        end
    end.
Proof. reflexivity. Qed.

(** When the fuel runs out, the loop has walked a parent chain as long as the
    fuel allowed. *)
Lemma breadcrumbsLoop_None (n : nat) :
  forall current path,
    breadcrumbsLoop (S n) folders current path = None ->
    exists l, length l = n /\ parentChain folders l
              /\ Forall (fun a => In a (map folder_id folders)) l
              /\ (n <> O -> head l = JS.truthyOpt current).
Proof.
  induction n as [|n IH]; intros current path Hloop.
  - exists []. repeat split; [constructor | constructor | done].
  - rewrite breadcrumbsLoop_step in Hloop.
    destruct (JS.truthyOpt current) as [c|] eqn:Ec; [|done].
    destruct (findFolder folders c) as [f|] eqn:Ef; [|done].
    apply findFolder_Some in Ef as Hf. destruct Hf as [Hin Hid].
    destruct (IH _ _ Hloop) as [l [Hlen [Hchain [Hdom Hhead]]]].
    exists (c :: l). repeat split.
    + simpl. by rewrite Hlen.
    + destruct l as [|y l]; [constructor|].
      constructor; [|done]. unfold isParent.
      rewrite parentOf_findFolder, Ef, <- Hhead; [done|]. simpl in Hlen. lia.
    + constructor; [|done]. rewrite <- Hid. by apply in_map.
Qed.

Lemma breadcrumbsLoop_Some (n : nat) :
  forall current path r,
    breadcrumbsLoop n folders current path = Some r ->
    exists chain, r = map folder_name (rev chain) ++ path
                  /\ folderChainFrom folders current chain.
Proof.
  induction n as [|n IH]; intros current path r Hloop; [done|].
  rewrite breadcrumbsLoop_step in Hloop.
  destruct (JS.truthyOpt current) as [c|] eqn:Ec.
  - destruct (findFolder folders c) as [f|] eqn:Ef.
    + destruct (IH _ _ _ Hloop) as [chain [-> Hchain]].
      exists (f :: chain). split.
      * simpl. by rewrite map_app, <- app_assoc.
      * by eapply folderChainFrom_step.
    + inversion Hloop; subst. exists []. split; [done|].
      by eapply folderChainFrom_missing.
  - inversion Hloop; subst. exists []. split; [done|]. by constructor.
Qed.

Lemma breadcrumbsLoop_exits (current : option string) (path : list string) :
  cycleFree folders ->
  breadcrumbsLoop (length folders + 2) folders current path <> None.
Proof.
  intros Hfree Hloop.
  replace (length folders + 2)%nat with (S (S (length folders))) in Hloop by lia.
  apply breadcrumbsLoop_None in Hloop as [l [Hlen [Hchain [Hdom _]]]].
  pose proof (parentChain_NoDup _ _ Hfree Hchain) as Hnodup.
  assert (length l <= length (map folder_id folders))%nat as Hle.
  { apply submseteq_length, NoDup_submseteq; [done|]. intros a Ha.
    apply list_elem_of_In. apply list_elem_of_In in Ha.
    by eapply List.Forall_forall in Hdom. }
  rewrite length_map in Hle. lia.
Qed.

End Breadcrumbs.

(** X5.  In a folder state without cycles [getBreadcrumbs] returns: the path
    lists the names of the folders met when walking up from the folder of the
    note, outermost first, has at most one entry per folder, and is empty
    for an id that no note carries. *)
Theorem getBreadcrumbs_path (notes : list Note) (folders : list Folder) (noteId : string) :
  cycleFree folders ->
  exists chain,
    getBreadcrumbs notes folders noteId = Some (map folder_name (rev chain))
    /\ (length chain <= length folders)%nat
    /\ Forall (fun f => In f folders) chain
    /\ match List.find (fun n => String.eqb (note_id n) noteId) notes with
       | Some note => folderChainFrom folders (note_folderId note) chain
       | None => chain = []
       end.
Proof.
  intros Hfree. unfold getBreadcrumbs.
  destruct (List.find _ notes) as [note|].
  - destruct (breadcrumbsLoop _ folders (note_folderId note) []) as [r|] eqn:E.
    + apply breadcrumbsLoop_Some in E as [chain [-> Hchain]].
      exists chain. rewrite app_nil_r. repeat split; [|by eapply folderChainFrom_parentChain|done].
      by eapply folderChainFrom_length.
    + by apply breadcrumbsLoop_exits in E.
  - exists []. repeat split; [simpl; lia | constructor].
Qed.

Lemma getBreadcrumbs_path_witness :
  exists chain,
    getBreadcrumbs [mkNote "n" "Plan" EmptyString (Some "x")] folderTree "n"
      = Some (map folder_name (rev chain))
    /\ (length chain <= length folderTree)%nat
    /\ Forall (fun f => In f folderTree) chain
    /\ match List.find (fun n => String.eqb (note_id n) "n")
               [mkNote "n" "Plan" EmptyString (Some "x")] with
       | Some note => folderChainFrom folderTree (note_folderId note) chain
       | None => chain = []
       end.
Proof.
  apply (getBreadcrumbs_path [mkNote "n" "Plan" EmptyString (Some "x")] folderTree "n").
  apply cycleFreeb_sound. vm_compute. reflexivity.
Defined.

Example getBreadcrumbs_example :
  getBreadcrumbs [mkNote "n" "Plan" EmptyString (Some "x")] folderTree "n"
  = Some ["Work"; "Projects"; "Alpha"].
Proof. vm_compute. reflexivity. Qed.

(** ** Deleting a folder *)

Section DeleteFolder.

Variable id : string.

Lemma strictEq_spec (o : option string) (s : string) :
  strictEq o s = true <-> o = Some s.
Proof.
  destruct o as [x|]; simpl; [|done].
  rewrite String.eqb_eq. split; [by intros -> | by intros [= ->]].
Qed.

Lemma folder_id_clearParentId (f : Folder) :
  folder_id (clearParentId id f) = folder_id f.
Proof. unfold clearParentId. by destruct (strictEq _ _). Qed.

Lemma parentId_clearParentId (f : Folder) :
  parentId (clearParentId id f) = if strictEq (parentId f) id then None else parentId f.
Proof. unfold clearParentId. by destruct (strictEq _ _). Qed.

Lemma findFolder_handleDeleteFolder (st : AppState) (x : string) :
  findFolder (app_folders (handleDeleteFolder id st)) x
  = if String.eqb x id then None
    else clearParentId id <$> findFolder (app_folders st) x.
Proof.
  unfold handleDeleteFolder, findFolder. cbn [app_folders].
  induction (app_folders st) as [|f folders IH]; simpl.
  - by destruct (String.eqb x id).
  - destruct (String.eqb_spec (folder_id f) id) as [Hf|Hf]; simpl.
    + rewrite IH. destruct (String.eqb_spec x id) as [Hx|Hx]; [done|].
      destruct (String.eqb_spec (folder_id f) x); [congruence | done].
    + rewrite folder_id_clearParentId.
      destruct (String.eqb_spec (folder_id f) x) as [<-|Hfx].
      * by destruct (String.eqb_spec (folder_id f) id).
      * apply IH.
Qed.

Lemma parentOf_handleDeleteFolder (st : AppState) (x : string) :
  parentOf (app_folders (handleDeleteFolder id st)) x
  = if String.eqb x id then None
    else if strictEq (parentOf (app_folders st) x) id then None
         else parentOf (app_folders st) x.
Proof.
  rewrite !parentOf_findFolder, findFolder_handleDeleteFolder.
  destruct (String.eqb x id); [done|].
  destruct (findFolder (app_folders st) x) as [f|]; simpl; [|done].
  apply parentId_clearParentId.
Qed.

Lemma isParent_handleDeleteFolder (st : AppState) (a b : string) :
  isParent (app_folders (handleDeleteFolder id st)) a b -> isParent (app_folders st) a b.
Proof.
  unfold isParent. rewrite parentOf_handleDeleteFolder.
  destruct (String.eqb a id); [done|].
  by destruct (strictEq (parentOf (app_folders st) a) id).
Qed.

End DeleteFolder.

Lemma cycleFree_sub (folders folders' : list Folder) :
  (forall a b, isParent folders' a b -> isParent folders a b) ->
  cycleFree folders -> cycleFree folders'.
Proof.
  intros Hsub Hfree x Hx. apply (Hfree x).
  assert (forall a b, tc (isParent folders') a b -> tc (isParent folders) a b) as Htc;
    [|by apply Htc].
  induction 1 as [a b H | a b c H _ IH].
  - by apply tc_once, Hsub.
  - eapply tc_l; [by apply Hsub | done].
Qed.

Lemma folder_ids_handleDeleteFolder (id : string) (st : AppState) :
  map folder_id (app_folders (handleDeleteFolder id st))
  = List.filter (fun x => negb (String.eqb x id)) (map folder_id (app_folders st)).
Proof.
  unfold handleDeleteFolder. cbn [app_folders].
  induction (app_folders st) as [|f folders IH]; [done|]. simpl.
  destruct (String.eqb (folder_id f) id); simpl; [done|].
  by rewrite folder_id_clearParentId, IH.
Qed.

(** X6.  After the delete action no folder carries the deleted id or names it
    as parent, and no note names it as its folder.  No note is lost, and the
    ids, titles and contents of the notes are as before; the other folders
    stay in order.  The attachments, the selection and the tabs are not
    touched: an attachment stored in the deleted folder still names it. *)
Theorem handleDeleteFolder_no_reference (id : string) (st : AppState) :
  let st' := handleDeleteFolder id st in
  ~ In id (map folder_id (app_folders st'))
  /\ Forall (fun f => parentId f <> Some id) (app_folders st')
  /\ Forall (fun n => note_folderId n <> Some id) (app_notes st')
  /\ map folder_id (app_folders st')
     = List.filter (fun x => negb (String.eqb x id)) (map folder_id (app_folders st))
  /\ map (fun n => (note_id n, note_title n, note_content n)) (app_notes st')
     = map (fun n => (note_id n, note_title n, note_content n)) (app_notes st)
  /\ app_attachments st' = app_attachments st
  /\ (forall a, In a (app_attachments st) -> attachment_folderId a = Some id ->
        In a (app_attachments st')
        /\ ~ In id (map folder_id (app_folders st')))
  /\ selectedIds st' = selectedIds st
  /\ activeNoteId st' = activeNoteId st
  /\ openNoteIds st' = openNoteIds st.
Proof.
  intros st'.
  assert (~ In id (map folder_id (app_folders st'))) as Hgone.
  { unfold st'. rewrite folder_ids_handleDeleteFolder. intros H.
    apply filter_In in H as [_ H]. by rewrite String.eqb_refl in H. }
  repeat apply conj; try done.
  - apply Forall_forall. intros f Hf. apply list_elem_of_In in Hf.
    unfold st', handleDeleteFolder in Hf. cbn [app_folders] in Hf.
    apply in_map_iff in Hf as [g [<- _]]. rewrite parentId_clearParentId.
    destruct (strictEq (parentId g) id) eqn:E; [done|].
    intros H. apply strictEq_spec in H. congruence.
  - apply Forall_forall. intros n Hn. apply list_elem_of_In in Hn.
    unfold st', handleDeleteFolder in Hn. cbn [app_notes] in Hn.
    apply in_map_iff in Hn as [m [<- _]]. unfold clearFolderId.
    destruct (strictEq (note_folderId m) id) eqn:E; [done|].
    intros H. apply strictEq_spec in H. congruence.
  - apply folder_ids_handleDeleteFolder.
  - unfold st', handleDeleteFolder. cbn [app_notes].
    rewrite map_map. apply map_ext. intros n. unfold clearFolderId.
    by destruct (strictEq _ _).
Qed.

(** X7.  Deleting a folder keeps the folder tree a tree, and keeps every
    remaining reference of a note or a folder resolvable.  A note or folder
    that sat directly in the deleted folder moves to the root; every other
    note keeps its folder and every other folder its parent; nothing else of
    a note or of a remaining folder changes. *)
Theorem handleDeleteFolder_keeps_tree (id : string) (st : AppState) :
  cycleFree (app_folders st) ->
  referencesResolve (app_folders st) (app_notes st) ->
  let st' := handleDeleteFolder id st in
  cycleFree (app_folders st')
  /\ referencesResolve (app_folders st') (app_notes st')
  /\ Forall2 (fun n n' =>
               note_id n' = note_id n /\ note_title n' = note_title n
               /\ note_content n' = note_content n
               /\ note_folderId n'
                  = if strictEq (note_folderId n) id then None else note_folderId n)
            (app_notes st) (app_notes st')
  /\ Forall2 (fun f f' =>
               folder_id f' = folder_id f /\ folder_name f' = folder_name f
               /\ collapsed f' = collapsed f
               /\ parentId f'
                  = if strictEq (parentId f) id then None else parentId f)
            (List.filter (fun f => negb (String.eqb (folder_id f) id)) (app_folders st))
            (app_folders st')
  /\ (forall x, x <> id -> parentOf (app_folders st) x = Some id ->
                parentOf (app_folders st') x = None)
  /\ (forall x, x <> id -> parentOf (app_folders st) x <> Some id ->
                parentOf (app_folders st') x = parentOf (app_folders st) x).
Proof.
  intros Hfree [Hfolders Hnotes] st'.
  assert (forall p, p <> id -> In p (map folder_id (app_folders st)) ->
                    In p (map folder_id (app_folders st'))) as Hkeep.
  { intros p Hp Hin. unfold st'. rewrite folder_ids_handleDeleteFolder.
    apply filter_In. split; [done|]. by destruct (String.eqb_spec p id). }
  assert (forall o p, JS.truthyOpt (if strictEq o id then None else o) = Some p ->
                      p <> id /\ JS.truthyOpt o = Some p) as Hother.
  { intros o p. destruct (strictEq o id) eqn:E; [done|]. intros Hp. split; [|done].
    intros ->. destruct o as [q|]; [|done]. simpl in E, Hp. unfold JS.truthy in Hp.
    destruct (String.eqb_spec q id); [done|]. destruct q; [done|]. by inversion Hp. }
  repeat apply conj.
  - eapply cycleFree_sub; [|done]. apply isParent_handleDeleteFolder.
  - apply Forall_forall. intros f Hf p Hp. apply list_elem_of_In in Hf.
    unfold st', handleDeleteFolder in Hf. cbn [app_folders] in Hf.
    apply in_map_iff in Hf as [g [<- Hg]]. apply filter_In in Hg as [Hg _].
    rewrite parentId_clearParentId in Hp. apply Hother in Hp as [Hne Hp].
    apply Hkeep; [done|].
    eapply List.Forall_forall in Hfolders; [|done]. by apply Hfolders.
  - apply Forall_forall. intros n Hn p Hp. apply list_elem_of_In in Hn.
    unfold st', handleDeleteFolder in Hn. cbn [app_notes] in Hn.
    apply in_map_iff in Hn as [m [<- Hm]].
    assert (note_folderId (clearFolderId id m)
            = if strictEq (note_folderId m) id then None else note_folderId m) as Hf.
    { unfold clearFolderId. by destruct (strictEq _ _). }
    rewrite Hf in Hp. apply Hother in Hp as [Hne Hp].
    apply Hkeep; [done|].
    eapply List.Forall_forall in Hnotes; [|done]. by apply Hnotes.
  - unfold st', handleDeleteFolder. cbn [app_notes].
    apply Forall2_fmap_r, Forall_Forall2_diag, Forall_forall. intros n _.
    unfold compose, clearFolderId. by destruct (strictEq _ _).
  - unfold st', handleDeleteFolder. cbn [app_folders].
    apply Forall2_fmap_r, Forall_Forall2_diag, Forall_forall. intros f _.
    unfold compose, clearParentId. by destruct (strictEq _ _).
  - intros x Hx Hp. unfold st'. rewrite parentOf_handleDeleteFolder, Hp.
    destruct (String.eqb_spec x id); [done|]. simpl. by rewrite String.eqb_refl.
  - intros x Hx Hp. unfold st'. rewrite parentOf_handleDeleteFolder.
    destruct (String.eqb_spec x id); [done|].
    destruct (strictEq (parentOf (app_folders st) x) id) eqn:E; [|done].
    by apply strictEq_spec in E.
Qed.

(** ** Deleting the selection *)

Section DeleteSelected.

Variable ids : list string.

Lemma includesId_spec (x : string) : includesId ids x = true <-> In x ids.
Proof.
  unfold includesId. rewrite existsb_exists. split.
  - intros [y [Hy H]]. by apply String.eqb_eq in H as ->.
  - intros H. exists x. by rewrite String.eqb_refl.
Qed.

Lemma keptBy_spec (id : string) (container : option string) :
  keptBy ids id container = true <->
  ~ In id ids /\ forall c, container = Some c -> ~ In c ids.
Proof.
  unfold keptBy. rewrite andb_true_iff, !negb_true_iff.
  rewrite <- !not_true_iff_false, includesId_spec.
  destruct container as [c|]; simpl.
  - rewrite includesId_spec. split.
    + intros [H1 H2]. split; [done|]. by intros ? [= <-].
    + intros [H1 H2]. split; [done|]. by apply H2.
  - split; [|by intros [? _]]. intros [H _]. by split.
Qed.

Lemma findFolder_filter (p : Folder -> bool) (folders : list Folder) (x : string) :
  NoDup (map folder_id folders) ->
  findFolder (List.filter p folders) x
  = match findFolder folders x with
    | Some f => if p f then Some f else None
    | None => None
    end.
Proof.
  unfold findFolder. induction folders as [|f folders IH]; intros Hnd; [done|].
  simpl in Hnd. apply NoDup_cons in Hnd as [Hf Hnd]. simpl.
  destruct (String.eqb_spec (folder_id f) x) as [<-|Hne].
  - destruct (p f) eqn:Ep; simpl; [by rewrite String.eqb_refl|].
    destruct (List.find _ (List.filter p folders)) as [g|] eqn:E; [|done].
    apply find_some in E as [Hg Hid]. apply String.eqb_eq in Hid.
    apply filter_In in Hg as [Hg _]. exfalso. apply Hf.
    apply list_elem_of_In. rewrite <- Hid. by apply in_map.
  - destruct (p f); simpl; [|by apply IH].
    destruct (String.eqb_spec (folder_id f) x); [done | by apply IH].
Qed.

Lemma isParent_filter (p : Folder -> bool) (folders : list Folder) (a b : string) :
  NoDup (map folder_id folders) ->
  isParent (List.filter p folders) a b -> isParent folders a b.
Proof.
  intros Hnd. unfold isParent. rewrite !parentOf_findFolder, findFolder_filter by done.
  destruct (findFolder folders a) as [f|]; [|done]. by destruct (p f).
Qed.

Lemma NoDup_map_filter {A : Type} (g : A -> string) (p : A -> bool) (l : list A) :
  NoDup (map g l) -> NoDup (map g (List.filter p l)).
Proof.
  induction l as [|x l IH]; intros Hnd; [done|]. simpl in *.
  apply NoDup_cons in Hnd as [Hx Hnd]. destruct (p x); [|by apply IH].
  simpl. apply NoDup_cons. split; [|by apply IH].
  intros Hin. apply Hx. apply list_elem_of_In. apply list_elem_of_In in Hin.
  apply in_map_iff in Hin as [y [Hy Hin]]. apply filter_In in Hin as [Hin _].
  rewrite <- Hy. by apply in_map.
Qed.

End DeleteSelected.

(** X8.  Deleting the selection removes every selected note, folder and
    attachment together with what lies directly in a selected folder, keeps
    the rest in order and clears the selection.  When the ids of the folders
    are pairwise distinct, a folder tree stays a tree. *)
Theorem handleDeleteSelected_keeps_tree (st : AppState) :
  NoDup (map folder_id (app_folders st)) ->
  cycleFree (app_folders st) ->
  let st' := handleDeleteSelected st in
  cycleFree (app_folders st')
  /\ NoDup (map folder_id (app_folders st'))
  /\ selectedIds st' = ∅
  /\ (forall n, In n (app_notes st') <->
        In n (app_notes st) /\ (note_id n ∉ selectedIds st)
        /\ forall c, note_folderId n = Some c -> c ∉ selectedIds st)
  /\ (forall f, In f (app_folders st') <->
        In f (app_folders st) /\ (folder_id f ∉ selectedIds st)
        /\ forall c, parentId f = Some c -> c ∉ selectedIds st)
  /\ (forall a, In a (app_attachments st') <->
        In a (app_attachments st) /\ (attachment_id a ∉ selectedIds st)
        /\ forall c, attachment_folderId a = Some c -> c ∉ selectedIds st)
  /\ sublist (app_notes st') (app_notes st)
  /\ sublist (app_folders st') (app_folders st)
  /\ sublist (app_attachments st') (app_attachments st).
Proof.
  intros Hnd Hfree st'. unfold st', handleDeleteSelected.
  assert (forall x, x ∈ selectedIds st <-> In x (elements (selectedIds st))) as Hel.
  { intros x. by rewrite <- list_elem_of_In, elem_of_elements. }
  destruct (elements (selectedIds st)) as [|x ids] eqn:Eids.
  - apply elements_empty_inv, leibniz_equiv in Eids.
    repeat apply conj; try done; intros ?; rewrite Eids;
      (split; [intros ?; repeat split; [done | apply not_elem_of_empty
                                        | intros; apply not_elem_of_empty]
              | tauto]).
  - unfold deleteAction.
    cbn [app_notes app_folders app_attachments selectedIds]. repeat apply conj.
    + eapply cycleFree_sub; [|done]. intros a b. by apply isParent_filter.
    + by apply NoDup_map_filter.
    + done.
    + intros n. rewrite filter_In, keptBy_spec. setoid_rewrite Hel. tauto.
    + intros f. rewrite filter_In, keptBy_spec. setoid_rewrite Hel. tauto.
    + intros a. rewrite filter_In, keptBy_spec. setoid_rewrite Hel. tauto.
    + apply filter_sublist.
    + apply filter_sublist.
    + apply filter_sublist.
Qed.

(** ** Unique titles *)

Section UniqueTitle.

Lemma optEq_spec (a b : option string) : optEq a b = true <-> a = b.
Proof.
  destruct a as [x|], b as [y|]; simpl; try done.
  rewrite String.eqb_eq. split; [by intros -> | by intros [= ->]].
Qed.

Lemma candidateTitle_inj (baseTitle : string) (j k : nat) :
  candidateTitle baseTitle j = candidateTitle baseTitle k -> j = k.
Proof.
  assert (forall n, baseTitle <> numberedTitle baseTitle (S n)) as Hne.
  { intros n H. apply (f_equal String.length) in H.
    unfold numberedTitle in H. rewrite length_append in H. simpl in H. lia. }
  destruct j as [|j], k as [|k]; simpl; intros H; [done | by apply Hne in H | | ].
  - symmetry in H. by apply Hne in H.
  - unfold numberedTitle in H. apply String.app_inj in H.
    apply (String.app_inj " ") in H. by apply pretty_nat_inj in H.
Qed.

Variable exists_ : string -> bool.
Variable baseTitle : string.

Lemma uniqueTitleLoop_spec (fuel : nat) :
  forall counter,
    (forall j, (j < counter)%nat -> exists_ (candidateTitle baseTitle j) = true) ->
    (exists k, (k < counter + fuel)%nat
               /\ uniqueTitleLoop fuel exists_ baseTitle counter
                    (candidateTitle baseTitle counter)
                  = Some (candidateTitle baseTitle k)
               /\ exists_ (candidateTitle baseTitle k) = false
               /\ forall j, (j < k)%nat -> exists_ (candidateTitle baseTitle j) = true)
    \/ (forall j, (j < counter + fuel)%nat ->
                  exists_ (candidateTitle baseTitle j) = true).
Proof.
  induction fuel as [|fuel IH]; intros counter Hbelow.
  - right. intros j Hj. apply Hbelow. lia.
  - simpl. destruct (exists_ (candidateTitle baseTitle counter)) eqn:E.
    + destruct (IH (S counter)) as [[k [Hk [Hloop [Hfree Hmin]]]] | Hall].
      * intros j Hj. destruct (decide (j = counter)) as [->|]; [done|].
        apply Hbelow. lia.
      * left. exists k. repeat split; [lia|done..].
      * right. intros j Hj. apply Hall. lia.
    + left. exists counter. repeat split; [lia|done..].
Qed.

(** The loop finds a free title as soon as the titles in use are fewer than
    the iterations allowed. *)
Lemma uniqueTitleLoop_exits (taken : list string) :
  (forall t, exists_ t = true -> In t taken) ->
  exists k, (k <= length taken)%nat
            /\ uniqueTitleLoop (S (length taken)) exists_ baseTitle O baseTitle
               = Some (candidateTitle baseTitle k)
            /\ exists_ (candidateTitle baseTitle k) = false
            /\ forall j, (j < k)%nat -> exists_ (candidateTitle baseTitle j) = true.
Proof.
  intros Htaken.
  destruct (uniqueTitleLoop_spec (S (length taken)) O) as [[k [Hk H]] | Hall].
  - intros j Hj. lia.
  - exists k. split; [lia | done].
  - exfalso.
    assert (length (map (candidateTitle baseTitle) (seq 0 (S (length taken))))
            <= length taken)%nat as Hle.
    { apply submseteq_length, NoDup_submseteq.
      - apply NoDup_fmap_2_strong; [|apply NoDup_seq].
        intros j k _ _. apply candidateTitle_inj.
      - intros t Ht. apply list_elem_of_In. apply list_elem_of_In in Ht.
        apply in_map_iff in Ht as [j [<- Hj]]. apply Htaken, Hall.
        apply in_seq in Hj. lia. }
    rewrite length_map, length_seq in Hle. lia.
Qed.

End UniqueTitle.

Lemma checkExists_taken (notes : list Note) (folders : list Folder)
    (isFolder : bool) (parent : option string) (t : string) :
  checkExists notes folders isFolder parent t = true ->
  In t (if isFolder then map folder_name folders else map note_title notes).
Proof.
  unfold checkExists. destruct isFolder; intros H.
  - apply existsb_exists in H as [f [Hf H]]. apply andb_true_iff in H as [H _].
    apply String.eqb_eq in H as <-. by apply in_map.
  - apply existsb_exists in H as [n [Hn H]]. apply andb_true_iff in H as [H _].
    apply String.eqb_eq in H as <-. by apply in_map.
Qed.

Lemma getUniqueTitle_exits (notes : list Note) (folders : list Folder)
    (baseTitle : string) (isFolder : bool) (parent : option string) :
  exists k,
    getUniqueTitle notes folders baseTitle isFolder parent
    = Some (candidateTitle baseTitle k)
    /\ checkExists notes folders isFolder parent (candidateTitle baseTitle k) = false
    /\ (forall j, (j < k)%nat ->
          checkExists notes folders isFolder parent (candidateTitle baseTitle j) = true)
    /\ (k <= if isFolder then length folders else length notes)%nat.
Proof.
  unfold getUniqueTitle.
  destruct (uniqueTitleLoop_exits (checkExists notes folders isFolder parent) baseTitle
              (if isFolder then map folder_name folders else map note_title notes))
    as [k [Hk [Hloop [Hfree Hmin]]]].
  { apply checkExists_taken. }
  exists k. destruct isFolder; rewrite length_map in *; done.
Qed.

(** X9.  [getUniqueTitle] returns: the result is the base title or the base
    title followed by a space and a counter, no sibling carries it, and every
    candidate tried before it is taken. *)
Theorem getUniqueTitle_free (notes : list Note) (folders : list Folder)
    (baseTitle : string) (isFolder : bool) (parent : option string) :
  exists k,
    getUniqueTitle notes folders baseTitle isFolder parent
    = Some (candidateTitle baseTitle k)
    /\ checkExists notes folders isFolder parent (candidateTitle baseTitle k) = false
    /\ (forall j, (j < k)%nat ->
          checkExists notes folders isFolder parent (candidateTitle baseTitle j) = true)
    /\ (k <= if isFolder then length folders else length notes)%nat.
Proof. apply getUniqueTitle_exits. Qed.

(** ** Creating folders and notes *)

Lemma expandFolder_fields (p : string) (f : Folder) :
  folder_id (expandFolder p f) = folder_id f
  /\ folder_name (expandFolder p f) = folder_name f
  /\ parentId (expandFolder p f) = parentId f.
Proof. unfold expandFolder. by destruct (String.eqb _ _). Qed.

Lemma expandFolder_collapsed (p : string) (f : Folder) :
  folder_id f = p -> collapsed (expandFolder p f) = Some false.
Proof. intros <-. unfold expandFolder. by rewrite String.eqb_refl. Qed.

(** X10.  [handleCreateFolder] appends one folder and leaves the ids, names
    and parents of the others as they are.  If no two siblings shared a name
    before, none do afterwards; and the folder that receives the new one is
    expanded. *)
Theorem handleCreateFolder_unique_names (newId : string) (parent : option string)
    (notes : list Note) (folders : list Folder) :
  siblingNamesUnique folders ->
  exists folders' name,
    handleCreateFolder newId parent notes folders = Some folders'
    /\ siblingNamesUnique folders'
    /\ map (fun f => (folder_id f, folder_name f, parentId f)) folders'
       = map (fun f => (folder_id f, folder_name f, parentId f)) folders
         ++ [(newId, name, parent)]
    /\ (forall p f, JS.truthyOpt parent = Some p -> In f folders' ->
                    folder_id f = p -> collapsed f = Some false).
Proof.
  intros Huniq. unfold handleCreateFolder.
  destruct (getUniqueTitle_exits notes folders "New Folder" true parent)
    as [k [-> [Hfree _]]].
  set (name := candidateTitle "New Folder" k) in *.
  set (folders1 := match JS.truthyOpt parent with
                   | Some p => map (expandFolder p) folders
                   | None => folders
                   end).
  assert (map (fun f => (folder_id f, folder_name f, parentId f)) folders1
          = map (fun f => (folder_id f, folder_name f, parentId f)) folders) as Hsame.
  { unfold folders1. destruct (JS.truthyOpt parent) as [p|]; [|done].
    rewrite map_map. apply map_ext. intros f.
    by destruct (expandFolder_fields p f) as [-> [-> ->]]. }
  exists (folders1 ++ [mkFolder newId name parent (Some false)]), name.
  repeat split.
  - unfold siblingNamesUnique in *. rewrite map_app. simpl.
    assert (map (fun f => (folder_name f, parentId f)) folders1
            = map (fun f => (folder_name f, parentId f)) folders) as ->.
    { apply (f_equal (map (fun t : string * string * option string => (t.1.2, t.2))))
        in Hsame. by rewrite !map_map in Hsame. }
    apply NoDup_app. repeat split; [done| |apply NoDup_singleton].
    intros x Hx Hnew. apply list_elem_of_In in Hx.
    apply list_elem_of_In in Hnew. destruct Hnew as [<-|[]].
    apply in_map_iff in Hx as [f [Hf Hin]]. inversion Hf as [[Hname Hparent]].
    unfold checkExists in Hfree.
    assert (List.existsb (fun f => String.eqb (folder_name f) name
                                   && optEq (parentId f) parent) folders = true) as Hex;
      [|by rewrite Hex in Hfree].
    apply existsb_exists. exists f. split; [done|].
    apply andb_true_iff. split; [by apply String.eqb_eq | by apply optEq_spec].
  - rewrite map_app. simpl. by rewrite Hsame.
  - intros p f Hp Hin Hid. apply in_app_iff in Hin as [Hin | [<- | []]]; [|done].
    unfold folders1 in Hin. rewrite Hp in Hin.
    apply in_map_iff in Hin as [g [<- Hg]].
    apply expandFolder_collapsed.
    by destruct (expandFolder_fields p g) as [<- _].
Qed.

Lemma handleCreateFolder_unique_names_witness :
  exists folders' name,
    handleCreateFolder "new" (Some "w") [] folderTree = Some folders'
    /\ siblingNamesUnique folders'
    /\ map (fun f => (folder_id f, folder_name f, parentId f)) folders'
       = map (fun f => (folder_id f, folder_name f, parentId f)) folderTree
         ++ [("new", name, Some "w")]
    /\ (forall p f, JS.truthyOpt (Some "w") = Some p -> In f folders' ->
                    folder_id f = p -> collapsed f = Some false).
Proof.
  apply (handleCreateFolder_unique_names "new" (Some "w") [] folderTree).
  unfold siblingNamesUnique. apply (bool_decide_unpack (NoDup _)). vm_compute. reflexivity.
Defined.

(** X11.  [handleCreateNote] puts one note in front of the others, whose
    content opens with the heading of its title.  If no two notes of a folder
    shared a title before, none do afterwards. *)
Theorem handleCreateNote_unique_titles (newId : string) (folderId : option string)
    (notes : list Note) (folders : list Folder) :
  siblingTitlesUnique notes ->
  exists title folders',
    handleCreateNote newId folderId notes folders
    = Some (mkNote newId title ("# " +:+ title +:+ nl +:+ nl) folderId :: notes, folders')
    /\ siblingTitlesUnique
         (mkNote newId title ("# " +:+ title +:+ nl +:+ nl) folderId :: notes)
    /\ map (fun f => (folder_id f, folder_name f, parentId f)) folders'
       = map (fun f => (folder_id f, folder_name f, parentId f)) folders.
Proof.
  intros Huniq. unfold handleCreateNote.
  destruct (getUniqueTitle_exits notes folders "Untitled Note" false folderId)
    as [k [-> [Hfree _]]].
  set (title := candidateTitle "Untitled Note" k) in *.
  eexists title, _. repeat split.
  - unfold siblingTitlesUnique in *. simpl. apply NoDup_cons. split; [|done].
    intros Hx. apply list_elem_of_In in Hx.
    apply in_map_iff in Hx as [n [Hn Hin]]. inversion Hn as [[Htitle Hfolder]].
    unfold checkExists in Hfree.
    assert (List.existsb (fun n => String.eqb (note_title n) title
                                   && optEq (note_folderId n) folderId) notes = true)
      as Hex; [|by rewrite Hex in Hfree].
    apply existsb_exists. exists n. split; [done|].
    apply andb_true_iff. split; [by apply String.eqb_eq | by apply optEq_spec].
  - destruct (JS.truthyOpt folderId) as [p|]; [|done].
    rewrite map_map. apply map_ext. intros f.
    by destruct (expandFolder_fields p f) as [-> [-> ->]].
Qed.

Lemma handleCreateNote_unique_titles_witness :
  exists title folders',
    handleCreateNote "new" None [mkNote "u" "Untitled Note" EmptyString None] folderTree
    = Some (mkNote "new" title ("# " +:+ title +:+ nl +:+ nl) None
              :: [mkNote "u" "Untitled Note" EmptyString None], folders')
    /\ siblingTitlesUnique
         (mkNote "new" title ("# " +:+ title +:+ nl +:+ nl) None
            :: [mkNote "u" "Untitled Note" EmptyString None])
    /\ map (fun f => (folder_id f, folder_name f, parentId f)) folders'
       = map (fun f => (folder_id f, folder_name f, parentId f)) folderTree.
Proof.
  apply (handleCreateNote_unique_titles "new" None
           [mkNote "u" "Untitled Note" EmptyString None] folderTree).
  unfold siblingTitlesUnique. apply (bool_decide_unpack (NoDup _)). vm_compute. reflexivity.
Defined.

Example handleCreateNote_counter :
  fst <$> handleCreateNote "new" None [mkNote "u" "Untitled Note" EmptyString None] []
  = Some [ mkNote "new" "Untitled Note 1" ("# Untitled Note 1" +:+ nl +:+ nl) None;
           mkNote "u" "Untitled Note" EmptyString None ].
Proof. vm_compute. reflexivity. Qed.

(** ** Tabs *)

Section Tabs.

Lemma indexOf_filter (prev : list string) (id : string) :
  indexOf prev id
  <= Z.of_nat (length (List.filter (fun tId => negb (String.eqb tId id)) prev)).
Proof.
  unfold indexOf. induction prev as [|x prev IH]; simpl; [lia|].
  destruct (String.eqb x id); simpl; [lia|].
  destruct (Z.ltb_spec (findIndex (fun y => String.eqb y id) prev) 0); lia.
Qed.

Lemma filter_ne_id (pre : list string) (id : string) :
  ~ In id pre -> List.filter (fun tId => negb (String.eqb tId id)) pre = pre.
Proof.
  induction pre as [|x pre IH]; intros Hin; [done|]. simpl.
  destruct (String.eqb_spec x id) as [->|Hne].
  - exfalso. apply Hin. by left.
  - simpl. rewrite IH; [done|]. intros H. apply Hin. by right.
Qed.

Lemma indexOf_first (pre post : list string) (id : string) :
  ~ In id pre -> indexOf (pre ++ id :: post) id = Z.of_nat (length pre).
Proof.
  intros Hin. unfold indexOf. rewrite findIndex_at by apply String.eqb_refl.
  destruct (List.existsb _ pre) eqn:E; [|done].
  apply existsb_exists in E as [y [Hy E]]. by apply String.eqb_eq in E as ->.
Qed.

Lemma In_filter_ne (l : list string) (id x : string) :
  In x (List.filter (fun tId => negb (String.eqb tId id)) l) <-> In x l /\ x <> id.
Proof.
  rewrite filter_In, negb_true_iff. destruct (String.eqb_spec x id); split; intros [? ?]; done.
Qed.

End Tabs.

(** X12.  Closing a tab removes it from the tab list and leaves the other
    tabs in order.  If the closed tab was active, the tab to its left
    becomes active, or the next remaining tab if it was the first, or none
    if it was the only one; otherwise the active note is unchanged.  The
    active note, if any, keeps having a tab. *)
Theorem handleCloseTab_active (id : string) (st : AppState) :
  exists st',
    handleCloseTab id st = Some st'
    /\ openNoteIds st'
       = List.filter (fun tId => negb (String.eqb tId id)) (openNoteIds st)
    /\ ~ In id (openNoteIds st')
    /\ (activeNoteId st <> id -> activeNoteId st' = activeNoteId st)
    /\ (forall pre post,
          activeNoteId st = id -> openNoteIds st = pre ++ id :: post -> ~ In id pre ->
          activeNoteId st'
          = match last pre with
            | Some t => t
            | None =>
                match List.filter (fun tId => negb (String.eqb tId id)) post with
                | t :: _ => t
                | [] => EmptyString
                end
            end)
    /\ (activeHasTab st -> activeHasTab st').
Proof.
  unfold handleCloseTab.
  set (newTabs := List.filter (fun tId => negb (String.eqb tId id)) (openNoteIds st)).
  assert (~ In id newTabs) as Hgone.
  { intros H. by apply In_filter_ne in H as [_ H]. }
  destruct (String.eqb_spec id (activeNoteId st)) as [Heq|Hne].
  - destruct newTabs as [|t0 rest] eqn:Etabs.
    + eexists. split; [done|]. cbn [openNoteIds activeNoteId].
      repeat apply conj; try done.
      * intros pre post _ Hprev Hpre. unfold newTabs in Etabs.
        rewrite Hprev, List.filter_app, filter_ne_id in Etabs by done.
        apply app_eq_nil in Etabs as [-> Hpost]. simpl in *.
        rewrite String.eqb_refl in Hpost. simpl in Hpost. by rewrite Hpost.
      * intros _. by left.
    + rewrite <- Etabs.
      assert (Z.to_nat (Z.max 0 (indexOf (openNoteIds st) id - 1)) < length newTabs)%nat
        as Hlt.
      { pose proof (indexOf_filter (openNoteIds st) id) as Hidx.
        fold newTabs in Hidx. rewrite Etabs in *. simpl in *. lia. }
      apply lookup_lt_is_Some_2 in Hlt as [t Ht]. rewrite Ht. simpl.
      eexists. split; [done|]. cbn [openNoteIds activeNoteId].
      repeat apply conj; try done; try (by rewrite Etabs).
      * intros pre post _ Hprev Hpre. revert Ht. unfold newTabs.
        rewrite Hprev, indexOf_first, List.filter_app, filter_ne_id by done. simpl.
        rewrite String.eqb_refl. simpl.
        destruct pre as [|p pre] using rev_ind.
        -- simpl. intros Ht.
           destruct (List.filter _ post); [done | by inversion Ht].
        -- rewrite last_snoc, length_app. simpl.
           replace (Z.to_nat (Z.max 0 (Z.of_nat (length pre + 1) - 1))) with (length pre)
             by lia.
           rewrite <- app_assoc. rewrite lookup_app_r, Nat.sub_diag by lia.
           simpl. by intros [= ->].
      * intros _. right. cbn [openNoteIds activeNoteId].
        apply list_elem_of_In. by eapply list_elem_of_lookup_2.
  - eexists. split; [done|]. cbn [openNoteIds activeNoteId].
    repeat apply conj; try done.
    intros [Hempty | Hin]; [by left | right]. cbn [openNoteIds activeNoteId].
    apply In_filter_ne. split; [done | intros H; by apply Hne].
Qed.

(** X13.  After a note is deleted it is neither listed, nor open in a tab,
    nor active.  If the tabs and the active id named notes of the state
    before, they do so afterwards. *)
Theorem handleDeleteNote_consistent (id : string) (st : AppState) :
  tabsResolve st ->
  let st' := handleDeleteNote id st in
  tabsResolve st'
  /\ ~ In id (map note_id (app_notes st'))
  /\ ~ In id (openNoteIds st')
  /\ (activeNoteId st' = id -> id = EmptyString)
  /\ sublist (app_notes st') (app_notes st).
Proof.
  intros [Htabs Hactive] st'. unfold st', handleDeleteNote.
  cbn [app_notes openNoteIds activeNoteId].
  set (newNotes := List.filter (fun n => negb (String.eqb (note_id n) id)) (app_notes st)).
  set (remainingTabs := List.filter (fun tId => negb (String.eqb tId id)) (openNoteIds st)).
  assert (forall x, In x (map note_id newNotes) <->
                    In x (map note_id (app_notes st)) /\ x <> id) as Hnotes.
  { intros x. rewrite !in_map_iff. split.
    - intros [n [<- Hn]]. apply filter_In in Hn as [Hn Hid].
      split; [by exists n|]. by destruct (String.eqb_spec (note_id n) id).
    - intros [[n [<- Hn]] Hne]. exists n. split; [done|].
      apply filter_In. split; [done|]. by destruct (String.eqb_spec (note_id n) id). }
  assert (Forall (fun t => In t (map note_id newNotes)) remainingTabs) as Htabs'.
  { apply Forall_forall. intros t Ht. apply list_elem_of_In in Ht.
    apply In_filter_ne in Ht as [Ht Hne]. apply Hnotes. split; [|done].
    by eapply List.Forall_forall in Htabs. }
  repeat apply conj.
  - done.
  - destruct (String.eqb_spec (activeNoteId st) id) as [Heq|Hne].
    + destruct (last remainingTabs) as [t|] eqn:El.
      * right. apply last_Some in El as [l' ->].
        apply Forall_app in Htabs' as [_ Ht]. by inversion Ht.
      * destruct newNotes as [|n ?]; [by left | right]. by left.
    + destruct Hactive as [He | Hin]; [by left | right]. by apply Hnotes.
  - intros H. by apply Hnotes in H as [_ H].
  - intros H. by apply In_filter_ne in H as [_ H].
  - destruct (String.eqb_spec (activeNoteId st) id) as [Heq|Hne]; [|done].
    destruct (last remainingTabs) as [t|] eqn:El.
    + intros ->. apply last_Some in El as [l' El].
      assert (In id (List.filter (fun tId => negb (String.eqb tId id)) (openNoteIds st)))
        as Hin.
      { fold remainingTabs. rewrite El. apply in_app_iff. right. by left. }
      by apply In_filter_ne in Hin as [_ Hin].
    + destruct newNotes as [|n rest]; [done|]. intros Hn.
      assert (In id (map note_id (n :: rest))) as Hin by (by left).
      by apply Hnotes in Hin as [_ Hin].
  - apply filter_sublist.
Qed.

(** ** Selection *)

Section Selection.

Lemma indexOf_In (l : list string) (x : string) :
  In x l ->
  0 <= indexOf l x /\ l !! Z.to_nat (indexOf l x) = Some x.
Proof.
  unfold indexOf. induction l as [|y l IH]; intros Hin; [done|]. simpl.
  destruct (String.eqb_spec y x) as [->|Hne]; [done|].
  destruct Hin as [Hy | Hin]; [done|]. destruct (IH Hin) as [Hpos Hlook].
  destruct (Z.ltb_spec (findIndex (fun y => String.eqb y x) l) 0); [lia|].
  split; [lia|]. by rewrite Z2Nat.inj_add, Nat.add_1_r by lia.
Qed.

Lemma indexOf_not_In (l : list string) (x : string) :
  ~ In x l -> indexOf l x = -1.
Proof.
  unfold indexOf. induction l as [|y l IH]; intros Hin; [done|]. simpl.
  destruct (String.eqb_spec y x) as [->|Hne]; [exfalso; apply Hin; by left|].
  rewrite IH; [done|]. intros H. apply Hin. by right.
Qed.

(** A slice between two valid indices is a block of the list that starts at
    the first index and ends at the second. *)
Lemma slice_block {A : Type} (l : list A) (a b : nat) (x y : A) :
  (a <= b)%nat -> l !! a = Some x -> l !! b = Some y ->
  exists pre range post,
    l = pre ++ range ++ post
    /\ slice (Z.of_nat a) (Z.of_nat b + 1) l = range
    /\ head range = Some x /\ last range = Some y.
Proof.
  intros Hab Ha Hb. unfold slice.
  replace (Z.to_nat (Z.of_nat b + 1 - Z.of_nat a)) with (S (b - a)) by lia.
  rewrite Nat2Z.id.
  exists (take a l), (take (S (b - a)) (drop a l)), (drop (S (b - a)) (drop a l)).
  apply lookup_lt_Some in Hb as Hlt.
  repeat split.
  - by rewrite !take_drop.
  - rewrite head_lookup, lookup_take_lt, lookup_drop, Nat.add_0_r by lia. done.
  - rewrite last_lookup, length_take, length_drop.
    replace (Nat.pred (S (b - a) `min` (length l - a))) with (b - a)%nat by lia.
    rewrite lookup_take_lt, lookup_drop by lia.
    by replace (a + (b - a))%nat with b by lia.
Qed.

End Selection.

(** X14.  A click with the control or the meta key toggles the clicked item
    and leaves the rest of the selection alone; a second such click restores
    the selection. *)
Theorem handleItemClick_toggle (visibleItemIds : list string) (id : string)
    (ev : MouseEvent) (type : ItemType) (st : AppState) :
  ctrlKey ev || metaKey ev = true ->
  let st' := handleItemClick visibleItemIds id (Some ev) type st in
  (id ∈ selectedIds st' <-> id ∉ selectedIds st)
  /\ (forall x, x <> id -> x ∈ selectedIds st' <-> x ∈ selectedIds st)
  /\ selectedIds (handleItemClick visibleItemIds id (Some ev) type st') = selectedIds st.
Proof.
  intros Hctrl st'. unfold st', handleItemClick. cbn [selectedIds].
  unfold clickSelection. cbn [selectedIds]. rewrite Hctrl.
  destruct (decide (id ∈ selectedIds st)) as [Hin|Hin].
  - rewrite (bool_decide_eq_true_2 _ Hin).
    assert (id ∉ selectedIds st ∖ {[id]}) as Hout.
    { rewrite elem_of_difference, elem_of_singleton. tauto. }
    rewrite (bool_decide_eq_false_2 _ Hout). split; [|split].
    + tauto.
    + intros x Hx. rewrite elem_of_difference, elem_of_singleton. tauto.
    + apply set_eq. intros x.
      rewrite elem_of_union, elem_of_difference, elem_of_singleton.
      destruct (decide (x = id)) as [->|]; tauto.
  - rewrite (bool_decide_eq_false_2 _ Hin).
    assert (id ∈ selectedIds st ∪ {[id]}) as Hnow.
    { rewrite elem_of_union, elem_of_singleton. tauto. }
    rewrite (bool_decide_eq_true_2 _ Hnow). split; [|split].
    + tauto.
    + intros x Hx. rewrite elem_of_union, elem_of_singleton. tauto.
    + apply set_eq. intros x.
      rewrite elem_of_difference, elem_of_union, elem_of_singleton.
      destruct (decide (x = id)) as [->|]; tauto.
Qed.

(** X15.  A click with the shift key alone selects the block of visible items
    between the anchor and the clicked item, both included; if either is not
    visible, the clicked item alone is selected.  A click without modifier
    selects the clicked item alone.  In all these cases the clicked item is
    selected afterwards. *)
Theorem handleItemClick_range (visibleItemIds : list string) (id : string)
    (ev : MouseEvent) (type : ItemType) (st : AppState) :
  ctrlKey ev || metaKey ev = false ->
  let st' := handleItemClick visibleItemIds id (Some ev) type st in
  let anchor := anchorOf visibleItemIds st in
  id ∈ selectedIds st'
  /\ (shiftKey ev = false -> selectedIds st' = {[ id ]})
  /\ (shiftKey ev = true -> ~ (In anchor visibleItemIds /\ In id visibleItemIds) ->
      selectedIds st' = {[ id ]})
  /\ (shiftKey ev = true -> In anchor visibleItemIds -> In id visibleItemIds ->
      exists pre range post,
        visibleItemIds = pre ++ range ++ post
        /\ selectedIds st' = list_to_set range
        /\ (head range = Some id /\ last range = Some anchor
            \/ head range = Some anchor /\ last range = Some id)).
Proof.
  intros Hctrl st' anchor. unfold st', handleItemClick. cbn [selectedIds].
  unfold clickSelection. rewrite Hctrl. fold anchor.
  assert (shiftKey ev = true -> In anchor visibleItemIds -> In id visibleItemIds ->
      exists pre range post,
        visibleItemIds = pre ++ range ++ post
        /\ slice (indexOf visibleItemIds anchor `min` indexOf visibleItemIds id)
             (indexOf visibleItemIds anchor `max` indexOf visibleItemIds id + 1)
             visibleItemIds = range
        /\ (head range = Some id /\ last range = Some anchor
            \/ head range = Some anchor /\ last range = Some id)) as Hblock.
  { intros _ Ha Hi.
    destruct (indexOf_In _ _ Ha) as [Ha0 Hla]. destruct (indexOf_In _ _ Hi) as [Hi0 Hli].
    destruct (Z.le_ge_cases (indexOf visibleItemIds anchor) (indexOf visibleItemIds id))
      as [Hle|Hle].
    - rewrite Z.min_l, Z.max_r by done.
      destruct (slice_block visibleItemIds
                  (Z.to_nat (indexOf visibleItemIds anchor))
                  (Z.to_nat (indexOf visibleItemIds id)) anchor id
                  ltac:(lia) Hla Hli)
        as (pre & range & post & Hv & Hs & Hh & Hl).
      rewrite !Z2Nat.id in Hs by done. exists pre, range, post. tauto.
    - rewrite Z.min_r, Z.max_l by done.
      destruct (slice_block visibleItemIds
                  (Z.to_nat (indexOf visibleItemIds id))
                  (Z.to_nat (indexOf visibleItemIds anchor)) id anchor
                  ltac:(lia) Hli Hla)
        as (pre & range & post & Hv & Hs & Hh & Hl).
      rewrite !Z2Nat.id in Hs by done. exists pre, range, post. tauto. }
  destruct (shiftKey ev) eqn:Eshift;
    [|by (split; [by apply elem_of_singleton|split; [done|split; done]])].
  destruct (in_dec string_dec anchor visibleItemIds) as [Ha|Ha];
    [destruct (in_dec string_dec id visibleItemIds) as [Hi|Hi]|].
  - destruct (Hblock eq_refl Ha Hi) as (pre & range & post & Hv & Hs & Hends).
    destruct (indexOf_In _ _ Ha) as [Ha0 _]. destruct (indexOf_In _ _ Hi) as [Hi0 _].
    destruct (Z.eqb_spec (indexOf visibleItemIds anchor) (-1)); [lia|].
    destruct (Z.eqb_spec (indexOf visibleItemIds id) (-1)); [lia|].
    cbn [negb andb]. rewrite Hs. split; [|split; [done|split; [tauto|]]].
    + apply elem_of_list_to_set, list_elem_of_In.
      destruct Hends as [[Hh _] | [_ Hl]].
      * destruct range; [done|]. inversion Hh; subst. by left.
      * apply last_Some in Hl as [l' ->]. apply in_app_iff. right. by left.
    + intros _ _ _. by exists pre, range, post.
  - rewrite (indexOf_not_In _ _ Hi). rewrite andb_false_r.
    split; [by apply elem_of_singleton|split; [done|split; [done|tauto]]].
  - rewrite (indexOf_not_In _ _ Ha). cbn [Z.eqb negb andb].
    split; [by apply elem_of_singleton|split; [done|split; [done|tauto]]].
Qed.

(** X16.  Clicking a note makes it the active note and gives it a tab: a tab
    is appended at the end only if the note had none, so a tab list without
    repetition stays without repetition.  Clicking a folder or an attachment
    changes neither the tabs nor the active note.  A click without event
    selects the clicked item alone. *)
Theorem handleItemClick_opens (visibleItemIds : list string) (id : string)
    (e : option MouseEvent) (type : ItemType) (st : AppState) :
  let st' := handleItemClick visibleItemIds id e type st in
  match type with
  | NoteItem =>
      activeNoteId st' = id
      /\ In id (openNoteIds st')
      /\ (In id (openNoteIds st) -> openNoteIds st' = openNoteIds st)
      /\ (~ In id (openNoteIds st) -> openNoteIds st' = openNoteIds st ++ [id])
      /\ (NoDup (openNoteIds st) -> NoDup (openNoteIds st'))
      /\ activeHasTab st'
  | _ =>
      activeNoteId st' = activeNoteId st /\ openNoteIds st' = openNoteIds st
  end
  /\ (e = None -> selectedIds st' = {[ id ]}).
Proof.
  intros st'. split; [|by intros ->].
  destruct type; [|done..]. unfold st', handleItemClick, activeHasTab.
  cbn [activeNoteId openNoteIds].
  destruct (includesId (openNoteIds st) id) eqn:E.
  - apply includesId_spec in E. repeat split; try done. by right.
  - assert (~ In id (openNoteIds st)) as Hnot.
    { intros H. apply includesId_spec in H. congruence. }
    repeat split; try done.
    + apply in_app_iff. right. by left.
    + intros Hnd. apply NoDup_app. repeat split; [done| |apply NoDup_singleton].
      intros x Hx Hid. apply list_elem_of_singleton in Hid as ->.
      by apply list_elem_of_In in Hx.
    + right. apply in_app_iff. right. by left.
Qed.

(** ** Following a wiki link *)

Lemma handleClick_entity (text : string) (e : WikiLinkEntity) :
  wikiLinkHandler text = Some e -> handleClick (renderHTML e) = Some text.
Proof.
  unfold wikiLinkHandler. destruct (JS.truthy text); [|done]. intros [= <-].
  unfold handleClick.
  change (getAttribute (renderHTML (mkWikiLinkEntity text (Some ("wiki:" +:+ text))))
            "href") with (Some ("wiki:" +:+ text)).
  change (JS.truthyOpt (Some ("wiki:" +:+ text))) with (Some ("wiki:" +:+ text)).
  cbv beta iota.
  by rewrite (startsWith_append "wiki:" text), (replaceFirst_prefix "wiki:" text).
Qed.

Lemma find_append {A : Type} (p : A -> bool) (l1 l2 : list A) :
  List.find p (l1 ++ l2) = match List.find p l1 with
                           | Some x => Some x
                           | None => List.find p l2
                           end.
Proof.
  induction l1 as [|x l1 IH]; [done|]. simpl. by destruct (p x).
Qed.

Lemma findByTitle_Some (notes : list Note) (title : string) (n : Note) :
  findByTitle notes title = Some n ->
  In n notes /\ JS.toLowerCase (note_title n) = JS.toLowerCase title.
Proof.
  intros E. apply find_some in E as [Hin Heq]. by apply String.eqb_eq in Heq.
Qed.

(** X17.  Once a click on a wiki link is through, with the dialog confirmed
    if one was shown, the active note carries the clicked title up to case,
    has a tab and is the only selected item; the notes that existed are all
    kept.  A further click on the same title opens that note and creates
    nothing. *)
Theorem handleWikiLinkClick_lands (visibleItemIds : list string) (newId : string)
    (suppress : bool) (title : string) (isCtrl : bool) (st : AppState) :
  let st' := settled (handleWikiLinkClick visibleItemIds newId suppress title isCtrl st) in
  (exists n, findByTitle (app_notes st') title = Some n
             /\ note_id n = activeNoteId st')
  /\ In (activeNoteId st') (openNoteIds st')
  /\ selectedIds st' = {[ activeNoteId st' ]}
  /\ (exists created, app_notes st' = created ++ app_notes st
                      /\ (length created <= 1)%nat)
  /\ forall visibleItemIds' newId' suppress' isCtrl',
       exists st'',
         handleWikiLinkClick visibleItemIds' newId' suppress' title isCtrl' st'
         = OpenExisting st''
         /\ app_notes st'' = app_notes st'
         /\ activeNoteId st'' = activeNoteId st'.
Proof.
  intros st'.
  assert (forall x (s : AppState),
            In x (openNoteIds (handleOpenNote visibleItemIds x None s))) as Htab.
  { intros x s. unfold handleOpenNote, handleItemClick. cbn [openNoteIds].
    destruct (includesId (openNoteIds s) x) eqn:E; [by apply includesId_spec in E|].
    apply in_app_iff. right. by left. }
  assert (exists n, findByTitle (app_notes st') title = Some n
                    /\ note_id n = activeNoteId st') as Hfind.
  { unfold st', handleWikiLinkClick.
    destruct (findByTitle (app_notes st) title) as [n|] eqn:E.
    - exists n. by split.
    - assert (findByTitle (app_notes (createLinkedNote visibleItemIds newId title st)) title
              = Some (mkNote newId title ("# " +:+ title +:+ nl +:+ nl)
                        match List.find (fun n => String.eqb (note_id n) (activeNoteId st))
                                        (app_notes st) with
                        | Some n => note_folderId n
                        | None => None
                        end)) as Hnew.
      { unfold createLinkedNote, handleOpenNote, handleItemClick, findByTitle.
        cbn [app_notes List.find note_title]. by rewrite String.eqb_refl. }
      destruct (isCtrl || suppress); eexists; by split. }
  split; [done|]. split; [|split; [|split]].
  - unfold st', handleWikiLinkClick.
    destruct (findByTitle (app_notes st) title) as [n|]; [apply Htab|].
    destruct (isCtrl || suppress); apply Htab.
  - unfold st', handleWikiLinkClick.
    destruct (findByTitle (app_notes st) title) as [n|]; [done|].
    by destruct (isCtrl || suppress).
  - unfold st', handleWikiLinkClick.
    destruct (findByTitle (app_notes st) title) as [n|].
    { exists []. split; [done | simpl; lia]. }
    destruct (isCtrl || suppress); eexists [_]; (split; [done | simpl; lia]).
  - intros visibleItemIds' newId' suppress' isCtrl'.
    destruct Hfind as [n [Hn Hid]]. unfold handleWikiLinkClick at 1. rewrite Hn.
    eexists. split; [done|]. split; [done|]. by rewrite <- Hid.
Qed.

(** X18.  When the lower-cased titles of the notes are pairwise distinct, a
    click on a link whose text carries no label and no surrounding white
    space opens the note that the graph draws the link to, and leads to the
    creation of a note exactly when the graph has no target for the text.
    The title handed over by the editor is the text between the brackets. *)
Theorem handleWikiLinkClick_agrees_with_graph (visibleItemIds : list string)
    (newId : string) (suppress : bool) (capture : string) (isCtrl : bool)
    (st : AppState) :
  NoDup (map (fun n => JS.toLowerCase (note_title n)) (app_notes st)) ->
  targetTitle capture = JS.toLowerCase capture ->
  (forall e, wikiLinkHandler capture = Some e -> handleClick (renderHTML e) = Some capture)
  /\ match handleWikiLinkClick visibleItemIds newId suppress capture isCtrl st with
     | OpenExisting st' =>
         noteTitleToIdMap (app_notes st) !! targetTitle capture = Some (activeNoteId st')
         /\ app_notes st' = app_notes st
     | CreateNow st' | AskCreate st' =>
         noteTitleToIdMap (app_notes st) !! targetTitle capture = None
         /\ exists n, app_notes st' = n :: app_notes st /\ note_title n = capture
                      /\ note_id n = newId /\ activeNoteId st' = newId
     end.
Proof.
  intros Hnd Htarget. split; [intros e; apply handleClick_entity|].
  rewrite noteTitleToIdMap_lookup, Htarget.
  assert (lastWithTitle (app_notes st) (JS.toLowerCase capture)
          = findByTitle (app_notes st) capture) as ->.
  { unfold lastWithTitle, findByTitle. revert Hnd.
    generalize (JS.toLowerCase capture) as k. generalize (app_notes st) as notes.
    induction notes as [|n notes IH] using rev_ind; intros k Hnd; [done|].
    rewrite rev_app_distr. simpl. rewrite map_app in Hnd.
    apply NoDup_app in Hnd as [Hnd [Hfresh _]]. rewrite find_append.
    destruct (String.eqb_spec (JS.toLowerCase (note_title n)) k) as [<-|Hne].
    - destruct (List.find _ notes) as [m|] eqn:E; [|simpl; by rewrite String.eqb_refl].
      apply find_some in E as [Hin Heq]. apply String.eqb_eq in Heq.
      exfalso. apply (Hfresh (JS.toLowerCase (note_title m))).
      + apply list_elem_of_In. by apply (in_map (fun n => JS.toLowerCase (note_title n))).
      + rewrite Heq. by apply list_elem_of_singleton.
    - rewrite IH by done. destruct (List.find _ notes); [done|]. simpl.
      by destruct (String.eqb_spec (JS.toLowerCase (note_title n)) k). }
  unfold handleWikiLinkClick.
  destruct (findByTitle (app_notes st) capture) as [n|] eqn:E.
  - by split.
  - destruct (isCtrl || suppress); (split; [done|]); eexists; by repeat split.
Qed.

(** ** The sidebar search *)

Lemma includes_empty (s : string) : JS.includes EmptyString s = true.
Proof. apply includes_spec. by exists EmptyString, s. Qed.

Lemma includes_prefix (p q s : string) :
  JS.includes (p +:+ q) s = true -> JS.includes p s = true.
Proof.
  rewrite !includes_spec. intros [a [b ->]]. exists a, (q +:+ b).
  by rewrite append_assoc.
Qed.

(** X19.  For every search text the search shows, in the order of the note
    list, the notes whose title or content contains the text up to case, each
    as often as it is listed: the result of a list made of two parts is the
    result of the first part followed by the result of the second.  For an
    empty search text these are all the notes.  Searching for the opening
    brackets followed by the title of a note finds all the backlinks of that
    note. *)
Theorem searchNotes_finds_backlinks (notes : list Note) (targetId : string) :
  (forall q, sublist (searchNotes q notes) notes)
  /\ (forall q l1 l2, notes = l1 ++ l2 ->
        searchNotes q notes = searchNotes q l1 ++ searchNotes q l2)
  /\ searchNotes EmptyString notes = notes
  /\ (forall q n, In n (searchNotes q notes) <->
        In n notes /\ (containsIgnoringCase (note_title n) q
                       \/ containsIgnoringCase (note_content n) q))
  /\ match List.find (fun n => String.eqb (note_id n) targetId) notes with
     | Some target =>
         incl (getBacklinks notes targetId) (searchNotes ("[[" +:+ note_title target) notes)
     | None => getBacklinks notes targetId = []
     end.
Proof.
  repeat apply conj.
  - intros q. apply filter_sublist.
  - intros q l1 l2 ->. unfold searchNotes. apply List.filter_app.
  - unfold searchNotes. change (JS.toLowerCase EmptyString) with EmptyString.
    induction notes as [|n notes IH]; [done|]. cbn [List.filter].
    by rewrite includes_empty, IH.
  - intros q n. unfold searchNotes, containsIgnoringCase.
    by rewrite filter_In, orb_true_iff, !includes_spec.
  - unfold getBacklinks.
    destruct (List.find _ notes) as [target|]; [|done].
    intros n Hn. apply filter_In in Hn as [Hin Hn].
    apply andb_true_iff in Hn as [_ Hlink].
    apply filter_In. split; [done|]. apply orb_true_iff. right.
    rewrite toLowerCase_append.
    change (JS.toLowerCase "[[") with "[[".
    unfold linksToTitle in Hlink. apply orb_true_iff in Hlink as [H | H].
    + rewrite <- append_assoc in H. by apply includes_prefix in H.
    + rewrite <- append_assoc in H. by apply includes_prefix in H.
Qed.

(** ** The command palette *)

Section Palette.

Variable actions : list PaletteAction.
Variable query : string.

Local Abbreviation len := (Z.of_nat (length (filteredActions actions query))).

Lemma jsRem_in_range (a b : Z) :
  0 <= a < b -> jsRem a b = Some a.
Proof.
  intros H. unfold jsRem. destruct (Z.eqb_spec b 0); [lia|].
  by rewrite Z.rem_small.
Qed.

Lemma jsRem_wrap (b : Z) : 0 < b -> jsRem b b = Some 0.
Proof.
  intros H. unfold jsRem. destruct (Z.eqb_spec b 0); [lia|].
  by rewrite Z.rem_same.
Qed.

Lemma jsRem_shift (a b : Z) : 0 <= a < b -> jsRem (a + b) b = Some a.
Proof.
  intros H. unfold jsRem. destruct (Z.eqb_spec b 0); [lia|].
  rewrite Z.rem_mod_nonneg by lia.
  replace (a + b) with (a + 1 * b) by lia.
  by rewrite Z_mod_plus_full, Z.mod_small.
Qed.

End Palette.

(** X20.  In a palette that lists at least one command, with the selection
    on one of them, the arrow keys keep the selection on the list: down
    moves to the next command and from the last to the first, up moves to
    the previous one and from the first to the last, and each undoes the
    other. *)
Theorem handleKeyDown_arrows (actions : list PaletteAction) (query : string) (i : Z) :
  let len := Z.of_nat (length (filteredActions actions query)) in
  0 <= i < len ->
  let down := (handleKeyDown actions query (Some i) ArrowDown).1 in
  let up := (handleKeyDown actions query (Some i) ArrowUp).1 in
  down = Some (if i =? len - 1 then 0 else i + 1)
  /\ up = Some (if i =? 0 then len - 1 else i - 1)
  /\ (handleKeyDown actions query down ArrowUp).1 = Some i
  /\ (handleKeyDown actions query up ArrowDown).1 = Some i.
Proof.
  intros len Hi down up.
  assert (down = Some (if i =? len - 1 then 0 else i + 1)) as Hdown.
  { unfold down, handleKeyDown. cbn [fst]. fold len.
    destruct (Z.eqb_spec i (len - 1)) as [->|Hne].
    - replace (len - 1 + 1) with len by lia. apply jsRem_wrap. lia.
    - apply jsRem_in_range. lia. }
  assert (up = Some (if i =? 0 then len - 1 else i - 1)) as Hup.
  { unfold up, handleKeyDown. cbn [fst]. fold len.
    destruct (Z.eqb_spec i 0) as [->|Hne].
    - replace (0 - 1 + len) with (len - 1) by lia. apply jsRem_in_range. lia.
    - replace (i - 1 + len) with ((i - 1) + len) by lia. apply jsRem_shift. lia. }
  repeat apply conj; [done | done | |].
  - rewrite Hdown. unfold handleKeyDown. cbn [fst]. fold len.
    destruct (Z.eqb_spec i (len - 1)) as [->|Hne].
    + replace (0 - 1 + len) with (len - 1) by lia. apply jsRem_in_range. lia.
    + replace (i + 1 - 1 + len) with (i + len) by lia. apply jsRem_shift. lia.
  - rewrite Hup. unfold handleKeyDown. cbn [fst]. fold len.
    destruct (Z.eqb_spec i 0) as [->|Hne].
    + replace (len - 1 + 1) with len by lia. apply jsRem_wrap. lia.
    + replace (i - 1 + 1) with i by lia. apply jsRem_in_range. lia.
Qed.

(** X21.  The Enter key of the palette runs a command only if the selection
    stands on a listed command, and then runs that one; every listed command
    is one of the given commands and its label contains the query up to
    case.  With no command listed, the arrow keys lose the selection and
    Enter runs nothing. *)
Theorem handleKeyDown_enter (actions : list PaletteAction) (query : string)
    (selectedIndex : option Z) :
  let filtered := filteredActions actions query in
  match (handleKeyDown actions query selectedIndex Enter).2 with
  | RunAndClose action =>
      exists i, selectedIndex = Some (Z.of_nat i) /\ filtered !! i = Some action
                /\ In action actions
                /\ containsIgnoringCase (action_label action) query
  | NoEffect =>
      forall i, selectedIndex = Some (Z.of_nat i) -> (length filtered <= i)%nat
  | Close => False
  end
  /\ sublist filtered actions
  /\ (filtered = [] ->
      forall key, (handleKeyDown actions query selectedIndex key).2 <> Close ->
        (handleKeyDown actions query selectedIndex key).2 = NoEffect
        /\ (key = ArrowDown \/ key = ArrowUp ->
            (handleKeyDown actions query selectedIndex key).1 = None)).
Proof.
  intros filtered. repeat apply conj.
  - unfold handleKeyDown. fold filtered.
    destruct (at_index filtered selectedIndex) as [action|] eqn:E; cbn [snd].
    + unfold at_index in E. destruct selectedIndex as [z|]; [|done].
      destruct (Z.ltb_spec z 0); [done|].
      exists (Z.to_nat z). rewrite Z2Nat.id by lia. repeat split; [done|..].
      * apply list_elem_of_lookup_2, list_elem_of_In in E.
        by apply filter_In in E as [? _].
      * apply list_elem_of_lookup_2, list_elem_of_In in E.
        apply filter_In in E as [_ E]. by apply includes_spec in E.
    + intros i ->. unfold at_index in E.
      destruct (Z.ltb_spec (Z.of_nat i) 0); [lia|].
      rewrite Nat2Z.id in E. by apply lookup_ge_None in E.
  - apply filter_sublist.
  - intros Hempty key Hkey. unfold handleKeyDown in *. fold filtered in Hkey |- *.
    rewrite Hempty in *. cbn [length Z.of_nat] in *.
    destruct key; cbn [fst snd] in *; try done.
    + split; [done|]. intros _. by destruct selectedIndex.
    + split; [done|]. intros _. by destruct selectedIndex.
    + unfold at_index. split; [|by intros [|]].
      destruct selectedIndex as [z|]; [|done]. by destruct (z <? 0).
    + split; [done | by intros [|]].
Qed.

(** ** The line parsed on Enter *)

Section LineHtml.

Lemma append_nil_r (s : string) : s +:+ EmptyString = s.
Proof. induction s as [|c s IH]; [done|]. by rewrite append_cons, IH. Qed.

Lemma take_append (a b : string) : JS.take (String.length a) (a +:+ b) = a.
Proof.
  induction a as [|c a IH]; [by destruct b|]. rewrite append_cons. simpl. by rewrite IH.
Qed.

Lemma endsWith_append (a p : string) : JS.endsWith p (a +:+ p) = true.
Proof.
  unfold JS.endsWith. rewrite length_append.
  replace (String.length a + String.length p - String.length p)%nat
    with (String.length a) by lia.
  rewrite drop_append, String.eqb_refl, andb_true_r.
  apply Nat.leb_le. lia.
Qed.

Lemma endsWith_other (a : string) (c d : ascii) :
  c <> d -> JS.endsWith (String c EmptyString) (a +:+ String d EmptyString) = false.
Proof.
  intros Hne. unfold JS.endsWith. rewrite length_append. simpl.
  replace (String.length a + 1 - 1)%nat with (String.length a) by lia.
  rewrite drop_append. apply andb_false_iff. right.
  apply String.eqb_neq. congruence.
Qed.

Lemma sliceDropLast_append (a : string) (c : ascii) :
  JS.sliceDropLast (a +:+ String c EmptyString) = a.
Proof.
  unfold JS.sliceDropLast. rewrite length_append. simpl.
  replace (String.length a + 1 - 1)%nat with (String.length a) by lia.
  apply take_append.
Qed.

Lemma sliceDropLast_nl (a : string) : JS.sliceDropLast (a +:+ nl) = a.
Proof. apply (sliceDropLast_append a (ascii_of_nat 10)). Qed.

End LineHtml.

(** X22.  When [marked.parse] returns a single paragraph, the Enter handler
    inserts the inside of the paragraph; when it returns something that does
    not open with a paragraph, it inserts that without the final line break.
    In both cases a space is added after a closing angle bracket. *)
Theorem lineHtml_paragraph (body : string) :
  JS.includes "</p><p>" ("<p>" +:+ body +:+ "</p>") = false ->
  lineHtml ("<p>" +:+ body +:+ "</p>" +:+ nl)
  = (if JS.endsWith ">" body then body +:+ " " else body)
  /\ forall block,
       JS.startsWith "<p>" block = false ->
       lineHtml (block +:+ nl)
       = if JS.endsWith ">" block then block +:+ " " else block.
Proof.
  intros Hsingle. split.
  - set (html := "<p>" +:+ body +:+ "</p>") in *.
    assert ("<p>" +:+ body +:+ "</p>" +:+ nl = html +:+ nl) as ->.
    { unfold html. by rewrite !append_assoc. }
    assert (JS.endsWith "</p>" html = true) as Hend.
    { unfold html. rewrite <- append_assoc. apply endsWith_append. }
    assert (JS.substring 3 (String.length html - 4) html = body) as Hsub.
    { unfold JS.substring, html. rewrite !length_append.
      change (JS.drop 3 ("<p>" +:+ body +:+ "</p>")) with (body +:+ "</p>").
      replace (String.length "<p>" + (String.length body + String.length "</p>") - 4 - 3)%nat
        with (String.length body) by (simpl; lia).
      apply take_append. }
    unfold lineHtml.
    rewrite (endsWith_append _ nl), !sliceDropLast_nl.
    rewrite Hend, Hsingle, Hsub. unfold html at 1.
    by rewrite (startsWith_append "<p>").
  - intros block Hblock. unfold lineHtml.
    rewrite (endsWith_append _ nl), !sliceDropLast_nl.
    by rewrite Hblock.
Qed.

Lemma lineHtml_paragraph_witness :
  lineHtml ("<p>" +:+ "<strong>done</strong>" +:+ "</p>" +:+ nl)
  = (if JS.endsWith ">" "<strong>done</strong>"
     then "<strong>done</strong>" +:+ " " else "<strong>done</strong>")
  /\ forall block,
       JS.startsWith "<p>" block = false ->
       lineHtml (block +:+ nl)
       = if JS.endsWith ">" block then block +:+ " " else block.
Proof. apply (lineHtml_paragraph "<strong>done</strong>"). vm_compute. reflexivity. Defined.

(** X23.  The HTML that the Enter handler inserts never ends with a closing
    angle bracket. *)
Theorem lineHtml_no_trailing_tag (parsed : string) :
  JS.endsWith ">" (lineHtml parsed) = false.
Proof.
  unfold lineHtml.
  set (html1 := if JS.endsWith nl parsed then JS.sliceDropLast parsed else parsed).
  set (html2 := if JS.startsWith "<p>" html1 && JS.endsWith "</p>" html1
                   && negb (JS.includes "</p><p>" html1)
                then JS.substring 3 (String.length html1 - 4) html1 else html1).
  destruct (JS.endsWith ">" html2) eqn:E; [|done].
  by apply endsWith_other.
Qed.

(** ** Enter on a blank line *)

Lemma trimEnd_nonempty (c : ascii) (s : string) :
  JS.isWhiteSpace c = false -> JS.trimEnd (String c s) <> EmptyString.
Proof.
  intros Hc. simpl. destruct (JS.trimEnd s); [by rewrite Hc | done].
Qed.

Lemma trim_blank (c : ascii) (s : string) :
  JS.trim (String c s) = EmptyString -> JS.isWhiteSpace c = true.
Proof.
  unfold JS.trim. simpl. destruct (JS.isWhiteSpace c) eqn:Hc; [done|].
  intros H. by apply trimEnd_nonempty in H.
Qed.

(** X24.  The Enter handler leaves the key to the default handling, and
    calls no parser, whenever the cursor is not in a paragraph and whenever
    the paragraph is empty or holds white space only. *)
Theorem enterShortcut_blank (marked_parse : string -> string) (nodeType text : string) :
  nodeType <> "paragraph" \/ JS.trim text = EmptyString ->
  enterShortcut marked_parse nodeType text = Unhandled.
Proof.
  intros H. unfold enterShortcut.
  destruct (String.eqb_spec nodeType "codeBlock"); [done|].
  destruct (String.eqb_spec nodeType "paragraph") as [->|]; [|done]. cbn [negb].
  destruct H as [H | Hblank]; [done|].
  assert (taskMatch text = None) as ->.
  { destruct text as [|c s]; [done|]. apply trim_blank in Hblank.
    unfold taskMatch. destruct (Ascii.eqb_spec c "-") as [->|Hc]; [done|].
    destruct c as [[] [] [] [] [] [] [] []]; try done; by destruct s. }
  assert (codeBlockMatch text = None) as ->.
  { destruct text as [|c s]; [done|]. apply trim_blank in Hblank.
    unfold codeBlockMatch. unfold fence.
    destruct (Ascii.eqb_spec c "`") as [->|Hc]; [done|].
    rewrite (startsWith_other "`" c); [done|].
    by destruct (Ascii.eqb_spec c "`"). }
  by rewrite Hblank.
Qed.

Lemma enterShortcut_blank_witness :
  enterShortcut (fun s => s) "paragraph" ("  " +:+ tab) = Unhandled.
Proof. apply enterShortcut_blank. right. vm_compute. reflexivity. Defined.

(** ** HTML that the load passes leave alone *)

Section Untouched.

Lemma startsWith_drop_includes (p s : string) (k : nat) :
  JS.startsWith p (JS.drop k s) = true -> JS.includes p s = true.
Proof.
  revert s. induction k as [|k IH]; intros s H.
  - simpl in H. destruct s; simpl; by rewrite H.
  - destruct s as [|c s]; simpl in *.
    + by rewrite H.
    + rewrite (IH s H). apply orb_true_r.
Qed.

Lemma startsWith_prefix (a b s : string) :
  JS.startsWith (a +:+ b) s = true -> JS.startsWith a s = true.
Proof.
  rewrite !startsWith_spec. intros [r ->]. exists (b +:+ r). by rewrite append_assoc.
Qed.

Lemma replaceAll_no_match {R : Type} (matchAt : string -> option (R * string))
    (render : R -> string) (s : string) :
  (forall k, matchAt (JS.drop k s) = None) ->
  JS.replaceAll matchAt render O s = s.
Proof.
  intros Hnone. rewrite <- (append_nil_r s) at 1.
  rewrite replaceAll_quiet; [by rewrite append_nil_r|].
  intros k _. rewrite append_nil_r. apply Hnone.
Qed.

End Untouched.

(** X25.  HTML that holds neither two opening square brackets in a row nor
    the opening tags of a code block passes through the load passes
    unchanged. *)
Theorem loadPasses_untouched (html : string) :
  JS.includes "[[" html = false ->
  JS.includes "<pre><code" html = false ->
  loadPasses html = html.
Proof.
  intros Hwiki Hcode. unfold loadPasses, codeFencePass, wikiLinkPass.
  rewrite (replaceAll_no_match wikiLinkRegex).
  2:{ intros k. unfold wikiLinkRegex.
      destruct (JS.startsWith "[[" (JS.drop k html)) eqn:E; [|done].
      apply startsWith_drop_includes in E. congruence. }
  rewrite (replaceAll_no_match codeLangRegex).
  2:{ intros k. unfold codeLangRegex.
      destruct (JS.startsWith codeOpenLang (JS.drop k html)) eqn:E; [|done].
      apply (startsWith_prefix "<pre><code") in E.
      apply startsWith_drop_includes in E. congruence. }
  apply (replaceAll_no_match codePlainRegex).
  intros k. unfold codePlainRegex.
  destruct (JS.startsWith codeOpen (JS.drop k html)) eqn:E; [|done].
  apply (startsWith_prefix "<pre><code" ">") in E.
  apply startsWith_drop_includes in E. congruence.
Qed.

Lemma loadPasses_untouched_witness :
  loadPasses ("<p>See [the] <code>x</code></p>" +:+ nl)
  = "<p>See [the] <code>x</code></p>" +:+ nl.
Proof. apply loadPasses_untouched; vm_compute; reflexivity. Defined.

(** ** Attachments *)

Lemma find_snoc_some {A : Type} (p : A -> bool) (l : list A) (x : A) :
  p x = true -> exists y, List.find p (l ++ [x]) = Some y.
Proof.
  intros Hx. rewrite find_append. destruct (List.find p l) as [y|]; [by exists y|].
  exists x. simpl. by rewrite Hx.
Qed.

Lemma getAttachmentSrc_snoc (attachments : list Attachment) (a : Attachment)
    (u d : string) :
  getAttachmentSrc attachments u = Some d ->
  getAttachmentSrc (attachments ++ [a]) u = Some d.
Proof.
  unfold getAttachmentSrc. destruct (JS.startsWith "attachment://" u); [|done].
  rewrite find_append. by destruct (List.find _ attachments).
Qed.

(** X26.  When the id drawn for an uploaded file is not yet the id of an
    attachment, the locator that [handleFileUpload] returns resolves to the
    data of the file, and every locator that resolved before resolves as
    before.  The attachment lies in a folder named Attachments beside the
    active note; that folder is created if it is missing, and a second
    upload creates no further folder. *)
Theorem handleFileUpload_resolves (newFolderId attachmentId : string)
    (file : UploadedFile) (st : AppState) :
  Forall (fun a => attachment_id a <> attachmentId) (app_attachments st) ->
  let st' := (handleFileUpload newFolderId attachmentId file st).1 in
  let url := (handleFileUpload newFolderId attachmentId file st).2 in
  getAttachmentSrc (app_attachments st') url = Some (base64Data file)
  /\ (forall u d, getAttachmentSrc (app_attachments st) u = Some d ->
                  getAttachmentSrc (app_attachments st') u = Some d)
  /\ (exists f a, In f (app_folders st') /\ folder_name f = "Attachments"
                  /\ last (app_attachments st') = Some a
                  /\ attachment_id a = attachmentId
                  /\ attachment_folderId a = Some (folder_id f))
  /\ (exists created, map (fun f => (folder_id f, folder_name f, parentId f))
                          (app_folders st')
                      = map (fun f => (folder_id f, folder_name f, parentId f))
                            (app_folders st) ++ created
                      /\ (length created <= 1)%nat)
  /\ forall newFolderId' attachmentId' file',
       app_folders (handleFileUpload newFolderId' attachmentId' file' st').1
       = app_folders st'.
Proof.
  intros Hfresh st' url. unfold st', url, handleFileUpload. cbn [fst snd app_attachments
    app_folders app_notes activeNoteId].
  set (parentFolderId := match List.find _ (app_notes st) with
                         | Some n => note_folderId n
                         | None => None
                         end).
  set (isAttachments := fun f => String.eqb (folder_name f) "Attachments"
                                 && optEq (parentId f) parentFolderId).
  repeat apply conj.
  - unfold getAttachmentSrc, attachmentUrl.
    rewrite (startsWith_append "attachment://"), (replaceFirst_prefix "attachment://").
    rewrite find_append.
    destruct (List.find _ (app_attachments st)) as [a|] eqn:E.
    + apply find_some in E as [Hin Heq]. apply String.eqb_eq in Heq.
      eapply List.Forall_forall in Hfresh; [|exact Hin]. done.
    + simpl. by rewrite String.eqb_refl.
  - intros u d. apply getAttachmentSrc_snoc.
  - destruct (List.find isAttachments (app_folders st)) as [f|] eqn:E.
    + eexists f, _. apply find_some in E as [Hin Hf].
      apply andb_true_iff in Hf as [Hname _]. apply String.eqb_eq in Hname.
      repeat split; [done | done | apply last_snoc | done | done].
    + eexists _, _. repeat split; [| | apply last_snoc | done | done]; [|done].
      destruct (JS.truthyOpt parentFolderId); apply in_app_iff; right; by left.
  - destruct (List.find isAttachments (app_folders st)) as [f|].
    + exists []. rewrite app_nil_r. split; [done | simpl; lia].
    + exists [(newFolderId, "Attachments", parentFolderId)]. split; [|simpl; lia].
      destruct (JS.truthyOpt parentFolderId) as [p|]; rewrite map_app; [|done].
      f_equal. rewrite map_map. apply map_ext. intros f.
      by destruct (expandFolder_fields p f) as [-> [-> ->]].
  - intros newFolderId' attachmentId' file'.
    destruct (List.find isAttachments (app_folders st)) as [f|] eqn:E.
    + by rewrite E.
    + assert (isAttachments (mkFolder newFolderId "Attachments" parentFolderId (Some true))
              = true) as Hnew.
      { unfold isAttachments. simpl. by apply optEq_spec. }
      destruct (JS.truthyOpt parentFolderId) as [p|].
      * destruct (find_snoc_some isAttachments (map (expandFolder p) (app_folders st))
                    _ Hnew) as [y ->]. done.
      * destruct (find_snoc_some isAttachments (app_folders st) _ Hnew) as [y ->]. done.
Qed.

(** ** Renaming a note *)

Lemma getSubstitution_plain (matched preceding following template : string) :
  JS.forallb (fun c => negb (Ascii.eqb c "$")) template = true ->
  getSubstitution matched preceding following template = template.
Proof.
  induction template as [|c template IH]; [done|]. simpl JS.forallb.
  intros H. apply andb_true_iff in H as [Hc H].
  destruct (Ascii.eqb_spec c "$") as [->|Hne]; [done|].
  assert (getSubstitution matched preceding following (String c template)
          = String c (getSubstitution matched preceding following template)) as ->.
  { destruct c as [[] [] [] [] [] [] [] []]; try done. }
  by rewrite IH.
Qed.

Lemma replaceString_prefix (pattern replacement rest : string) :
  JS.forallb (fun c => negb (Ascii.eqb c "$")) replacement = true ->
  replaceString pattern replacement EmptyString (pattern +:+ rest)
  = replacement +:+ rest.
Proof.
  intros Hplain.
  assert (forall s, replaceString pattern replacement EmptyString s
                    = if JS.startsWith pattern s
                      then getSubstitution pattern EmptyString
                             (JS.drop (String.length pattern) s) replacement
                           +:+ JS.drop (String.length pattern) s
                      else match s with
                           | EmptyString => EmptyString
                           | String c s' =>
                               String c (replaceString pattern replacement
                                           (EmptyString +:+ String c EmptyString) s')
                           end) as Hunfold by (by intros []).
  rewrite Hunfold, startsWith_append, drop_append.
  by rewrite getSubstitution_plain.
Qed.

(** X27.  Renaming a note to a name without dollar sign, when the content of
    the note opens with the heading of its title, rewrites that heading: the
    renamed note carries the trimmed name as title, its content opens with
    the heading of the new title and is otherwise as before.  The other notes
    and the folders are untouched. *)
Theorem handleRenameItem_heading (id newName : string) (folders : list Folder)
    (notes : list Note) (n : Note) (rest : string) :
  JS.trim newName <> EmptyString ->
  JS.forallb (fun c => negb (Ascii.eqb c "$")) (JS.trim newName) = true ->
  findFolder folders id = None ->
  List.find (fun m => String.eqb (note_id m) id) notes = Some n ->
  note_content n = "# " +:+ note_title n +:+ rest ->
  let state := handleRenameItem id newName folders notes in
  state.1 = folders
  /\ map note_id state.2 = map note_id notes
  /\ (forall m, In m state.2 -> note_id m = id ->
        note_title m = JS.trim newName
        /\ note_content m = "# " +:+ JS.trim newName +:+ rest
        /\ headingInSync m)
  /\ (forall m, note_id m <> id -> In m state.2 <-> In m notes).
Proof.
  intros Hname Hplain Hfolder Hnote Hcontent state.
  assert (state = (folders,
                   map (updateContent id ("# " +:+ JS.trim newName +:+ rest))
                       (map (updateTitle id (JS.trim newName)) notes))) as ->.
  { unfold state, handleRenameItem.
    assert (JS.truthy (JS.trim newName) = true) as Htrim.
    { by destruct (JS.trim newName). }
    assert (JS.truthy newName = true) as Hnew.
    { destruct newName; [|done]. by vm_compute in Hname. }
    rewrite Htrim, Hnew, Hfolder, Hnote. cbn [negb orb].
    rewrite Hcontent, <- (append_assoc "# " (note_title n) rest).
    rewrite startsWith_append, replaceString_prefix.
    - by rewrite append_assoc.
    - change ("# " +:+ JS.trim newName) with (String "#" (String " " (JS.trim newName))).
      by simpl. }
  cbn [fst snd]. repeat apply conj.
  - done.
  - rewrite !map_map. apply map_ext. intros m. unfold updateContent, updateTitle.
    destruct (String.eqb (note_id m) id) eqn:E; simpl; by rewrite ?E.
  - intros m Hm Hid. apply in_map_iff in Hm as [m1 [<- Hm1]].
    apply in_map_iff in Hm1 as [m0 [<- Hm0]].
    unfold updateContent, updateTitle in *.
    destruct (String.eqb_spec (note_id m0) id) as [Heq|Hne]; simpl in *.
    + rewrite Heq, String.eqb_refl. simpl. repeat split; [done..|].
      by exists rest.
    + destruct (String.eqb_spec (note_id m0) id); done.
  - intros m Hid. rewrite map_map, in_map_iff. split.
    + intros [m0 [<- Hm0]]. unfold updateContent, updateTitle in *.
      destruct (String.eqb_spec (note_id m0) id) as [Heq|Hne]; simpl in *.
      * rewrite Heq, String.eqb_refl in Hid. simpl in Hid. congruence.
      * by destruct (String.eqb_spec (note_id m0) id).
    + intros Hm. exists m. split; [|done]. unfold updateContent, updateTitle.
      destruct (String.eqb_spec (note_id m) id); [done|]. simpl.
      by destruct (String.eqb_spec (note_id m) id).
Qed.

(** ** Moves that are carried out *)

(** X28.  In a folder tree, a move of a folder to a target other than itself
    whose parent chain does not pass through the folder is carried out: the
    folder then sits in the target, every other folder keeps its parent, and
    ids, names and order of the folders are as before.  If the target is a
    folder of the state, or the root, every reference stays resolvable. *)
Theorem handleMoveFolder_moves (folders : list Folder) (notes : list Note)
    (F : string) (t : option string) :
  cycleFree folders ->
  t <> Some F ->
  (forall T, JS.truthyOpt t = Some T -> ~ chainPassesThrough folders T F) ->
  exists folders',
    handleMoveFolder folders F t = Some folders'
    /\ (In F (map folder_id folders) -> parentOf folders' F = t)
    /\ (forall a, a <> F -> parentOf folders' a = parentOf folders a)
    /\ map (fun f => (folder_id f, folder_name f, collapsed f)) folders'
       = map (fun f => (folder_id f, folder_name f, collapsed f)) folders
    /\ (referencesResolve folders notes ->
        (forall T, JS.truthyOpt t = Some T -> In T (map folder_id folders)) ->
        referencesResolve folders' notes).
Proof.
  intros Hfree Hne Hchain. unfold handleMoveFolder.
  destruct (decide (Some F = t)) as [Heq|_]; [congruence|].
  pose proof (isDescendantLoop_exits folders F t Hfree) as Hexit.
  destruct (isDescendantLoop _ folders F t) as [[|]|] eqn:Hloop; [| |done].
  { apply isDescendantLoop_true in Hloop as [T [HT Hrtc]]. by apply Hchain in Hrtc. }
  assert (map folder_id (map (setParent F t) folders) = map folder_id folders) as Hids.
  { rewrite map_map. apply map_ext. intros f. apply folder_id_setParent. }
  eexists. split; [done|]. repeat apply conj.
  - intros HF. rewrite parentOf_setParent, String.eqb_refl.
    destruct (List.find _ folders) as [f|] eqn:E; [done|].
    apply in_map_iff in HF as [f [Hid Hf]].
    eapply find_none in E; [|exact Hf]. rewrite Hid, String.eqb_refl in E. done.
  - intros a Ha. rewrite parentOf_setParent.
    by destruct (String.eqb_spec a F).
  - rewrite map_map. apply map_ext. intros f. unfold setParent.
    by destruct (String.eqb (folder_id f) F).
  - intros [Hfolders Hnotes] Htarget. split.
    + apply Forall_forall. intros f Hf p Hp. apply list_elem_of_In in Hf.
      apply in_map_iff in Hf as [g [<- Hg]]. rewrite Hids.
      rewrite parentId_setParent in Hp.
      destruct (String.eqb (folder_id g) F); [by apply Htarget|].
      eapply List.Forall_forall in Hfolders; [|exact Hg]. by apply Hfolders.
    + rewrite Hids. done.
Qed.

(** ** The effect after the editor's own update *)

(** X29.  When the markdown that the editor has just serialised comes back as
    the incoming markdown, the effect resets nothing, unless the editor
    reports an empty document for a markdown that is not empty. *)
Theorem syncEffect_echo {Editor : Type} (marked_parse : string -> string)
    (getHTML : Editor -> string) (isEmpty : Editor -> bool)
    (setContent : string -> Editor -> Editor)
    (turndown : TurndownOptions -> list Rule -> string -> string) (ed : Editor) :
  let content := serialize getHTML turndown ed in
  (syncEffect marked_parse getHTML isEmpty turndown (Some ed) content = NoReset
   <-> ~ (isEmpty ed = true /\ content <> EmptyString))
  /\ (isEmpty ed = false ->
      afterSync marked_parse getHTML isEmpty setContent turndown ed content = ed).
Proof.
  intros content. unfold afterSync, syncEffect. fold (serialize getHTML turndown ed).
  fold content. rewrite Z.sub_diag. cbn [Z.abs Z.ltb Z.compare]. rewrite orb_false_r.
  destruct content as [|c s] eqn:E; cbn [JS.truthy].
  - split; [|done]. split; [by intros _ [_ H] | done].
  - destruct (isEmpty ed); cbn [applySync].
    + split; [|done]. split; [done|]. intros H. exfalso. apply H. by split.
    + split; [|done]. split; [by intros _ [H _] | done].
Qed.

(** ** What the toolbar inserts *)

Section Toolbar.

Variable marked_parse : string -> string.

Lemma trim_nonblank (c : ascii) (s : string) :
  JS.isWhiteSpace c = false -> JS.truthy (JS.trim (String c s)) = true.
Proof.
  intros Hc. unfold JS.trim. cbn [JS.trimStart]. rewrite Hc.
  pose proof (trimEnd_nonempty c s Hc) as H.
  by destruct (JS.trimEnd (String c s)).
Qed.

(** A paragraph that opens with a character other than white space and that
    the markdown test accepts is not left to the default handling. *)
Lemma enterShortcut_markdown (c : ascii) (s : string) :
  JS.isWhiteSpace c = false ->
  isMarkdown (String c s) = true ->
  enterShortcut marked_parse "paragraph" (String c s) <> Unhandled.
Proof.
  intros Hc Hmd. unfold enterShortcut.
  change (String.eqb "paragraph" "codeBlock") with false.
  change (String.eqb "paragraph" "paragraph") with true. cbv beta iota.
  change (negb true) with false. cbv iota.
  destruct (taskMatch (String c s)) as [[flag content]|]; [done|].
  destruct (codeBlockMatch (String c s)); [done|].
  by rewrite (trim_nonblank c s Hc), Hmd.
Qed.

End Toolbar.

(** X30.  Pressing Enter in a paragraph whose text begins with what a toolbar
    button other than the underline button has inserted is never left to the
    default handling: the line is turned into a task item or a code block,
    or parsed. *)
Theorem insertFormat_parsed_on_Enter (marked_parse : string -> string)
    (prefix suffix : string) (selection : option string) (content : string)
    (back : nat) (rest : string) :
  insertFormat prefix suffix selection = Some (content, back) ->
  prefix <> "<u>" ->
  enterShortcut marked_parse "paragraph" (content +:+ rest) <> Unhandled.
Proof.
  unfold insertFormat. intros Hinsert Hu.
  destruct (List.existsb (String.eqb prefix) inlineMarkers) eqn:Einline.
  - apply existsb_exists in Einline as [p [Hp Heq]]. apply String.eqb_eq in Heq as <-.
    assert (exists tail, content = prefix +:+ tail) as [tail ->].
    { destruct selection as [text|]; inversion Hinsert; by eexists. }
    rewrite append_assoc.
    clear Hinsert. simpl in Hp.
    repeat (destruct Hp as [Hp|Hp];
            [subst prefix; try (by destruct Hu); string_append;
             by apply enterShortcut_markdown|]).
    done.
  - destruct (List.existsb (String.eqb prefix) blockPrefixes) eqn:Eblock; [|done].
    apply existsb_exists in Eblock as [p [Hp Heq]]. apply String.eqb_eq in Heq as <-.
    inversion Hinsert; subst. clear Hinsert. simpl in Hp.
    repeat (destruct Hp as [Hp|Hp];
            [subst content; string_append;
             apply enterShortcut_markdown;
             [reflexivity | apply orb_true_iff; right; reflexivity]|]).
    done.
Qed.

Lemma insertFormat_parsed_on_Enter_witness :
  enterShortcut (fun s => s) "paragraph" (("**" +:+ "bold" +:+ "**") +:+ " text")
  <> Unhandled.
Proof.
  apply (insertFormat_parsed_on_Enter (fun s => s) "**" "**" (Some "bold")
           ("**" +:+ "bold" +:+ "**") O " text").
  - vm_compute. reflexivity.
  - discriminate.
Defined.

(** ** The properties on the example state *)

Lemma handleDeleteFolder_keeps_tree_witness :
  let st' := handleDeleteFolder "p" exampleState in
  cycleFree (app_folders st')
  /\ referencesResolve (app_folders st') (app_notes st')
  /\ Forall2 (fun n n' =>
               note_id n' = note_id n /\ note_title n' = note_title n
               /\ note_content n' = note_content n
               /\ note_folderId n'
                  = if strictEq (note_folderId n) "p" then None else note_folderId n)
            (app_notes exampleState) (app_notes st')
  /\ Forall2 (fun f f' =>
               folder_id f' = folder_id f /\ folder_name f' = folder_name f
               /\ collapsed f' = collapsed f
               /\ parentId f'
                  = if strictEq (parentId f) "p" then None else parentId f)
            (List.filter (fun f => negb (String.eqb (folder_id f) "p"))
                         (app_folders exampleState))
            (app_folders st')
  /\ (forall x, x <> "p" -> parentOf (app_folders exampleState) x = Some "p" ->
                parentOf (app_folders st') x = None)
  /\ (forall x, x <> "p" -> parentOf (app_folders exampleState) x <> Some "p" ->
                parentOf (app_folders st') x = parentOf (app_folders exampleState) x).
Proof.
  apply (handleDeleteFolder_keeps_tree "p" exampleState).
  - apply cycleFreeb_sound. vm_compute. reflexivity.
  - split; apply List.Forall_forall; intros f Hf q Hq; simpl in Hf;
      repeat (destruct Hf as [<- | Hf];
              [vm_compute in Hq; try done; inversion Hq; subst; simpl; tauto|]);
      done.
Defined.

Lemma handleDeleteSelected_keeps_tree_witness :
  let st' := handleDeleteSelected exampleState in
  cycleFree (app_folders st')
  /\ NoDup (map folder_id (app_folders st'))
  /\ selectedIds st' = ∅
  /\ (forall n, In n (app_notes st') <->
        In n (app_notes exampleState) /\ (note_id n ∉ selectedIds exampleState)
        /\ forall c, note_folderId n = Some c -> c ∉ selectedIds exampleState)
  /\ (forall f, In f (app_folders st') <->
        In f (app_folders exampleState) /\ (folder_id f ∉ selectedIds exampleState)
        /\ forall c, parentId f = Some c -> c ∉ selectedIds exampleState)
  /\ (forall a, In a (app_attachments st') <->
        In a (app_attachments exampleState)
        /\ (attachment_id a ∉ selectedIds exampleState)
        /\ forall c, attachment_folderId a = Some c -> c ∉ selectedIds exampleState)
  /\ sublist (app_notes st') (app_notes exampleState)
  /\ sublist (app_folders st') (app_folders exampleState)
  /\ sublist (app_attachments st') (app_attachments exampleState).
Proof.
  apply (handleDeleteSelected_keeps_tree exampleState).
  - apply (bool_decide_unpack (NoDup _)). vm_compute. reflexivity.
  - apply cycleFreeb_sound. vm_compute. reflexivity.
Defined.

Lemma handleDeleteNote_consistent_witness :
  let st' := handleDeleteNote "n" exampleState in
  tabsResolve st'
  /\ ~ In "n" (map note_id (app_notes st'))
  /\ ~ In "n" (openNoteIds st')
  /\ (activeNoteId st' = "n" -> "n" = EmptyString)
  /\ sublist (app_notes st') (app_notes exampleState).
Proof.
  apply (handleDeleteNote_consistent "n" exampleState).
  split; [repeat constructor; simpl; tauto | right; simpl; tauto].
Defined.

Lemma handleItemClick_toggle_witness :
  let st' := handleItemClick exampleVisible "a" (Some ctrlClick) NoteItem exampleState in
  ("a" ∈ selectedIds st' <-> "a" ∉ selectedIds exampleState)
  /\ (forall x, x <> "a" -> x ∈ selectedIds st' <-> x ∈ selectedIds exampleState)
  /\ selectedIds (handleItemClick exampleVisible "a" (Some ctrlClick) NoteItem st')
     = selectedIds exampleState.
Proof.
  apply (handleItemClick_toggle exampleVisible "a" ctrlClick NoteItem exampleState).
  reflexivity.
Defined.

Lemma handleItemClick_range_witness :
  let st' := handleItemClick exampleVisible "a" (Some shiftClick) NoteItem exampleState in
  let anchor := anchorOf exampleVisible exampleState in
  "a" ∈ selectedIds st'
  /\ (shiftKey shiftClick = false -> selectedIds st' = {[ "a" ]})
  /\ (shiftKey shiftClick = true ->
      ~ (In anchor exampleVisible /\ In "a" exampleVisible) ->
      selectedIds st' = {[ "a" ]})
  /\ (shiftKey shiftClick = true -> In anchor exampleVisible -> In "a" exampleVisible ->
      exists pre range post,
        exampleVisible = pre ++ range ++ post
        /\ selectedIds st' = list_to_set range
        /\ (head range = Some "a" /\ last range = Some anchor
            \/ head range = Some anchor /\ last range = Some "a")).
Proof.
  apply (handleItemClick_range exampleVisible "a" shiftClick NoteItem exampleState).
  reflexivity.
Defined.

Lemma handleWikiLinkClick_agrees_with_graph_witness :
  (forall e, wikiLinkHandler "Plan" = Some e -> handleClick (renderHTML e) = Some "Plan")
  /\ match handleWikiLinkClick exampleVisible "new" false "Plan" false exampleState with
     | OpenExisting st' =>
         noteTitleToIdMap (app_notes exampleState) !! targetTitle "Plan"
         = Some (activeNoteId st')
         /\ app_notes st' = app_notes exampleState
     | CreateNow st' | AskCreate st' =>
         noteTitleToIdMap (app_notes exampleState) !! targetTitle "Plan" = None
         /\ exists n, app_notes st' = n :: app_notes exampleState /\ note_title n = "Plan"
                      /\ note_id n = "new" /\ activeNoteId st' = "new"
     end.
Proof.
  apply (handleWikiLinkClick_agrees_with_graph exampleVisible "new" false "Plan" false
           exampleState).
  - apply (bool_decide_unpack (NoDup _)). vm_compute. reflexivity.
  - vm_compute. reflexivity.
Defined.

Lemma handleKeyDown_arrows_witness :
  let len := Z.of_nat (length (filteredActions examplePalette "new")) in
  let down := (handleKeyDown examplePalette "new" (Some 1) ArrowDown).1 in
  let up := (handleKeyDown examplePalette "new" (Some 1) ArrowUp).1 in
  down = Some (if 1 =? len - 1 then 0 else 1 + 1)
  /\ up = Some (if 1 =? 0 then len - 1 else 1 - 1)
  /\ (handleKeyDown examplePalette "new" down ArrowUp).1 = Some 1
  /\ (handleKeyDown examplePalette "new" up ArrowDown).1 = Some 1.
Proof.
  apply (handleKeyDown_arrows examplePalette "new" 1).
  change (0 <= 1 < 2). lia.
Defined.

Lemma handleFileUpload_resolves_witness :
  let st' := (handleFileUpload "f1" "att1" exampleFile exampleState).1 in
  let url := (handleFileUpload "f1" "att1" exampleFile exampleState).2 in
  getAttachmentSrc (app_attachments st') url = Some (base64Data exampleFile)
  /\ (forall u d, getAttachmentSrc (app_attachments exampleState) u = Some d ->
                  getAttachmentSrc (app_attachments st') u = Some d)
  /\ (exists f a, In f (app_folders st') /\ folder_name f = "Attachments"
                  /\ last (app_attachments st') = Some a
                  /\ attachment_id a = "att1"
                  /\ attachment_folderId a = Some (folder_id f))
  /\ (exists created, map (fun f => (folder_id f, folder_name f, parentId f))
                          (app_folders st')
                      = map (fun f => (folder_id f, folder_name f, parentId f))
                            (app_folders exampleState) ++ created
                      /\ (length created <= 1)%nat)
  /\ forall newFolderId' attachmentId' file',
       app_folders (handleFileUpload newFolderId' attachmentId' file' st').1
       = app_folders st'.
Proof.
  apply (handleFileUpload_resolves "f1" "att1" exampleFile exampleState).
  constructor.
Defined.

Lemma handleRenameItem_heading_witness :
  let state := handleRenameItem "h" "  New name " folderTree [noteOld; noteA] in
  state.1 = folderTree
  /\ map note_id state.2 = map note_id [noteOld; noteA]
  /\ (forall m, In m state.2 -> note_id m = "h" ->
        note_title m = JS.trim "  New name "
        /\ note_content m = "# " +:+ JS.trim "  New name " +:+ (nl +:+ nl +:+ "body")
        /\ headingInSync m)
  /\ (forall m, note_id m <> "h" -> In m state.2 <-> In m [noteOld; noteA]).
Proof.
  apply (handleRenameItem_heading "h" "  New name " folderTree [noteOld; noteA] noteOld
           (nl +:+ nl +:+ "body")).
  - vm_compute. discriminate.
  - vm_compute. reflexivity.
  - vm_compute. reflexivity.
  - vm_compute. reflexivity.
  - vm_compute. reflexivity.
Defined.

Lemma handleMoveFolder_moves_witness :
  exists folders',
    handleMoveFolder folderTree "x" (Some "w") = Some folders'
    /\ (In "x" (map folder_id folderTree) -> parentOf folders' "x" = Some "w")
    /\ (forall a, a <> "x" -> parentOf folders' a = parentOf folderTree a)
    /\ map (fun f => (folder_id f, folder_name f, collapsed f)) folders'
       = map (fun f => (folder_id f, folder_name f, collapsed f)) folderTree
    /\ (referencesResolve folderTree [notePlan] ->
        (forall T, JS.truthyOpt (Some "w") = Some T -> In T (map folder_id folderTree)) ->
        referencesResolve folders' [notePlan]).
Proof.
  apply (handleMoveFolder_moves folderTree [notePlan] "x" (Some "w")).
  - apply cycleFreeb_sound. vm_compute. reflexivity.
  - discriminate.
  - intros T [= <-] Hrtc. apply rtc_inv in Hrtc as [Heq | [d [Hd _]]]; [done|].
    vm_compute in Hd. discriminate.
Defined.

(** ** Wiki links and code fences through the editor *)

Ltac ascii_cases :=
  let c := fresh "c" in
  intros c; destruct c as [[] [] [] [] [] [] [] []]; by vm_compute.

Lemma proseChar_class :
  forall c, proseChar c = true ->
    linkChar c = true /\ plainChar c = true /\ negb (Ascii.eqb c "[") = true.
Proof. ascii_cases. Qed.

Lemma linkChar_class :
  forall c, linkChar c = true ->
    JS.notLineTerminator c = true /\ negb (Ascii.eqb c "]") = true
    /\ textChar c = true /\ notChar dqChar c = true.
Proof. ascii_cases. Qed.

Lemma isLetter_class :
  forall c, isLetter c = true -> langChar c = true /\ notChar dqChar c = true.
Proof. ascii_cases. Qed.

Lemma codeChar_class :
  forall c, codeChar c = true -> textChar c = true /\ notChar "<" c = true.
Proof. ascii_cases. Qed.

Lemma textChar_notChar (s : string) :
  JS.forallb textChar s = true -> JS.forallb (notChar "<") s = true.
Proof. apply forallb_impl. intros c. done. Qed.

Lemma proseChar_textChar (s : string) :
  JS.forallb proseChar s = true -> JS.forallb textChar s = true.
Proof.
  apply forallb_impl. intros c Hc.
  destruct (proseChar_class c Hc) as (Hl & _ & _).
  by destruct (linkChar_class c Hl) as (_ & _ & Ht & _).
Qed.

Lemma linkChar_textChar (s : string) :
  JS.forallb linkChar s = true -> JS.forallb textChar s = true.
Proof.
  apply forallb_impl. intros c Hc.
  by destruct (linkChar_class c Hc) as (_ & _ & Ht & _).
Qed.

(** *** The [wikiLinks] rule on a link element *)

Lemma wikiLinks_node (target content : string) (node : DomElement) :
  nodeName node = "A" ->
  getAttribute node "href" = Some ("wiki:" +:+ target) ->
  filter wikiLinks node = true
  /\ replacement wikiLinks content node = "[[" +:+ target +:+ "]]".
Proof.
  intros Hname Hhref. unfold wikiLinks. cbn [filter replacement].
  rewrite Hname, Hhref. split.
  - by rewrite startsWith_append.
  - change (JS.truthyOpt (Some ("wiki:" +:+ target))) with (Some ("wiki:" +:+ target)).
    cbv beta iota zeta.
    by rewrite (replaceFirst_prefix "wiki:" target).
Qed.

Lemma wikiLinks_accepts_links :
  Forall (fun rule => forall node, filter rule node = true -> nodeName node = "A")
    [wikiLinks].
Proof.
  apply List.Forall_cons; [|apply List.Forall_nil]. intros node. unfold wikiLinks. cbn [filter].
  rewrite andb_true_iff. intros [Hname _]. by apply String.eqb_eq.
Qed.

(** *** The load passes on a paragraph with one wiki link *)

Lemma wikiAnchor_linkHtml (inner : string) :
  wikiAnchor inner = linkHtml ("wiki:" +:+ inner) inner.
Proof. unfold wikiAnchor, linkHtml. by rewrite !append_assoc. Qed.

Lemma quiet_codeLangRegex_text (a b : string) :
  JS.forallb textChar a = true -> Quiet codeLangRegex a b.
Proof. apply (quiet_chars _ _ _ _ plainChar_codeLangRegex). Qed.

Lemma quiet_codePlainRegex_text (a b : string) :
  JS.forallb textChar a = true -> Quiet codePlainRegex a b.
Proof. apply (quiet_chars _ _ _ _ plainChar_codePlainRegex). Qed.

Ltac quiet_markup :=
  repeat (apply quiet_cons; [reflexivity|]); apply quiet_nil.

Lemma quiet_codeLangRegex_paragraph (pre href text post : string) :
  JS.forallb textChar pre = true -> JS.forallb textChar href = true ->
  JS.forallb textChar text = true -> JS.forallb textChar post = true ->
  Quiet codeLangRegex (linkParagraph pre href text post) EmptyString.
Proof.
  intros Hpre Hhref Htext Hpost. unfold linkParagraph, linkHtml.
  rewrite <- !append_assoc. rewrite !append_assoc.
  apply (quiet_app _ "<p>"); [quiet_markup|].
  apply (quiet_app _ pre); [by apply quiet_codeLangRegex_text|].
  apply (quiet_app _ ("<a href=" +:+ dq)); [vm_compute ("<a href=" +:+ dq); quiet_markup|].
  apply (quiet_app _ href); [by apply quiet_codeLangRegex_text|].
  apply (quiet_app _ (dq +:+ " class=" +:+ dq +:+ "wiki-link" +:+ dq +:+ ">")).
  { vm_compute (dq +:+ " class=" +:+ dq +:+ "wiki-link" +:+ dq +:+ ">"). quiet_markup. }
  apply (quiet_app _ text); [by apply quiet_codeLangRegex_text|].
  apply (quiet_app _ "</a>"); [quiet_markup|].
  apply (quiet_app _ post); [by apply quiet_codeLangRegex_text|].
  vm_compute ("</p>" +:+ nl). quiet_markup.
Qed.

Lemma quiet_codePlainRegex_paragraph (pre href text post : string) :
  JS.forallb textChar pre = true -> JS.forallb textChar href = true ->
  JS.forallb textChar text = true -> JS.forallb textChar post = true ->
  Quiet codePlainRegex (linkParagraph pre href text post) EmptyString.
Proof.
  intros Hpre Hhref Htext Hpost. unfold linkParagraph, linkHtml.
  rewrite <- !append_assoc. rewrite !append_assoc.
  apply (quiet_app _ "<p>"); [quiet_markup|].
  apply (quiet_app _ pre); [by apply quiet_codePlainRegex_text|].
  apply (quiet_app _ ("<a href=" +:+ dq)); [vm_compute ("<a href=" +:+ dq); quiet_markup|].
  apply (quiet_app _ href); [by apply quiet_codePlainRegex_text|].
  apply (quiet_app _ (dq +:+ " class=" +:+ dq +:+ "wiki-link" +:+ dq +:+ ">")).
  { vm_compute (dq +:+ " class=" +:+ dq +:+ "wiki-link" +:+ dq +:+ ">"). quiet_markup. }
  apply (quiet_app _ text); [by apply quiet_codePlainRegex_text|].
  apply (quiet_app _ "</a>"); [quiet_markup|].
  apply (quiet_app _ post); [by apply quiet_codePlainRegex_text|].
  vm_compute ("</p>" +:+ nl). quiet_markup.
Qed.

Lemma codeFencePass_paragraph (pre href text post : string) :
  JS.forallb textChar pre = true -> JS.forallb textChar href = true ->
  JS.forallb textChar text = true -> JS.forallb textChar post = true ->
  codeFencePass (linkParagraph pre href text post) = linkParagraph pre href text post.
Proof.
  intros Hpre Hhref Htext Hpost. unfold codeFencePass.
  rewrite <- (append_nil_r (linkParagraph pre href text post)) at 1.
  rewrite replaceAll_quiet by by apply quiet_codeLangRegex_paragraph.
  change (JS.replaceAll codeLangRegex _ 0 EmptyString) with EmptyString.
  rewrite replaceAll_quiet by by apply quiet_codePlainRegex_paragraph.
  apply append_nil_r.
Qed.

(** The passes turn the one wiki link of a paragraph into an anchor whose
    [href] is the text between the brackets after [wiki:], and change
    nothing else. *)
Lemma loadPasses_paragraph (pre inner post : string) :
  JS.forallb proseChar pre = true -> JS.forallb linkChar inner = true ->
  JS.forallb proseChar post = true ->
  loadPasses ("<p>" +:+ (pre +:+ "[[" +:+ inner +:+ "]]" +:+ post) +:+ "</p>" +:+ nl)
  = linkParagraph pre ("wiki:" +:+ inner) inner post.
Proof.
  intros Hpre Hinner Hpost. unfold loadPasses.
  assert (wikiLinkPass
            ("<p>" +:+ (pre +:+ "[[" +:+ inner +:+ "]]" +:+ post) +:+ "</p>" +:+ nl)
          = linkParagraph pre ("wiki:" +:+ inner) inner post) as ->.
  { rewrite !append_assoc. rewrite <- (append_assoc "<p>" pre).
    rewrite wikiLinkPass_token.
    - unfold linkParagraph. rewrite wikiAnchor_linkHtml, !append_assoc.
      do 3 f_equal. unfold wikiLinkPass.
      rewrite replaceAll_quiet; [done|].
      apply (quiet_chars _ _ _ _ plainChar_wikiLinkRegex).
      revert Hpost. apply forallb_impl. intros c Hc.
      by destruct (proseChar_class c Hc) as (_ & _ & H).
    - rewrite forallb_append. apply andb_true_iff. split; [done|].
      revert Hpre. apply forallb_impl. intros c Hc.
      by destruct (proseChar_class c Hc) as (_ & _ & H).
    - revert Hinner. apply forallb_impl. intros c Hc.
      by destruct (linkChar_class c Hc) as (H & _).
    - revert Hinner. apply forallb_impl. intros c Hc.
      by destruct (linkChar_class c Hc) as (_ & H & _). }
  apply codeFencePass_paragraph.
  - by apply proseChar_textChar.
  - rewrite forallb_append. apply andb_true_iff. split; [done|].
    by apply linkChar_textChar.
  - by apply linkChar_textChar.
  - by apply proseChar_textChar.
Qed.

(** ** Wiki-link fidelity *)

Section Converter.

Context {Editor : Type}.
Variable marked_parse : string -> string.
Variable getHTML : Editor -> string.
Variable setContent : string -> Editor -> Editor.
Variable turndown : TurndownOptions -> list Rule -> string -> string.

Local Abbreviation serialize := (serialize getHTML turndown).
Local Abbreviation parse := (parse marked_parse setContent).
Local Abbreviation loadHtml := (loadHtml marked_parse).


End Converter.

(** ** Code fences *)

Lemma isLetter_langChar (lang : string) :
  JS.forallb isLetter lang = true -> JS.forallb langChar lang = true.
Proof.
  apply forallb_impl. intros c Hc. by destruct (isLetter_class c Hc) as [H _].
Qed.

Lemma codeChar_textChar (body : string) :
  JS.forallb codeChar body = true -> JS.forallb textChar body = true.
Proof.
  apply forallb_impl. intros c Hc. by destruct (codeChar_class c Hc) as [H _].
Qed.

Section CodeFenceRoundTrip.

Context {Editor : Type}.
Variable marked_parse : string -> string.
Variable getHTML : Editor -> string.
Variable setContent : string -> Editor -> Editor.
Variable turndown : TurndownOptions -> list Rule -> string -> string.

Local Abbreviation serialize := (serialize getHTML turndown).
Local Abbreviation parse := (parse marked_parse setContent).
Local Abbreviation loadHtml := (loadHtml marked_parse).
Local Abbreviation roundTripStep :=
  (roundTripStep marked_parse getHTML setContent turndown).


End CodeFenceRoundTrip.

(** ** The stand-ins obey the laws *)

Lemma stripPrefix_append (p r : string) : stripPrefix p (p +:+ r) = Some r.
Proof. unfold stripPrefix. by rewrite startsWith_append, drop_append. Qed.

Lemma upTo_from (c : ascii) (a rest : string) :
  JS.forallb (notChar c) a = true ->
  upTo c (a +:+ String c rest) = a /\ from c (a +:+ String c rest) = String c rest.
Proof.
  intros Ha. unfold upTo, from.
  rewrite (span_forallb (notChar c) a c rest Ha).
  - by rewrite take_append, drop_append.
  - unfold notChar. by rewrite Ascii.eqb_refl.
Qed.

Lemma linkParagraph_shape (pre href text post : string) :
  linkParagraph pre href text post
  = "<p>" +:+ pre +:+ String "<" ("a href=" +:+ dq +:+ href +:+ String dqChar
      ((" class=" +:+ dq +:+ "wiki-link" +:+ dq +:+ ">") +:+ text +:+ String "<"
         ("/a>" +:+ post +:+ String "<" ("/p>" +:+ nl)))).
Proof. unfold linkParagraph, linkHtml. rewrite !append_assoc. reflexivity. Qed.

Lemma miniTurndown_link (options : TurndownOptions) (rules : list Rule)
    (pre href text post : string) :
  JS.forallb (notChar "<") pre = true -> JS.forallb (notChar dqChar) href = true ->
  JS.forallb (notChar "<") text = true -> JS.forallb (notChar "<") post = true ->
  miniTurndown options rules (linkParagraph pre href text post)
  = pre +:+ convertElement rules text (renderHTML (mkWikiLinkEntity text (Some href)))
    +:+ post.
Proof.
  intros Hpre Hhref Htext Hpost. rewrite linkParagraph_shape.
  set (r3 := "/p>" +:+ nl).
  set (r2 := "/a>" +:+ post +:+ String "<" r3).
  set (r1 := (" class=" +:+ dq +:+ "wiki-link" +:+ dq +:+ ">") +:+ text +:+ String "<" r2).
  set (r0 := "a href=" +:+ dq +:+ href +:+ String dqChar r1).
  unfold miniTurndown. rewrite stripPrefix_append. unfold miniParagraph.
  destruct (upTo_from "<" pre r0 Hpre) as [-> ->].
  change (String "<" r0) with (("<a href=" +:+ dq) +:+ href +:+ String dqChar r1).
  rewrite stripPrefix_append.
  destruct (upTo_from dqChar href r1 Hhref) as [-> ->].
  change (String dqChar r1)
    with ((dq +:+ " class=" +:+ dq +:+ "wiki-link" +:+ dq +:+ ">") +:+ text +:+ String "<" r2).
  rewrite stripPrefix_append.
  destruct (upTo_from "<" text r2 Htext) as [-> ->].
  change (String "<" r2) with ("</a>" +:+ post +:+ String "<" r3).
  rewrite stripPrefix_append.
  destruct (upTo_from "<" post r3 Hpost) as [-> ->].
  change (String.eqb (String "<" r3) ("</p>" +:+ nl)) with true.
  done.
Qed.

Lemma miniTurndown_linkLaw :
  linkLaw (fun html : string => html) miniSetContent miniTurndown.
Proof.
  intros options rule rules ed pre target text post Hpre Htarget Htext Hpost.
  exists (renderHTML (mkWikiLinkEntity text (Some ("wiki:" +:+ target)))), text.
  split; [done|]. split; [done|]. intros Hfilter.
  unfold miniSetContent. rewrite miniTurndown_link.
  - unfold convertElement. cbn [List.find]. by rewrite Hfilter.
  - apply textChar_notChar, proseChar_textChar, Hpre.
  - rewrite forallb_append. apply andb_true_iff. split; [done|].
    destruct Htarget as [Hchars _]. revert Hchars. apply forallb_impl. intros c Hc.
    by destruct (linkChar_class c Hc) as (_ & _ & _ & H).
  - apply textChar_notChar, linkChar_textChar, Htext.
  - apply textChar_notChar, proseChar_textChar, Hpost.
Qed.

Lemma codeBlockHtml_shape (lang body : string) :
  codeBlockHtml lang body +:+ nl
  = codeOpenLang +:+ lang +:+ String dqChar (">" +:+ body +:+ String "<" ("/code></pre>" +:+ nl)).
Proof. unfold codeBlockHtml. rewrite !append_assoc. reflexivity. Qed.

Lemma miniTurndown_codeBlock (options : TurndownOptions) (rules : list Rule)
    (lang body : string) :
  JS.forallb (notChar dqChar) lang = true -> JS.forallb (notChar "<") body = true ->
  miniTurndown options rules (codeBlockHtml lang body +:+ nl)
  = if String.eqb (codeBlockStyle options) "fenced"
    then fencedBlock lang body
    else "    " +:+ body.
Proof.
  intros Hlang Hbody. rewrite codeBlockHtml_shape.
  set (r1 := "/code></pre>" +:+ nl).
  set (r0 := ">" +:+ body +:+ String "<" r1).
  unfold miniTurndown.
  assert (stripPrefix "<p>" (codeOpenLang +:+ lang +:+ String dqChar r0) = None) as ->;
    [done|].
  rewrite stripPrefix_append. unfold miniCodeBlock.
  destruct (upTo_from dqChar lang r0 Hlang) as [-> ->].
  change (String dqChar r0) with (codeOpenLangEnd +:+ body +:+ String "<" r1).
  rewrite stripPrefix_append.
  destruct (upTo_from "<" body r1 Hbody) as [-> ->].
  change (String.eqb (String "<" r1) (codeClose +:+ nl)) with true.
  done.
Qed.

Lemma miniTurndown_codeBlockLaw :
  codeBlockLaw (fun html : string => html) miniSetContent miniTurndown.
Proof.
  intros options rules ed lang body Hstyle _ [Hlang _] [Hbody _].
  unfold miniSetContent. rewrite miniTurndown_codeBlock.
  - by rewrite Hstyle.
  - revert Hlang. apply forallb_impl. intros c Hc.
    by destruct (isLetter_class c Hc) as [_ H].
  - revert Hbody. apply forallb_impl. intros c Hc.
    by destruct (codeChar_class c Hc) as [_ H].
Qed.


